(** * Orchestration workflow engine: compiler, scheduler, steering, variables

    A shallow embedding of the workflow compiler (docs/core parser guide:
    [tokenize], [buildAST], [astToGraph], the five validators), of the
    scheduler (executor guide: [findExecutableNodes], [evaluateCondition],
    the merge functions), of the steering commands ([processJump],
    [resetFromNode]) and of [interpolateVariables]
    (src/temp-agents-executor.js), followed by the properties proved
    about them.

    Conventions.
    - JavaScript strings are [string]: sequences of code units below 256.
    - A node id is the string the code builds ([node-0], [node-1], ...).
    - [null]/[undefined] fields are [option]s.
    - A [Set] is the list of its elements in insertion order.
    - A function that can [throw] returns an [Outcome]. *)

From Stdlib Require Import Ascii String List ZArith Lia Bool.
From stdpp Require Import gmap strings list pretty.

Local Open Scope list_scope.

(** ** Outcomes of JavaScript calls *)

Abbreviation NodeId := string (only parsing).

(** The errors the modelled functions throw.  [errorMessage] below gives the
    text of each one. *)
Inductive JsError : Type :=
| TypeError (what : string)
| UnclosedSubgraph (position : nat)
| UnexpectedToken (type : string) (position : nat)
| UnexpectedCloseBracket (i : nat)
| UnclosedBrackets (depth : Z)
| UnknownAgent (agent : option string)
| NoStartNode
| OrphanedNodes (names : list (option string))
| CircularDependency (cycle : list NodeId)
| NoValueYet (varName : string)
| UnknownVariable (varName : string) (available : list string).

(** [OutOfFuel] is produced only by the functions whose recursion is bounded
    by a counter; the bounds chosen below are shown never to be reached. *)
Inductive Outcome (A : Type) : Type :=
| Return (a : A)
| Throw (e : JsError)
| OutOfFuel.

Arguments Return {A} a.
Arguments Throw {A} e.
Arguments OutOfFuel {A}.

Global Instance Outcome_bind : MBind Outcome := fun A B k m =>
  match m with
  | Return a => k a
  | Throw e => Throw e
  | OutOfFuel => OutOfFuel
  end.

(** ** Strings *)

(** [\s] on code units below 256. *)
Definition isSpace (c : ascii) : bool :=
  match c with
  | "009" | "010" | "011" | "012" | "013" | " " | "160" => true
  | _ => false
  end%char.

(** [\w]. *)
Definition isWordChar (c : ascii) : bool :=
  let n := nat_of_ascii c in
  ((48 <=? n) && (n <=? 57)) || ((65 <=? n) && (n <=? 90))
  || ((97 <=? n) && (n <=? 122)) || (n =? 95).

Fixpoint trimStart (s : string) : string :=
  match s with
  | String c s' => if isSpace c then trimStart s' else s
  | EmptyString => EmptyString
  end.

Fixpoint trimEnd (s : string) : string :=
  match s with
  | EmptyString => EmptyString
  | String c s' =>
      let t := trimEnd s' in
      if isSpace c && String.eqb t EmptyString then EmptyString else String c t
  end.

Definition trim (s : string) : string := trimEnd (trimStart s).

(** [s.toLowerCase()] on code units below 256. *)
Definition lowerChar (c : ascii) : ascii :=
  let n := nat_of_ascii c in
  if ((65 <=? n) && (n <=? 90)) || ((192 <=? n) && (n <=? 214))
     || ((216 <=? n) && (n <=? 222))
  then ascii_of_nat (n + 32) else c.

Fixpoint toLowerCase (s : string) : string :=
  match s with
  | EmptyString => EmptyString
  | String c s' => String (lowerChar c) (toLowerCase s')
  end.

(** [hay.includes(needle)]. *)
Fixpoint includes (needle hay : string) : bool :=
  String.prefix needle hay ||
  match hay with
  | EmptyString => false
  | String _ hay' => includes needle hay'
  end.

(** [xs.join(sep)]. *)
Fixpoint join (sep : string) (xs : list string) : string :=
  match xs with
  | [] => EmptyString
  | [x] => x
  | x :: xs' => x +:+ sep +:+ join sep xs'
  end.

(** The longest prefix of [rest] whose characters satisfy [keep], and what
    follows it: the three inner [while] loops of the tokenizer. *)
Fixpoint readWhile (keep : ascii -> bool) (rest : string) : string * string :=
  match rest with
  | String c rest' =>
      if keep c
      then let (taken, r) := readWhile keep rest' in (String c taken, r)
      else (EmptyString, rest)
  | EmptyString => (EmptyString, EmptyString)
  end.

Definition dropOne (s : string) : string :=
  match s with
  | String _ s' => s'
  | EmptyString => EmptyString
  end.

Definition nextIs (c : ascii) (s : string) : bool :=
  match s with
  | String c' _ => Ascii.eqb c c'
  | EmptyString => false
  end.

(** Every character of [s] satisfies [p]. *)
Fixpoint allChars (p : ascii -> bool) (s : string) : bool :=
  match s with
  | EmptyString => true
  | String c s' => p c && allChars p s'
  end.

(** ** Sets in insertion order *)

Definition setHas (x : string) (s : list string) : bool :=
  existsb (String.eqb x) s.

Definition setAdd (x : string) (s : list string) : list string :=
  if setHas x s then s else s ++ [x].

Definition setDelete (x : string) (s : list string) : list string :=
  List.filter (fun y => negb (String.eqb x y)) s.

(** ** Phase 1: tokenizer *)

Inductive Token : Type :=
| TAgent (value : string)
| TSequential
| TParallel
| TConditional
| TCheckpoint (value : string)
| TOpenBracket
| TCloseBracket
| TCondition (value : string)
| TAgentWithInstruction (agent instruction : string).

(** [token.type]. *)
Definition tokenType (t : Token) : string :=
  match t with
  | TAgent _ => "agent"
  | TSequential => "sequential"
  | TParallel => "parallel"
  | TConditional => "conditional"
  | TCheckpoint _ => "checkpoint"
  | TOpenBracket => "open-bracket"
  | TCloseBracket => "close-bracket"
  | TCondition _ => "condition"
  | TAgentWithInstruction _ _ => "agent-with-instruction"
  end.

(** [if (current.trim()) tokens.push({type: 'agent', value: current.trim()})] *)
Definition pushAgent (current : string) (tokens : list Token) : list Token :=
  if String.eqb (trim current) EmptyString then tokens
  else tokens ++ [TAgent (trim current)].

(** [/[\s\-\|\~\[\]\(\)]/]: the characters that end a checkpoint label. *)
Definition endsLabel (c : ascii) : bool :=
  isSpace c ||
  match c with
  | "-" | "|" | "~" | "[" | "]" | "(" | ")" => true
  | _ => false
  end%char.

(** The [while (position < workflow.length)] loop of [tokenize]; [rest] is the
    input from [position] on. *)
Fixpoint tokenizeLoop (fuel : nat) (rest current : string) (tokens : list Token)
  : Outcome (list Token) :=
  match fuel with
  | 0 => OutOfFuel
  | S fuel' =>
    match rest with
    | EmptyString => Return (pushAgent current tokens)
    | String char rest1 =>
      if Ascii.eqb char "-" && nextIs ">" rest1 then
        tokenizeLoop fuel' (dropOne rest1) EmptyString
          (pushAgent current tokens ++ [TSequential])
      else if Ascii.eqb char "|" && nextIs "|" rest1 then
        tokenizeLoop fuel' (dropOne rest1) EmptyString
          (pushAgent current tokens ++ [TParallel])
      else if Ascii.eqb char "~" && nextIs ">" rest1 then
        tokenizeLoop fuel' (dropOne rest1) EmptyString
          (pushAgent current tokens ++ [TConditional])
      else if Ascii.eqb char "@" then
        let (label, rest2) := readWhile (fun c => negb (endsLabel c)) rest1 in
        tokenizeLoop fuel' rest2 EmptyString
          (pushAgent current tokens ++ [TCheckpoint (String "@" label)])
      else if Ascii.eqb char "[" then
        tokenizeLoop fuel' rest1 EmptyString (pushAgent current tokens ++ [TOpenBracket])
      else if Ascii.eqb char "]" then
        tokenizeLoop fuel' rest1 EmptyString (pushAgent current tokens ++ [TCloseBracket])
      else if Ascii.eqb char "(" && String.prefix "(if " rest then
        let (condition, rest2) :=
          readWhile (fun c => negb (Ascii.eqb c ")")) rest in
        tokenizeLoop fuel' (dropOne rest2) EmptyString
          (pushAgent current tokens ++ [TCondition (condition +:+ ")")])
      else if Ascii.eqb char "034" then
        let agent := trim current in
        let (instruction, rest2) :=
          readWhile (fun c => negb (Ascii.eqb c "034")) rest1 in
        tokenizeLoop fuel' (dropOne rest2) EmptyString
          (tokens ++ [TAgentWithInstruction agent instruction])
      else if negb (isSpace char) then
        tokenizeLoop fuel' rest1 (current +:+ String char EmptyString) tokens
      else if negb (String.eqb (trim current) EmptyString) then
        tokenizeLoop fuel' rest1 EmptyString (tokens ++ [TAgent (trim current)])
      else
        tokenizeLoop fuel' rest1 current tokens
    end
  end.

(** Every iteration consumes a character, so one more step than the length
    of the input is enough (see [tokenize_total]). *)
Definition tokenize (workflow : string) : Outcome (list Token) :=
  tokenizeLoop (S (String.length workflow)) workflow EmptyString [].

(** The characters of a step name: the tokenizer appends them to the name
    it is reading, as long as no [>] follows (which would end the name at a
    [-]). *)
Definition nameChar (c : ascii) : bool :=
  negb (isSpace c) &&
  match c with
  | ">" | "|" | "~" | "@" | "[" | "]" | "(" | "034" => false
  | _ => true
  end%char.

(** [tokenize] throws on [workflow]. *)
Definition tokenizeFails (workflow : string) : Prop :=
  exists e, tokenize workflow = Throw e.

(** ** Phase 2: AST construction *)

Local Unset Elimination Schemes.
Inductive AST : Type :=
| Agent (name : string) (instruction : option string)
| Checkpoint (label : string)
| Sequence (steps : list AST)
| Parallel (branches : list AST)
| Conditional (source : AST) (condition : string) (target : AST)
| Subgraph (children : AST).
Local Set Elimination Schemes.

Definition getOperatorPrecedence (t : Token) : nat :=
  match t with
  | TOpenBracket => 4
  | TParallel => 3
  | TSequential => 2
  | TConditional => 1
  | _ => 0
  end.

(** Modelled from the spec: [findCondition], which [buildAST] calls and the
    parser guide does not define.  "A [~>] operator looks back one token for
    an adjacent condition annotation immediately preceding it": the value of
    the token at [index] when that token is a condition, [null] otherwise. *)
Definition findCondition (tokens : list Token) (index : nat) : option string :=
  match tokens !! index with
  | Some (TCondition value) => Some value
  | _ => None
  end.

(** [condition || 'if failed'] *)
Definition conditionOrDefault (condition : option string) : string :=
  match condition with
  | Some c => if String.eqb c EmptyString then "if failed" else c
  | None => "if failed"
  end.

(** [left.type === 'sequence' ? [...left.steps, right] : [left, right]] *)
Definition appendStep (left right : AST) : AST :=
  Sequence (match left with
            | Sequence steps => steps ++ [right]
            | _ => [left; right]
            end).

Definition appendBranch (left right : AST) : AST :=
  Parallel (match left with
            | Parallel branches => branches ++ [right]
            | _ => [left; right]
            end).

Section BuildAST.

Variable tokens : list Token.

(** [parseExpression], [parsePrimary] and the [while] loop of
    [parseExpression]; each takes the [position] it starts at and returns the
    one it leaves. *)
Fixpoint parseExpression (fuel : nat) (precedence position : nat)
  : Outcome (AST * nat) :=
  match fuel with
  | 0 => OutOfFuel
  | S fuel' =>
      r ← parsePrimary fuel' position;
      parseLoop fuel' precedence (fst r) (snd r)
  end
with parsePrimary (fuel : nat) (position : nat) : Outcome (AST * nat) :=
  match fuel with
  | 0 => OutOfFuel
  | S fuel' =>
      match tokens !! position with
      | None => Throw (TypeError "Cannot read properties of undefined (reading 'type')")
      | Some token =>
          let position1 := S position in
          match token with
          | TAgent value => Return (Agent value None, position1)
          | TAgentWithInstruction agent instruction =>
              Return (Agent agent (Some instruction), position1)
          | TCheckpoint value => Return (Checkpoint value, position1)
          | TOpenBracket =>
              r ← parseExpression fuel' 0 position1;
              match tokens !! snd r with
              | Some TCloseBracket => Return (Subgraph (fst r), S (snd r))
              | _ => Throw (UnclosedSubgraph (snd r))
              end
          | _ => Throw (UnexpectedToken (tokenType token) position1)
          end
      end
  end
with parseLoop (fuel : nat) (precedence : nat) (left : AST) (position : nat)
  : Outcome (AST * nat) :=
  match fuel with
  | 0 => OutOfFuel
  | S fuel' =>
      match tokens !! position with
      | None => Return (left, position)
      | Some token =>
          let opPrecedence := getOperatorPrecedence token in
          if opPrecedence <? precedence then Return (left, position)
          else
            let position1 := S position in
            match token with
            | TSequential =>
                r ← parseExpression fuel' (opPrecedence + 1) position1;
                parseLoop fuel' precedence (appendStep left (fst r)) (snd r)
            | TParallel =>
                r ← parseExpression fuel' (opPrecedence + 1) position1;
                parseLoop fuel' precedence (appendBranch left (fst r)) (snd r)
            | TConditional =>
                let condition := findCondition tokens (position1 - 2) in
                r ← parseExpression fuel' (opPrecedence + 1) position1;
                parseLoop fuel' precedence
                  (Conditional left (conditionOrDefault condition) (fst r))
                  (snd r)
            | _ => parseLoop fuel' precedence left position1
            end
      end
  end.

End BuildAST.

(** [2 * tokens.length + 2] calls are enough (see [buildAST_total]). *)
Definition buildAST (tokens : list Token) : Outcome AST :=
  r ← parseExpression tokens (2 * length tokens + 2) 0 0;
  Return (fst r).

(** ** Phase 3: graph creation *)

Inductive NodeType : Type :=
| AgentNode
| CheckpointNode
| ParallelEntry
| ParallelMerge.

Inductive Status : Type :=
| Pending
| Executing
| Completed
| Failed
| Skipped.

Record Node : Type := mkNode {
  id : NodeId;
  type : NodeType;
  agent : option string;
  instruction : option string;
  label : option string;
  waitFor : option (list (option NodeId));
  status : Status
}.

Record Edge : Type := mkEdge {
  from : NodeId;
  to : NodeId;
  condition : option string
}.

Record Graph : Type := mkGraph {
  nodes : list Node;
  edges : list Edge
}.

Global Instance NodeType_eq_dec : EqDecision NodeType.
Proof. solve_decision. Defined.
Global Instance Status_eq_dec : EqDecision Status.
Proof. solve_decision. Defined.
Global Instance Node_eq_dec : EqDecision Node.
Proof. solve_decision. Defined.
Global Instance Edge_eq_dec : EqDecision Edge.
Proof. solve_decision. Defined.

(** The three variables [astToGraph] closes over. *)
Record Lowering : Type := mkLowering {
  lNodes : list Node;
  lEdges : list Edge;
  nodeIdCounter : nat
}.

Definition nodeIdOf (n : nat) : NodeId := "node-" +:+ pretty n.

Definition generateId (st : Lowering) : NodeId * Lowering :=
  (nodeIdOf (nodeIdCounter st),
   mkLowering (lNodes st) (lEdges st) (S (nodeIdCounter st))).

Definition pushNode (n : Node) (st : Lowering) : Lowering :=
  mkLowering (lNodes st ++ [n]) (lEdges st) (nodeIdCounter st).

Definition pushEdge (e : Edge) (st : Lowering) : Lowering :=
  mkLowering (lNodes st) (lEdges st ++ [e]) (nodeIdCounter st).

(** [if (parentId) edges.push({from: parentId, to: nodeId, condition: null})];
    the ids the lowering passes around are never the empty string. *)
Definition linkFrom (parentId : option NodeId) (nodeId : NodeId)
  (st : Lowering) : Lowering :=
  match parentId with
  | Some p => pushEdge (mkEdge p nodeId None) st
  | None => st
  end.

(** [const edge = edges.find(...); if (edge) edge.condition = condition]:
    the first matching edge object is updated in place. *)
Fixpoint setFirstCondition (sourceId targetId : NodeId) (cond : string)
  (es : list Edge) : list Edge :=
  match es with
  | [] => []
  | e :: es' =>
      if String.eqb (from e) sourceId && String.eqb (to e) targetId
      then mkEdge (from e) (to e) (Some cond) :: es'
      else e :: setFirstCondition sourceId targetId cond es'
  end.

Definition attachCondition (sourceId targetId : option NodeId) (cond : string)
  (st : Lowering) : Lowering :=
  match sourceId, targetId with
  | Some s, Some t =>
      mkLowering (lNodes st) (setFirstCondition s t cond (lEdges st))
        (nodeIdCounter st)
  | _, _ => st
  end.

(** [for (const exitId of branchExits) edges.push({from: exitId, to: mergeId})];
    a branch is lowered below the entry node, so its exit is never [null]
    (see [processNode_exit_some]). *)
Fixpoint pushMergeEdges (branchExits : list (option NodeId)) (mergeId : NodeId)
  (st : Lowering) : Lowering :=
  match branchExits with
  | [] => st
  | Some exitId :: rest =>
      pushMergeEdges rest mergeId (pushEdge (mkEdge exitId mergeId None) st)
  | None :: rest => pushMergeEdges rest mergeId st
  end.

Fixpoint processNode (astNode : AST) (parentId : option NodeId) (st : Lowering)
  {struct astNode} : option NodeId * Lowering :=
  match astNode with
  | Agent name instr =>
      let (nodeId, st1) := generateId st in
      let st2 := pushNode (mkNode nodeId AgentNode (Some name) instr None None Pending) st1 in
      (Some nodeId, linkFrom parentId nodeId st2)
  | Checkpoint lbl =>
      let (nodeId, st1) := generateId st in
      let st2 := pushNode (mkNode nodeId CheckpointNode None None (Some lbl) None Pending) st1 in
      (Some nodeId, linkFrom parentId nodeId st2)
  | Sequence steps =>
      (fix loop (steps : list AST) (prevId : option NodeId) (st : Lowering)
         : option NodeId * Lowering :=
         match steps with
         | [] => (prevId, st)
         | step :: rest =>
             let (prevId1, st1) := processNode step prevId st in
             loop rest prevId1 st1
         end) steps parentId st
  | Parallel branches =>
      let (entryId, st1) := generateId st in
      let st2 := pushNode (mkNode entryId ParallelEntry None None None None Pending) st1 in
      let st3 := linkFrom parentId entryId st2 in
      let (branchExits, st4) :=
        (fix loop (branches : list AST) (exits : list (option NodeId))
           (st : Lowering) : list (option NodeId) * Lowering :=
           match branches with
           | [] => (exits, st)
           | branch :: rest =>
               let (branchExit, st1) := processNode branch (Some entryId) st in
               loop rest (exits ++ [branchExit]) st1
           end) branches [] st3 in
      let (mergeId, st5) := generateId st4 in
      let st6 := pushNode (mkNode mergeId ParallelMerge None None None (Some branchExits) Pending) st5 in
      (Some mergeId, pushMergeEdges branchExits mergeId st6)
  | Conditional source cond target =>
      let (sourceId, st1) := processNode source parentId st in
      let (targetId, st2) := processNode target sourceId st1 in
      (targetId, attachCondition sourceId targetId cond st2)
  | Subgraph children => processNode children parentId st
  end.

(** The two [for] loops of [processNode], named for the proofs. *)
Fixpoint processSteps (steps : list AST) (prevId : option NodeId)
  (st : Lowering) : option NodeId * Lowering :=
  match steps with
  | [] => (prevId, st)
  | step :: rest =>
      let (prevId1, st1) := processNode step prevId st in
      processSteps rest prevId1 st1
  end.

Fixpoint processBranches (entryId : NodeId) (branches : list AST)
  (exits : list (option NodeId)) (st : Lowering)
  : list (option NodeId) * Lowering :=
  match branches with
  | [] => (exits, st)
  | branch :: rest =>
      let (branchExit, st1) := processNode branch (Some entryId) st in
      processBranches entryId rest (exits ++ [branchExit]) st1
  end.

Definition astToGraph (ast : AST) : Graph :=
  let (_, st) := processNode ast None (mkLowering [] [] 0) in
  mkGraph (lNodes st) (lEdges st).

(** ** Phase 4: validation *)

(** [Array.prototype.every] and the [for] loops whose body can throw. *)
Fixpoint everyOutcome {A : Type} (f : A -> Outcome bool) (l : list A)
  : Outcome bool :=
  match l with
  | [] => Return true
  | a :: l' => b ← f a; if b : bool then everyOutcome f l' else Return false
  end.

Fixpoint foldOutcome {A S : Type} (f : A -> S -> Outcome S) (l : list A) (s : S)
  : Outcome S :=
  match l with
  | [] => Return s
  | a :: l' => s1 ← f a s; foldOutcome f l' s1
  end.

Fixpoint validateBracketsLoop (tokens : list Token) (i : nat) (depth : Z)
  : Outcome Z :=
  match tokens with
  | [] => Return depth
  | t :: rest =>
      let depth1 :=
        match t with
        | TOpenBracket => (depth + 1)%Z
        | TCloseBracket => (depth - 1)%Z
        | _ => depth
        end in
      if (depth1 <? 0)%Z then Throw (UnexpectedCloseBracket i)
      else validateBracketsLoop rest (S i) depth1
  end.

Definition validateBrackets (tokens : list Token) : Outcome unit :=
  depth ← validateBracketsLoop tokens 0 0%Z;
  if (0 <? depth)%Z then Throw (UnclosedBrackets depth) else Return tt.

Definition VALID_AGENTS : list string :=
  ["explore"; "general-purpose"; "code-reviewer";
   "implementation-architect"; "expert-code-implementer"].

(** [validAgents.includes(node.agent)] *)
Definition includesAgent (name : option string) (validAgents : list string)
  : bool :=
  match name with
  | Some a => existsb (String.eqb a) validAgents
  | None => false
  end.

(** [validateAgents], with the list of known agents as an argument;
    [VALID_AGENTS] is the one the parser guide uses. *)
Fixpoint validateAgentsLoop (validAgents : list string) (ns : list Node)
  : Outcome unit :=
  match ns with
  | [] => Return tt
  | node :: rest =>
      if bool_decide (type node = AgentNode)
         && negb (includesAgent (agent node) validAgents)
      then Throw (UnknownAgent (agent node))
      else validateAgentsLoop validAgents rest
  end.

Definition validateAgents (validAgents : list string) (graph : Graph)
  : Outcome unit :=
  validateAgentsLoop validAgents (nodes graph).

(** [graph.edges.filter(e => e.from === nodeId)] *)
Definition outgoingEdges (es : list Edge) (nodeId : NodeId) : list Edge :=
  List.filter (fun e => String.eqb (from e) nodeId) es.

(** [graph.edges.filter(e => e.to === nodeId)] *)
Definition incomingEdges (es : list Edge) (nodeId : NodeId) : list Edge :=
  List.filter (fun e => String.eqb (to e) nodeId) es.

(** Every id a traversal of the graph can meet; its length bounds the depth
    of the three depth-first searches. *)
Definition idUniverse (graph : Graph) : list NodeId :=
  List.map id (nodes graph) ++ List.map to (edges graph).

(** [visit] of [validateConnectivity]. *)
Fixpoint visitReachable (es : list Edge) (fuel : nat) (nodeId : NodeId)
  (reachable : list NodeId) : Outcome (list NodeId) :=
  match fuel with
  | 0 => OutOfFuel
  | S fuel' =>
      if setHas nodeId reachable then Return reachable
      else
        foldOutcome (fun edge r => visitReachable es fuel' (to edge) r)
          (outgoingEdges es nodeId) (setAdd nodeId reachable)
  end.

(** [n.agent || n.label] *)
Definition displayName (n : Node) : option string :=
  match agent n with
  | Some a => if String.eqb a EmptyString then label n else Some a
  | None => label n
  end.

Definition validateConnectivity (graph : Graph) : Outcome unit :=
  let startNodes :=
    List.filter
      (fun node => negb (existsb (fun edge => String.eqb (to edge) (id node))
                           (edges graph)))
      (nodes graph) in
  if (length startNodes =? 0)%nat then Throw NoStartNode
  else
    reachable ← foldOutcome
      (fun start r =>
         visitReachable (edges graph) (S (length (idUniverse graph))) (id start) r)
      startNodes [];
    let orphaned :=
      List.filter (fun node => negb (setHas (id node) reachable)) (nodes graph) in
    if (0 <? length orphaned)%nat
    then Throw (OrphanedNodes (List.map displayName orphaned))
    else Return tt.

(** [edge.condition] as a truth value: [null] and the empty string are falsy. *)
Definition hasCondition (e : Edge) : bool :=
  match condition e with
  | Some c => negb (String.eqb c EmptyString)
  | None => false
  end.

(** [path.indexOf(nodeId)] *)
Fixpoint indexOf (x : string) (l : list string) : option nat :=
  match l with
  | [] => None
  | y :: l' => if String.eqb y x then Some 0 else S <$> indexOf x l'
  end.

(** [path.slice(path.indexOf(nodeId)).concat(nodeId)]; [slice(-1)] keeps the
    last element. *)
Definition cycleFrom (path : list NodeId) (nodeId : NodeId) : list NodeId :=
  match indexOf nodeId path with
  | Some cycleStart => drop cycleStart path ++ [nodeId]
  | None => drop (length path - 1) path ++ [nodeId]
  end.

(** [visit] of [validateNoCycles]; the state is [(visiting, visited)]. *)
Fixpoint visitCycle (es : list Edge) (fuel : nat) (nodeId : NodeId)
  (path : list NodeId) (st : list NodeId * list NodeId)
  : Outcome (list NodeId * list NodeId) :=
  match fuel with
  | 0 => OutOfFuel
  | S fuel' =>
      if setHas nodeId (fst st)
      then Throw (CircularDependency (cycleFrom path nodeId))
      else if setHas nodeId (snd st) then Return st
      else
        let path1 := path ++ [nodeId] in
        st1 ← foldOutcome
          (fun edge s =>
             if negb (hasCondition edge)
             then visitCycle es fuel' (to edge) path1 s
             else Return s)
          (outgoingEdges es nodeId) (setAdd nodeId (fst st), snd st);
        Return (setDelete nodeId (fst st1), setAdd nodeId (snd st1))
  end.

Definition validateNoCycles (graph : Graph) : Outcome unit :=
  _ ← foldOutcome
    (fun node s =>
       if negb (setHas (id node) (snd s))
       then visitCycle (edges graph) (S (length (idUniverse graph))) (id node) [] s
       else Return s)
    (nodes graph) ([], []);
  Return tt.

Definition VALID_CONDITIONS : list string :=
  ["if passed"; "if failed"; "if all success"; "if any success";
   "if all failed"; "if any failed"].

Fixpoint dropTrailingParen (s : string) : string :=
  match s with
  | EmptyString => EmptyString
  | String c EmptyString => if Ascii.eqb c ")" then EmptyString else s
  | String c s' => String c (dropTrailingParen s')
  end.

(** [s.replace(/^\(|\)$/g, '')] *)
Definition stripParens (s : string) : string :=
  dropTrailingParen
    (match s with
     | String c s' => if Ascii.eqb c "(" then s' else s
     | EmptyString => EmptyString
     end).

(** [validateConditions] never throws; the result is what it prints with
    [console.warn], one line per custom condition. *)
Definition validateConditions (graph : Graph) : list string :=
  flat_map
    (fun edge =>
       match condition edge with
       | Some c =>
           if hasCondition edge
           then
             let cond := trim (stripParens c) in
             if existsb (String.eqb cond) VALID_CONDITIONS then []
             else ["Custom condition '" +:+ cond +:+
                   "' - will be evaluated from output. Built-in conditions: "
                   +:+ join ", " VALID_CONDITIONS]
           else []
       | None => []
       end)
    (edges graph).

Inductive ValidationResult : Type :=
| Valid
| Invalid (error : JsError).

(** [try { ... } catch (error) { ... }] *)
Definition tryCatch {A : Type} (body : Outcome A) (handler : JsError -> Outcome A)
  : Outcome A :=
  match body with
  | Throw e => handler e
  | other => other
  end.

Definition validateGraph (validAgents : list string) (graph : Graph)
  (tokens : list Token) : Outcome ValidationResult :=
  tryCatch
    (_ ← validateBrackets tokens;
     _ ← validateAgents validAgents graph;
     _ ← validateConnectivity graph;
     _ ← validateNoCycles graph;
     let _ := validateConditions graph in
     Return Valid)
    (fun error => Return (Invalid error)).

(** [error.message] for the errors above.  [findSimilar], which the parser
    guide calls and does not define, is an argument. *)
Definition errorMessage (findSimilar : string -> list string -> list string)
  (validAgents : list string) (e : JsError) : string :=
  match e with
  | TypeError what => what
  | UnclosedSubgraph position =>
      "Unclosed subgraph bracket at position " +:+ pretty position
  | UnexpectedToken ty position =>
      "Unexpected token: " +:+ ty +:+ " at position " +:+ pretty position
  | UnexpectedCloseBracket i => "Unexpected ']' at position " +:+ pretty i
  | UnclosedBrackets depth =>
      "Unclosed '[' - missing " +:+ pretty depth +:+ " closing bracket(s)"
  | UnknownAgent a =>
      let name := default "undefined" a in
      "Unknown agent '" +:+ name +:+ "'. Valid agents: " +:+
      join ", " validAgents +:+ ". " +:+
      match findSimilar name validAgents with
      | s :: _ => "Did you mean '" +:+ s +:+ "'?"
      | [] => EmptyString
      end
  | NoStartNode => "No start node found - workflow has no entry point"
  | OrphanedNodes names =>
      "Orphaned nodes detected (not reachable from start): " +:+
      join ", " (List.map (default EmptyString) names)
  | CircularDependency cycle =>
      "Circular dependency detected: " +:+ join " -> " cycle +:+ String "010"
      ("Workflows cannot have cycles without exit conditions. " +:+
       "Use conditional flow to create loops: @try -> step (if failed)~> @try")
  | NoValueYet varName =>
      "Variable '" +:+ varName +:+ "' is referenced but has no value yet. " +:+
      "Make sure the agent that produces this variable runs first."
  | UnknownVariable varName available =>
      "Unknown variable '{" +:+ varName +:+ "}' in instruction. " +:+
      "Available variables: " +:+
      (if String.eqb (join ", " available) EmptyString then "none"
       else join ", " available)
  end.

(** Tokenize, parse, lower and validate one workflow text. *)
Definition compileAndValidate (validAgents : list string) (workflow : string)
  : Outcome ValidationResult :=
  tokens ← tokenize workflow;
  ast ← buildAST tokens;
  validateGraph validAgents (astToGraph ast) tokens.

(** ** Execution state *)

(** A duration in milliseconds; [Math.max()] of nothing is [-Infinity]. *)
Inductive Duration : Type :=
| MinusInfinity
| Millis (ms : Z).

(** The objects stored in [state.execution.outputs]: [{result, duration,
    success}] after a success, [{error, duration, success}] after a failure,
    [{success, results, duration}] for a merge. *)
Record Output : Type := mkOutput {
  success : bool;
  result : option string;
  error : option string;
  results : option (list (option string));
  duration : Duration
}.

Record Execution : Type := mkExecution {
  current : list NodeId;
  completed : list NodeId;
  failed : list NodeId;
  skipped : list NodeId;
  outputs : gmap NodeId Output
}.

Record Steering : Type := mkSteering {
  paused : bool;
  position : option NodeId;
  command : option string
}.

Record State : Type := mkState {
  workflow : string;
  graph : Graph;
  execution : Execution;
  steering : Steering
}.

(** [state.graph.nodes.find(n => n.id === nodeId)] *)
Definition findNode (ns : list Node) (nodeId : NodeId) : option Node :=
  List.find (fun n => String.eqb (id n) nodeId) ns.

(** The names every object inherits from [Object.prototype]: looked up in
    [CONDITION_EVALUATORS] or in [state.execution.outputs], such a name finds
    the inherited property. *)
Definition inheritedName (name : string) : bool :=
  existsb (String.eqb name)
    ["constructor"; "hasOwnProperty"; "isPrototypeOf"; "propertyIsEnumerable";
     "toLocaleString"; "toString"; "valueOf"; "__defineGetter__";
     "__defineSetter__"; "__lookupGetter__"; "__lookupSetter__"; "__proto__"].

(** [CONDITION_EVALUATORS[condition](output)] for a condition that is an
    inherited name: what the call does, with the value it returns read as a
    condition.  [constructor], [toString], [toLocaleString] and [valueOf]
    return an object or the string [[object Object]]; [hasOwnProperty],
    [isPrototypeOf] and [propertyIsEnumerable] return [false] and the two
    lookups [undefined], since the table has no property named after an
    output; the two definers throw for want of a function; and [__proto__]
    is an object, which cannot be called. *)
Definition inheritedMember (cond : string) : option (Outcome bool) :=
  if existsb (String.eqb cond)
       ["constructor"; "toString"; "toLocaleString"; "valueOf"]
  then Some (Return true)
  else if existsb (String.eqb cond)
            ["hasOwnProperty"; "isPrototypeOf"; "propertyIsEnumerable";
             "__lookupGetter__"; "__lookupSetter__"]
  then Some (Return false)
  else if String.eqb cond "__defineGetter__"
  then Some (Throw (TypeError "Object.prototype.__defineGetter__: Expecting function"))
  else if String.eqb cond "__defineSetter__"
  then Some (Throw (TypeError "Object.prototype.__defineSetter__: Expecting function"))
  else if String.eqb cond "__proto__"
  then Some (Throw (TypeError "CONDITION_EVALUATORS[condition] is not a function"))
  else None.

(** ** Scheduler *)

Section Executor.

(** [JSON.stringify] on an output object. *)
Variable JSON_stringify : Output -> string.

Definition undefinedProperty (name : string) : JsError :=
  TypeError ("Cannot read properties of undefined (reading '" +:+ name +:+ "')").

(** [evaluateCustomCondition] *)
Definition evaluateCustomCondition (cond : string) (output : option Output)
  : Outcome bool :=
  match output with
  | None => Throw (undefinedProperty "toLowerCase")
  | Some o =>
      let outputStr := toLowerCase (JSON_stringify o) in
      let conditionLower := toLowerCase cond in
      if String.prefix "if contains " conditionLower then
        Return (includes
                  (String.substring 12 (String.length conditionLower - 12) conditionLower)
                  outputStr)
      else if String.prefix "if not contains " conditionLower then
        Return (negb (includes
                  (String.substring 16 (String.length conditionLower - 16) conditionLower)
                  outputStr))
      else Return (success o)
  end.

(** [evaluateCondition]: the table [CONDITION_EVALUATORS], then the custom
    conditions; the result is the value returned, read as a condition.  The
    four aggregate evaluators call [outputs.every] or [outputs.some] on
    their argument, which is an output object and not an array.  The lookup
    in the table also finds the properties the table inherits. *)
Definition evaluateCondition (conditionStr : string) (output : option Output)
  : Outcome bool :=
  let cond := trim (stripParens conditionStr) in
  if String.eqb cond "if passed" then
    match output with
    | Some o => Return (success o)
    | None => Throw (undefinedProperty "success")
    end
  else if String.eqb cond "if failed" then
    match output with
    | Some o => Return (negb (success o))
    | None => Throw (undefinedProperty "success")
    end
  else if String.eqb cond "if all success" || String.eqb cond "if all failed" then
    match output with
    | Some o => Throw (TypeError "outputs.every is not a function")
    | None => Throw (undefinedProperty "every")
    end
  else if String.eqb cond "if any success" || String.eqb cond "if any failed" then
    match output with
    | Some o => Throw (TypeError "outputs.some is not a function")
    | None => Throw (undefinedProperty "some")
    end
  else
    match inheritedMember cond with
    | Some called => called
    | None => evaluateCustomCondition cond output
    end.

(** The callback of [incoming.every] in [findExecutableNodes]. *)
Definition edgeSatisfied (state : State) (edge : Edge) : Outcome bool :=
  match findNode (nodes (graph state)) (from edge) with
  | None => Throw (undefinedProperty "status")
  | Some sourceNode =>
      if negb (bool_decide (status sourceNode = Completed)) then Return false
      else
        match condition edge with
        | Some c =>
            if hasCondition edge
            then evaluateCondition c (outputs (execution state) !! from edge)
            else Return true
        | None => Return true
        end
  end.

Definition findExecutableNodes (state : State) : Outcome (list Node) :=
  foldOutcome
    (fun node ready =>
       if negb (bool_decide (status node = Pending)) then Return ready
       else
         let incoming := incomingEdges (edges (graph state)) (id node) in
         if (length incoming =? 0)%nat then Return (ready ++ [node])
         else
           allSatisfied ← everyOutcome (edgeSatisfied state) incoming;
           if allSatisfied : bool then Return (ready ++ [node])
           else Return ready)
    (nodes (graph state)) [].

End Executor.

(** ** Parallel merge *)





(** [node.status = newStatus] for the node object at [index] of
    [graph.nodes]. *)
Definition setStatusAt (index : nat) (newStatus : Status) (ns : list Node)
  : list Node :=
  match ns !! index with
  | Some n =>
      <[index := mkNode (id n) (type n) (agent n) (instruction n) (label n)
                   (waitFor n) newStatus]> ns
  | None => ns
  end.


(** ** Steering: jump *)

(** [visitDownstream] of [resetFromNode]; the state is [(toReset, visited)]. *)
Fixpoint visitDownstream (es : list Edge) (fuel : nat) (nodeId : NodeId)
  (st : list NodeId * list NodeId) : Outcome (list NodeId * list NodeId) :=
  match fuel with
  | 0 => OutOfFuel
  | S fuel' =>
      if setHas nodeId (snd st) then Return st
      else
        foldOutcome (fun edge s => visitDownstream es fuel' (to edge) s)
          (outgoingEdges es nodeId)
          (setAdd nodeId (fst st), setAdd nodeId (snd st))
  end.

(** [nodes.find(n => n.id === nodeId)] as a position in [nodes]. *)
Fixpoint findNodeIndex (ns : list Node) (nodeId : NodeId) : option nat :=
  match ns with
  | [] => None
  | n :: ns' =>
      if String.eqb (id n) nodeId then Some 0 else S <$> findNodeIndex ns' nodeId
  end.

(** The body of the [for (const id of toReset)] loop. *)
Definition resetOne (nodeId : NodeId) (state : State) : State :=
  match findNodeIndex (nodes (graph state)) nodeId with
  | Some index =>
      match nodes (graph state) !! index with
      | Some n =>
          if negb (bool_decide (type n = CheckpointNode)) then
            let ex := execution state in
            mkState (workflow state)
              (mkGraph (setStatusAt index Pending (nodes (graph state)))
                 (edges (graph state)))
              (mkExecution (current ex)
                 (List.filter (fun cid => negb (String.eqb cid nodeId)) (completed ex))
                 (List.filter (fun fid => negb (String.eqb fid nodeId)) (failed ex))
                 (skipped ex)
                 (delete nodeId (outputs ex)))
              (steering state)
          else state
      | None => state
      end
  | None => state
  end.

Definition resetFromNode (node : Node) (state : State) : Outcome State :=
  st ← visitDownstream (edges (graph state))
         (S (length (idUniverse (graph state)) + 1)) (id node) ([id node], []);
  Return (fold_left (fun s nodeId => resetOne nodeId s) (fst st) state).

Definition getJumpTargets (state : State) : list Node :=
  List.filter
    (fun node =>
       bool_decide (status node = Completed)
       || bool_decide (status node = Pending)
       || bool_decide (type node = CheckpointNode))
    (nodes (graph state)).

(** [{action: 'jump', success, target}] or [{action: 'jump', success: false,
    error}]. *)
Inductive JumpResult : Type :=
| JumpDone (target : NodeId)
| JumpFailed (error : string).

(** [processJump]; [selectedLabel] is what the operator answered. *)
Definition processJump (selectedLabel : option string) (state : State)
  : Outcome (JumpResult * State) :=
  let targets := getJumpTargets state in
  match List.find (fun n => bool_decide (displayName n = selectedLabel)) targets with
  | None => Return (JumpFailed "Invalid target", state)
  | Some targetNode =>
      state1 ← resetFromNode targetNode state;
      Return (JumpDone (id targetNode),
              mkState (workflow state1) (graph state1) (execution state1)
                (mkSteering false (Some (id targetNode))
                   (command (steering state1))))
  end.

(** ** Variable interpolation *)

(** A stored value: [null], [undefined], a string, or any other value that is
    no function, given by its [JSON.stringify(value, null, 2)]. *)
Inductive JsValue : Type :=
| VNull
| VUndefined
| VString (s : string)
| VOther (json : string).

(** The own properties of the [variables] object, in [Object.keys] order;
    the object inherits from [Object.prototype], as [{}] does. *)
Definition Variables := list (string * JsValue).

Fixpoint getOwn (varName : string) (variables : Variables) : option JsValue :=
  match variables with
  | [] => None
  | (k, v) :: rest => if String.eqb k varName then Some v else getOwn varName rest
  end.

Definition objectKeys (variables : Variables) : list string :=
  List.map fst variables.

Definition MAX_LENGTH : nat := 2000.

Definition truncateValue (str : string) : string :=
  if (MAX_LENGTH <? String.length str)%nat
  then String.substring 0 MAX_LENGTH str
       +:+ String "010" (String "010" "... (truncated)")
  else str.

(** The error of the call [variables.hasOwnProperty(varName)] on a store
    that has a variable of its own named [hasOwnProperty]: the stored value,
    which is no function, hides the method every object inherits. *)
Definition notAFunction : JsError :=
  TypeError "variables.hasOwnProperty is not a function".

(** [variables.hasOwnProperty(varName)] *)
Definition hasOwn (variables : Variables) (varName : string) : Outcome bool :=
  match getOwn "hasOwnProperty" variables with
  | Some _ => Throw notAFunction
  | None => Return (bool_decide (getOwn varName variables <> None))
  end.

(** The callback given to [instruction.replace]. *)
Definition replacePlaceholder (variables : Variables) (varName : string)
  : Outcome string :=
  own ← hasOwn variables varName;
  if own : bool then
    match getOwn varName variables with
    | Some VNull | Some VUndefined | None => Throw (NoValueYet varName)
    | Some (VString s) => Return (truncateValue s)
    | Some (VOther json) => Return (truncateValue json)
    end
  else Throw (UnknownVariable varName (objectKeys variables)).

(** [s.replace(/\{(\w+)\}/g, callback)]: matches are found left to right and
    do not overlap; the callback runs once per match, in that order. *)
Fixpoint replaceAll (variables : Variables) (fuel : nat) (s : string)
  : Outcome string :=
  match fuel with
  | 0 => OutOfFuel
  | S fuel' =>
      match s with
      | EmptyString => Return EmptyString
      | String c rest =>
          let (name, after) := readWhile isWordChar rest in
          if Ascii.eqb c "{" && negb (String.eqb name EmptyString)
             && nextIs "}" after
          then
            text ← replacePlaceholder variables name;
            tail ← replaceAll variables fuel' (dropOne after);
            Return (text +:+ tail)
          else
            tail ← replaceAll variables fuel' rest;
            Return (String c tail)
      end
  end.

Definition interpolateVariables (instr : option string) (variables : Variables)
  : Outcome (option string) :=
  match instr with
  | None => Return None
  | Some s =>
      if String.eqb s EmptyString then Return instr
      else r ← replaceAll variables (S (String.length s)) s; Return (Some r)
  end.

(** ** Chains of steps (for the statements about [buildAST]) *)

(** One step of a chain: a token [parsePrimary] turns into a leaf. *)
Inductive Step : Type :=
| StepAgent (name : string)
| StepWithInstruction (agent instruction : string)
| StepCheckpoint (label : string).

Definition stepToken (s : Step) : Token :=
  match s with
  | StepAgent name => TAgent name
  | StepWithInstruction agent instruction => TAgentWithInstruction agent instruction
  | StepCheckpoint label => TCheckpoint label
  end.

Definition stepAST (s : Step) : AST :=
  match s with
  | StepAgent name => Agent name None
  | StepWithInstruction agent instruction => Agent agent (Some instruction)
  | StepCheckpoint label => Checkpoint label
  end.

(** The tokens of [s1 op s2 op ... op sn]. *)
Fixpoint chainTokens (op : Token) (steps : list Step) : list Token :=
  match steps with
  | [] => []
  | [s] => [stepToken s]
  | s :: rest => stepToken s :: op :: chainTokens op rest
  end.

Definition chainTail (op : Token) (steps : list Step) : list Token :=
  flat_map (fun s => [op; stepToken s]) steps.

(** [m] returns a value that satisfies [P], or throws; it does not run out
    of fuel. *)
Definition terminates {A : Type} (P : A -> Prop) (m : Outcome A) : Prop :=
  match m with
  | Return a => P a
  | Throw _ => True
  | OutOfFuel => False
  end.

(** ** Measures on ASTs (for the statements about [astToGraph]) *)

(** The number of graph nodes an AST lowers to. *)
Fixpoint nodeCount (a : AST) : nat :=
  match a with
  | Agent _ _ => 1
  | Checkpoint _ => 1
  | Sequence steps =>
      (fix sum (l : list AST) : nat :=
         match l with
         | [] => 0
         | x :: l' => nodeCount x + sum l'
         end) steps
  | Parallel branches =>
      2 + (fix sum (l : list AST) : nat :=
             match l with
             | [] => 0
             | x :: l' => nodeCount x + sum l'
             end) branches
  | Conditional source _ target => nodeCount source + nodeCount target
  | Subgraph children => nodeCount children
  end.

Fixpoint nodeCountList (l : list AST) : nat :=
  match l with
  | [] => 0
  | x :: l' => nodeCount x + nodeCountList l'
  end.

(** The condition texts that occur in an AST. *)
Fixpoint conditionsOf (a : AST) : list string :=
  match a with
  | Agent _ _ => []
  | Checkpoint _ => []
  | Sequence steps =>
      (fix all (l : list AST) : list string :=
         match l with
         | [] => []
         | x :: l' => conditionsOf x ++ all l'
         end) steps
  | Parallel branches =>
      (fix all (l : list AST) : list string :=
         match l with
         | [] => []
         | x :: l' => conditionsOf x ++ all l'
         end) branches
  | Conditional source cond target =>
      conditionsOf source ++ cond :: conditionsOf target
  | Subgraph children => conditionsOf children
  end.

Fixpoint conditionsOfList (l : list AST) : list string :=
  match l with
  | [] => []
  | x :: l' => conditionsOf x ++ conditionsOfList l'
  end.

(** [x] is one of the ids [node-lo], ..., [node-(hi-1)]. *)
Definition idBetween (lo hi : nat) (x : NodeId) : Prop :=
  exists k, lo <= k < hi /\ x = nodeIdOf k.

(** A state of the lowering in which [processNode] can be called with
    [parentId]: the targets of the edges and the parent are ids already
    generated. *)
Definition wfLowering (st : Lowering) (parentId : option NodeId) : Prop :=
  (forall e, In e (lEdges st) -> idBetween 0 (nodeIdCounter st) (to e))
  /\ (forall p, parentId = Some p -> idBetween 0 (nodeIdCounter st) p).

(** The endpoints of the edges, without their conditions. *)
Definition skeleton (es : list Edge) : list (NodeId * NodeId) :=
  List.map (fun e => (from e, to e)) es.

(** Induction on ASTs, with the hypothesis for every element of a list of
    steps or branches. *)
Section AST_induction.

Variable P : AST -> Prop.
Hypothesis HAgent : forall name instr, P (Agent name instr).
Hypothesis HCheckpoint : forall lbl, P (Checkpoint lbl).
Hypothesis HSequence : forall steps, Forall P steps -> P (Sequence steps).
Hypothesis HParallel : forall branches, Forall P branches -> P (Parallel branches).
Hypothesis HConditional :
  forall source cond target, P source -> P target -> P (Conditional source cond target).
Hypothesis HSubgraph : forall children, P children -> P (Subgraph children).

Fixpoint AST_ind (a : AST) : P a :=
  match a with
  | Agent name instr => HAgent name instr
  | Checkpoint lbl => HCheckpoint lbl
  | Sequence steps =>
      HSequence steps
        ((fix all (l : list AST) : Forall P l :=
            match l with
            | [] => @List.Forall_nil _ P
            | x :: l' => @List.Forall_cons _ P x l' (AST_ind x) (all l')
            end) steps)
  | Parallel branches =>
      HParallel branches
        ((fix all (l : list AST) : Forall P l :=
            match l with
            | [] => @List.Forall_nil _ P
            | x :: l' => @List.Forall_cons _ P x l' (AST_ind x) (all l')
            end) branches)
  | Conditional source cond target =>
      HConditional source cond target (AST_ind source) (AST_ind target)
  | Subgraph children => HSubgraph children (AST_ind children)
  end.

End AST_induction.

(** What a call of [processNode] that allocates [count] nodes does to the
    lowering state: the counter advances by [count]; the edges it adds enter
    the fresh nodes and leave [parentId] or a fresh node; it returns
    [parentId] when [count] is zero and a fresh id otherwise; and an added
    edge from [parentId] to the returned id exists only when [count] is 1. *)
Definition lowered (count : nat) (parentId : option NodeId) (st : Lowering)
  (res : option NodeId * Lowering) : Prop :=
  let c0 := nodeIdCounter st in
  let c1 := nodeIdCounter (snd res) in
  c1 = c0 + count
  /\ (exists new,
        skeleton (lEdges (snd res)) = skeleton (lEdges st) ++ new
        /\ (forall x y, In (x, y) new ->
              idBetween c0 c1 y /\ (parentId = Some x \/ idBetween c0 c1 x))
        /\ (forall x y, In (x, y) new -> parentId = Some x ->
              idBetween 0 c0 x -> fst res = Some y -> count = 1))
  /\ (count = 0 -> fst res = parentId)
  /\ (count <> 0 -> exists r, fst res = Some r /\ idBetween c0 c1 r).

(** The same for the loop over the branches of a parallel node. *)
Definition branchesLowered (entryId : NodeId) (branches : list AST)
  (exits : list (option NodeId)) (st : Lowering)
  (res : list (option NodeId) * Lowering) : Prop :=
  let c0 := nodeIdCounter st in
  let c1 := nodeIdCounter (snd res) in
  c1 = c0 + nodeCountList branches
  /\ (exists new,
        skeleton (lEdges (snd res)) = skeleton (lEdges st) ++ new
        /\ (forall x y, In (x, y) new ->
              idBetween c0 c1 y /\ (x = entryId \/ idBetween c0 c1 x)))
  /\ (exists ex,
        fst res = exits ++ ex
        /\ length ex = length branches
        /\ (forall e, In e ex ->
              exists r, e = Some r /\ (r = entryId \/ idBetween c0 c1 r))).

(** The ids in a list of branch exits. *)
Fixpoint definedIds (exits : list (option NodeId)) : list NodeId :=
  match exits with
  | [] => []
  | Some x :: rest => x :: definedIds rest
  | None :: rest => definedIds rest
  end.

(** Every condition on an edge of [st'] was on an edge of [st] or is one of
    [cs]. *)
Definition conditionsFrom (cs : list string) (st st' : Lowering) : Prop :=
  forall e c, In e (lEdges st') -> condition e = Some c ->
    (exists e0, In e0 (lEdges st) /\ condition e0 = Some c) \/ In c cs.


(** ** Edges, paths and cycles (for the statements about the validators) *)

(** An edge from [a] to [b]. *)
Definition anyEdge (es : list Edge) (a b : NodeId) : Prop :=
  exists e, In e es /\ from e = a /\ to e = b.

(** An edge from [a] to [b] without a condition. *)
Definition unconditionalEdge (es : list Edge) (a b : NodeId) : Prop :=
  exists e, In e es /\ from e = a /\ to e = b /\ hasCondition e = false.

(** Consecutive nodes of [l] are joined by unconditional edges. *)
Fixpoint unconditionalPath (es : list Edge) (l : list NodeId) : Prop :=
  match l with
  | a :: l' =>
      match l' with
      | b :: _ => unconditionalEdge es a b /\ unconditionalPath es l'
      | [] => True
      end
  | [] => True
  end.

(** [cycle] is [n; ...; n]: a closed walk along unconditional edges. *)
Definition unconditionalCycle (es : list Edge) (cycle : list NodeId) : Prop :=
  unconditionalPath es cycle
  /\ exists n middle, cycle = n :: middle ++ [n].

(** A cycle with an unconditional edge: one from [a] to [b], and a way back
    from [b] to [a] along edges of any kind. *)
Definition cycleWithUnconditionalEdge (graph : Graph) : Prop :=
  exists a b, unconditionalEdge (edges graph) a b
              /\ rtc (anyEdge (edges graph)) b a.

(** Successors come first: in [visited], every node is preceded by the
    targets of its unconditional edges. *)
Definition successorsFirst (es : list Edge) (visited : list NodeId) : Prop :=
  forall before x after, visited = before ++ x :: after ->
    forall y, unconditionalEdge es x y -> In y before.

(** The ids of [universe] that are not in [seen]. *)
Definition unseen (universe seen : list NodeId) : nat :=
  length (List.filter (fun x => negb (setHas x seen)) universe).

(** [m] returns a value that satisfies [R], or throws an error that
    satisfies [T]. *)
Definition outcomeSpec {A : Type} (R : A -> Prop) (T : JsError -> Prop)
  (m : Outcome A) : Prop :=
  match m with
  | Return a => R a
  | Throw e => T e
  | OutOfFuel => False
  end.

(** The error of the first check that throws, if any. *)
Fixpoint firstFailure (checks : list (Outcome unit)) : option JsError :=
  match checks with
  | [] => None
  | Throw e :: _ => Some e
  | _ :: rest => firstFailure rest
  end.

(** The result of [validateGraph] reports the error [e]. *)
Definition reports (r : Outcome ValidationResult) (e : JsError) : Prop :=
  r = Return (Invalid e).

(** A start node, a step, and a way back from the next step under a
    condition: the loop the error message of [validateNoCycles] recommends. *)
Definition retryLoopGraph : Graph :=
  mkGraph
    [mkNode "node-0" AgentNode (Some "explore") None None None Pending;
     mkNode "node-1" AgentNode (Some "general-purpose") None None None Pending;
     mkNode "node-2" AgentNode (Some "code-reviewer") None None None Pending]
    [mkEdge "node-0" "node-1" None;
     mkEdge "node-1" "node-2" None;
     mkEdge "node-2" "node-1" (Some "(if failed)")].

(** Two steps that follow each other without any condition. *)
Definition unconditionalLoopGraph : Graph :=
  mkGraph
    [mkNode "node-0" AgentNode (Some "explore") None None None Pending;
     mkNode "node-1" AgentNode (Some "general-purpose") None None None Pending;
     mkNode "node-2" AgentNode (Some "code-reviewer") None None None Pending]
    [mkEdge "node-0" "node-1" None;
     mkEdge "node-1" "node-2" None;
     mkEdge "node-2" "node-1" None].

(** What the error thrown by the cycle search is: a cycle of unconditional
    edges that can be reached from [root] along unconditional edges. *)
Definition cycleFound (es : list Edge) (root : NodeId) (e : JsError) : Prop :=
  exists cycle,
    e = CircularDependency cycle
    /\ unconditionalCycle es cycle
    /\ exists x rest, cycle = x :: rest /\ rtc (unconditionalEdge es) root x.

(** What a call of the cycle search that returns has done to
    [(visiting, visited)]. *)
Definition visitedAfter (es : list Edge) (nodeId : NodeId)
  (st st' : list NodeId * list NodeId) : Prop :=
  fst st' = fst st
  /\ (forall x, In x (snd st) -> In x (snd st'))
  /\ In nodeId (snd st')
  /\ successorsFirst es (snd st').


(** Tokenize, parse and lower one workflow text. *)
Definition compileGraph (workflow : string) : Outcome Graph :=
  tokens ← tokenize workflow;
  ast ← buildAST tokens;
  Return (astToGraph ast).

(** A graph with a step no directory of the parser guide knows. *)
Definition unknownStepGraph : Graph :=
  mkGraph [mkNode "node-0" AgentNode (Some "deploy") None None None Pending] [].


(** ** The ready set, as the specification words it *)

(** "An edge is satisfied if its source is completed (or skipped) and, if the
    edge carries a condition, the condition evaluates true against the
    source's captured output." *)
Definition specEdgeSatisfied (JSON_stringify : Output -> string) (state : State)
  (edge : Edge) : bool :=
  match findNode (nodes (graph state)) (from edge) with
  | Some sourceNode =>
      (bool_decide (status sourceNode = Completed)
       || bool_decide (status sourceNode = Skipped))
      && match condition edge with
         | Some c =>
             if hasCondition edge
             then match evaluateCondition JSON_stringify c
                          (outputs (execution state) !! from edge) with
                  | Return b => b
                  | _ => false
                  end
             else true
         | None => true
         end
  | None => false
  end.

(** "Pending nodes all of whose incoming edges are satisfied." *)
Definition specReadySet (JSON_stringify : Output -> string) (state : State)
  : list Node :=
  List.filter
    (fun node =>
       bool_decide (status node = Pending)
       && forallb (specEdgeSatisfied JSON_stringify state)
            (incomingEdges (edges (graph state)) (id node)))
    (nodes (graph state)).

(** What [findExecutableNodes] requires of an edge: the source completed, and
    the condition, if any, evaluated to true. *)
Definition codeEdgeSatisfied (JSON_stringify : Output -> string) (state : State)
  (edge : Edge) : bool :=
  match edgeSatisfied JSON_stringify state edge with
  | Return b => b
  | _ => false
  end.

(** A step that failed and was skipped by the operator, followed by a step
    that waits for it. *)
Definition skippedSourceState : State :=
  mkState "lint -> test"
    (mkGraph
       [mkNode "node-0" AgentNode (Some "lint") None None None Skipped;
        mkNode "node-1" AgentNode (Some "test") None None None Pending]
       [mkEdge "node-0" "node-1" None])
    (mkExecution [] [] [] ["node-0"]
       (<["node-0" := mkOutput false None (Some "lint crashed") None (Millis 12)]> ∅))
    (mkSteering false None None).





(** [x] is the exit of a branch for which the lowering makes [count] nodes,
    the first of them numbered [first]: one of these nodes, or the entry
    node when the branch makes no node. *)
Definition branchExit (first count : nat) (entryId x : NodeId) : Prop :=
  (count = 0 /\ x = entryId) \/ idBetween first (first + count) x.

(** ** Resetting a region (for the statements about [processJump]) *)

(** [resetFromNode] changes the node with id [x]: [find] returns a node for
    it, and that node is not a checkpoint. *)
Definition isResettable (ns : list Node) (x : NodeId) : bool :=
  match findNode ns x with
  | Some n => negb (bool_decide (type n = CheckpointNode))
  | None => false
  end.

(** [n] with [n.status = newStatus]. *)
Definition withStatus (newStatus : Status) (n : Node) : Node :=
  mkNode (id n) (type n) (agent n) (instruction n) (label n) (waitFor n) newStatus.

(** What the search of [resetFromNode] that returns has done to
    [(toReset, visited)]: it has visited [nodeId], only nodes that can be
    reached from it, and every successor of a node it has visited; and it has
    put what it has visited in [toReset]. *)
Definition downstreamVisited (es : list Edge) (nodeId : NodeId)
  (st st' : list NodeId * list NodeId) : Prop :=
  (forall x, In x (snd st) -> In x (snd st'))
  /\ In nodeId (snd st')
  /\ (forall x, In x (snd st') -> In x (snd st) \/ rtc (anyEdge es) nodeId x)
  /\ (forall x, In x (snd st') -> ~ In x (snd st) ->
        forall y, anyEdge es x y -> In y (snd st'))
  /\ (forall x, In x (fst st') <->
        In x (fst st) \/ (In x (snd st') /\ ~ In x (snd st))).

(** A finished run [plan -> @review -> build], and an unrelated finished
    step. *)
Definition checkpointDownstreamState : State :=
  mkState "plan -> @review -> build"
    (mkGraph
       [mkNode "node-0" AgentNode (Some "plan") None None None Completed;
        mkNode "node-1" CheckpointNode None None (Some "@review") None Completed;
        mkNode "node-2" AgentNode (Some "build") None None None Completed;
        mkNode "node-3" AgentNode (Some "docs") None None None Completed]
       [mkEdge "node-0" "node-1" None; mkEdge "node-1" "node-2" None])
    (mkExecution [] ["node-0"; "node-1"; "node-2"; "node-3"] [] []
       (<["node-0" := mkOutput true (Some "the plan") None None (Millis 3)]>
          (<["node-2" := mkOutput true (Some "built") None None (Millis 8)]>
             (<["node-3" := mkOutput true (Some "docs") None None (Millis 2)]> ∅))))
    (mkSteering true (Some "node-1") None).

(** [ns] after [n.status = 'pending'] for the node [n] that
    [ns.find(n => n.id === x)] returns. *)
Fixpoint pendingFirst (x : NodeId) (ns : list Node) : list Node :=
  match ns with
  | [] => []
  | n :: ns' =>
      if String.eqb (id n) x then withStatus Pending n :: ns'
      else n :: pendingFirst x ns'
  end.

(** The loop [for (const id of toReset)] of [resetFromNode]. *)
Definition resetAll (toReset : list NodeId) (state : State) : State :=
  fold_left (fun s nodeId => resetOne nodeId s) toReset state.

(** What resetting the ids [region] does to a state. *)
Definition regionReset (region : NodeId -> Prop) (state state' : State) : Prop :=
  let ns := nodes (graph state) in
  let ns' := nodes (graph state') in
  (forall y, region y -> isResettable ns y = true ->
     findNode ns' y = withStatus Pending <$> findNode ns y
     /\ outputs (execution state') !! y = None
     /\ ~ In y (completed (execution state'))
     /\ ~ In y (failed (execution state')))
  /\ (forall y, ~ (region y /\ isResettable ns y = true) ->
        findNode ns' y = findNode ns y
        /\ outputs (execution state') !! y = outputs (execution state) !! y
        /\ (In y (completed (execution state')) <-> In y (completed (execution state)))
        /\ (In y (failed (execution state')) <-> In y (failed (execution state))))
  /\ (forall i n, ns !! i = Some n ->
        ns' !! i = Some n
        \/ (ns' !! i = Some (withStatus Pending n)
            /\ region (id n) /\ type n <> CheckpointNode))
  /\ List.map id ns' = List.map id ns
  /\ edges (graph state') = edges (graph state)
  /\ current (execution state') = current (execution state)
  /\ skipped (execution state') = skipped (execution state)
  /\ workflow state' = workflow state.


(** ** Placeholders (for the statements about [interpolateVariables]) *)

(** [{name}] occurs in [s], and [name] is made of word characters: a match
    of [/\{(\w+)\}/]. *)
Definition hasPlaceholder (s name : string) : Prop :=
  name <> EmptyString
  /\ allChars isWordChar name = true
  /\ exists before after, s = before +:+ String "{" (name +:+ String "}" after).

(** The text of the errors of [interpolateVariables]. *)
Definition variableErrorMessage (e : JsError) : string :=
  errorMessage (fun _ _ => []) [] e.

(** ** Temporary agents: dependencies, preparation, capture
    (src/temp-agents-executor.js) *)

(** The result of a call that can [throw new Error(message)]: the error is
    given by its message.  [Uncaught e] is an error of a call inside, which
    nothing catches, and [Unfinished] plays the part of [OutOfFuel]. *)
Inductive Completion (A : Type) : Type :=
| Normal (a : A)
| Abrupt (message : string)
| Uncaught (e : JsError)
| Unfinished.

Arguments Normal {A} a.
Arguments Abrupt {A} message.
Arguments Uncaught {A} e.
Arguments Unfinished {A}.

(** A graph node as the temporary-agent functions read it: the node of the
    parser with the fields the temporary-agent syntax adds. *)
Record TempNode : Type := mkTempNode {
  base : Node;
  templateVars : option (list string);
  outputVar : option string;
  tempAgentName : option string;
  model : option string
}.

(** [{ready: true}] or [{ready: false, missing}]. *)
Inductive DependencyCheck : Type :=
| Ready
| NotReady (missing : list string).

(** [!variables.hasOwnProperty(varName) || variables[varName] === null] *)
Definition isMissing (variables : Variables) (varName : string) : Outcome bool :=
  own ← hasOwn variables varName;
  Return (negb own
          || match getOwn varName variables with
             | Some VNull => true
             | _ => false
             end).

(** The loop that fills [missing]. *)
Fixpoint missingOf (variables : Variables) (vars : list string)
  : Outcome (list string) :=
  match vars with
  | [] => Return []
  | varName :: rest =>
      m ← isMissing variables varName;
      missing ← missingOf variables rest;
      Return (if m : bool then varName :: missing else missing)
  end.

Definition checkNodeVariableDependencies (node : TempNode) (variables : Variables)
  : Outcome DependencyCheck :=
  match templateVars node with
  | None => Return Ready
  | Some vars =>
      if (length vars =? 0)%nat then Return Ready
      else
        missing ← missingOf variables vars;
        Return (if (0 <? length missing)%nat then NotReady missing else Ready)
  end.

Definition prepareNodeInstruction (node : TempNode) (variables : Variables)
  : Completion (option string) :=
  match instruction (base node) with
  | None => Normal None
  | Some s =>
      if String.eqb s EmptyString then Normal (Some s)
      else
        match checkNodeVariableDependencies node variables with
        | Throw e => Uncaught e
        | OutOfFuel => Unfinished
        | Return (NotReady missing) =>
            Abrupt ("Cannot execute node '" +:+ id (base node) +:+
                    "': missing variables: " +:+ join ", " missing)
        | Return Ready =>
            match interpolateVariables (Some s) variables with
            | Return r => Normal r
            | Throw error =>
                Abrupt ("Failed to prepare instruction for node '" +:+
                        id (base node) +:+ "': " +:+ variableErrorMessage error)
            | OutOfFuel => Unfinished
            end
        end
  end.

(** The value of a string of decimal digits; [None] when another character
    occurs. *)
Fixpoint digitsValue (s : string) (acc : N) : option N :=
  match s with
  | EmptyString => Some acc
  | String c s' =>
      let n := N_of_ascii c in
      if ((48 <=? n) && (n <=? 57))%N
      then digitsValue s' (10 * acc + (n - 48))%N
      else None
  end.

(** A property name that is an array index: the decimal writing, without
    leading zero, of a number below [2^32 - 1].  [Object.keys] lists these
    names first, in ascending order, and the other names after them in the
    order of their creation. *)
Definition arrayIndex (name : string) : option N :=
  match name with
  | EmptyString => None
  | String c rest =>
      if Ascii.eqb c "0" && negb (String.eqb rest EmptyString) then None
      else
        match digitsValue name 0 with
        | Some v => if (v <? 4294967295)%N then Some v else None
        | None => None
        end
  end.

(** The new key [k] is listed before the existing key [k']. *)
Definition listedBefore (k k' : string) : bool :=
  match arrayIndex k, arrayIndex k' with
  | Some i, Some j => (i <? j)%N
  | Some _, None => true
  | None, _ => false
  end.

Fixpoint insertKey (k : string) (v : JsValue) (variables : Variables) : Variables :=
  match variables with
  | [] => [(k, v)]
  | (k', v') :: rest =>
      if listedBefore k k' then (k, v) :: variables
      else (k', v') :: insertKey k v rest
  end.

Fixpoint replaceValue (k : string) (v : JsValue) (variables : Variables) : Variables :=
  match variables with
  | [] => []
  | (k', v') :: rest =>
      if String.eqb k' k then (k', v) :: rest
      else (k', v') :: replaceValue k v rest
  end.

(** [variables[k] = v] on the own properties of [variables]: the value of an
    existing property is replaced where it is, a new property takes its place
    in the order of [Object.keys].  Assigning to [__proto__] creates no own
    property. *)
Definition setOwn (k : string) (v : JsValue) (variables : Variables) : Variables :=
  if String.eqb k "__proto__" then variables
  else
    match getOwn k variables with
    | Some _ => replaceValue k v variables
    | None => insertKey k v variables
    end.

(** [captureNodeOutput]; the result is the [variables] object after the
    call. *)
Definition captureNodeOutput (node : TempNode) (output : JsValue)
  (variables : Variables) : Variables :=
  match outputVar node with
  | None => variables
  | Some name =>
      if String.eqb name EmptyString then variables
      else setOwn name output variables
  end.

(** The graph as [validateTempAgentGraph] reads it: whether
    [graph.tempAgents] is truthy, and the nodes, which are distinct
    objects. *)
Record TempGraph : Type := mkTempGraph {
  tempAgents : bool;
  tempNodes : list TempNode
}.

(** [if (!varDeps.has(k)) varDeps.set(k, []); varDeps.get(k).push(x)] on a
    [Map], whose entries keep the order of their creation. *)
Fixpoint mapPush (k : string) (x : NodeId) (m : list (string * list NodeId))
  : list (string * list NodeId) :=
  match m with
  | [] => [(k, [x])]
  | (k', xs) :: rest =>
      if String.eqb k' k then (k', xs ++ [x]) :: rest
      else (k', xs) :: mapPush k x rest
  end.

Definition varDepsOf (ns : list TempNode) : list (string * list NodeId) :=
  fold_left
    (fun m node =>
       match templateVars node with
       | Some vars => fold_left (fun m varName => mapPush varName (id (base node)) m) vars m
       | None => m
       end)
    ns [].

(** [n.outputVar] is truthy. *)
Definition producesSomething (n : TempNode) : bool :=
  match outputVar n with
  | Some name => negb (String.eqb name EmptyString)
  | None => false
  end.

(** The elements of [producedVars]. *)
Definition producedVarsOf (ns : list TempNode) : list string :=
  omap outputVar (List.filter producesSomething ns).

(** [graph.nodes.indexOf(graph.nodes.find(n => n.outputVar === varName))] *)
Fixpoint producerIndex (varName : string) (ns : list TempNode) : option nat :=
  match ns with
  | [] => None
  | n :: ns' =>
      if bool_decide (outputVar n = Some varName) then Some 0
      else S <$> producerIndex varName ns'
  end.

Definition notProducedError (varName : string) (dependentNodes : list NodeId)
  : string :=
  "Variable '" +:+ varName +:+ "' is referenced by nodes [" +:+
  join ", " dependentNodes +:+ "] " +:+
  "but no node produces it. Add ':" +:+ varName +:+
  "' to an agent invocation to capture output.".

Definition usedBeforeProducedError (varName : string) (nodeId : NodeId) : string :=
  "Variable '" +:+ varName +:+ "' is used by node '" +:+ nodeId +:+
  "' before it's produced. " +:+
  "Make sure the agent that produces '" +:+ varName +:+ "' runs first.".

(** The second loop over the nodes; [consumerIndex] is the position of
    [node] in [graph.nodes]. *)
Definition orderErrorsOf (ns : list TempNode) (consumerIndex : nat) (node : TempNode)
  : list string :=
  match templateVars node with
  | None => []
  | Some vars =>
      flat_map
        (fun varName =>
           match producerIndex varName ns with
           | Some producer =>
               if (consumerIndex <=? producer)%nat
               then [usedBeforeProducedError varName (id (base node))]
               else []
           | None => []
           end)
        vars
  end.

(** [{valid, errors}] *)
Record TempValidation : Type := mkTempValidation {
  valid : bool;
  errors : list string
}.

Definition validateTempAgentGraph (graph : TempGraph) : TempValidation :=
  if negb (tempAgents graph) then mkTempValidation true []
  else
    let ns := tempNodes graph in
    let producedVars := producedVarsOf ns in
    let errors1 :=
      flat_map
        (fun entry =>
           if negb (existsb (String.eqb (fst entry)) producedVars)
           then [notProducedError (fst entry) (snd entry)]
           else [])
        (varDepsOf ns) in
    let errors2 := List.concat (imap (orderErrorsOf ns) ns) in
    let errors := errors1 ++ errors2 in
    mkTempValidation (length errors =? 0)%nat errors.

(** No variable of the store is named [hasOwnProperty], so that
    [variables.hasOwnProperty] is the method every object inherits. *)
Definition inheritsHasOwnProperty (variables : Variables) : Prop :=
  getOwn "hasOwnProperty" variables = None.


(** The node at [index] of [ns] is the first one whose [outputVar] is
    [varName]. *)
Definition firstProducer (ns : list TempNode) (varName : string) (index : nat)
  : Prop :=
  (exists n, ns !! index = Some n /\ outputVar n = Some varName)
  /\ forall k n, k < index -> ns !! k = Some n -> outputVar n <> Some varName.

(** The names of the placeholders of [s], in the order in which
    [s.replace(/\{(\w+)\}/g, ...)] meets them. *)
Fixpoint placeholdersLoop (fuel : nat) (s : string) : list string :=
  match fuel with
  | 0 => []
  | S fuel' =>
      match s with
      | EmptyString => []
      | String c rest =>
          let (name, after) := readWhile isWordChar rest in
          if Ascii.eqb c "{" && negb (String.eqb name EmptyString)
             && nextIs "}" after
          then name :: placeholdersLoop fuel' (dropOne after)
          else placeholdersLoop fuel' rest
      end
  end.

Definition placeholders (s : string) : list string :=
  placeholdersLoop (S (String.length s)) s.

(** ** More measures on token lists and ASTs *)

(** A subgraph node occurs in the AST. *)
Fixpoint hasSubgraph (a : AST) : bool :=
  match a with
  | Agent _ _ => false
  | Checkpoint _ => false
  | Sequence steps => existsb hasSubgraph steps
  | Parallel branches => existsb hasSubgraph branches
  | Conditional source _ target => hasSubgraph source || hasSubgraph target
  | Subgraph _ => true
  end.

(** The tokens the loop of [parseExpression] acts on. *)
Definition isOperator (t : Token) : bool :=
  match t with
  | TSequential | TParallel | TConditional => true
  | _ => false
  end.

(** An edge from an earlier node to a later one. *)
Definition forwardPair (xy : NodeId * NodeId) : Prop :=
  exists j k, j < k /\ fst xy = nodeIdOf j /\ snd xy = nodeIdOf k.

(** A parent id [processNode] can be given in the state [st]. *)
Definition parentOk (parentId : option NodeId) (st : Lowering) : Prop :=
  forall x, parentId = Some x -> idBetween 0 (nodeIdCounter st) x.

(** Every element of the set [r] has its successors in [r]. *)
Definition closedUnder (es : list Edge) (r : list NodeId) : Prop :=
  forall x y, In x r -> anyEdge es x y -> In y r.

(** The nodes [processNode] adds: one for every id it generates, in the order
    of the ids, all pending. *)
Definition nodesAdded (count : nat) (st st' : Lowering) : Prop :=
  exists news,
    lNodes st' = lNodes st ++ news
    /\ List.map id news = List.map nodeIdOf (seq (nodeIdCounter st) count)
    /\ Forall (fun n => status n = Pending) news.

(** ** Running agents and recovering from failures (executor guide) *)

(** How a call that changes the state ends: it returns, or it throws an
    error, given by its message, after the changes it has made. *)
Inductive Ended : Type :=
| Finished
| Threw (message : string).

(** What the [Task] tool answers: the promise is fulfilled with a result or
    rejected with an error. *)
Inductive TaskOutcome : Type :=
| Fulfilled (result : string)
| Rejected (message : string).

(** [state] with other nodes and another execution record. *)
Definition withRun (ns : list Node) (ex : Execution) (state : State) : State :=
  mkState (workflow state) (mkGraph ns (edges (graph state))) ex (steering state).

(** [n.agent] is truthy. *)
Definition hasAgent (n : Node) : bool :=
  match agent n with
  | Some a => negb (String.eqb a EmptyString)
  | None => false
  end.

(** [ids.map(id => nodes.find(n => n.id === id))], when every id is found. *)
Fixpoint findAll (ns : list Node) (ids : list NodeId) : option (list Node) :=
  match ids with
  | [] => Some []
  | x :: ids' =>
      match findNode ns x, findAll ns ids' with
      | Some n, Some found => Some (n :: found)
      | _, _ => None
      end
  end.

(** [buildInstruction].  When an id of [completed] is the id of no node,
    [.filter(n => n.agent)] reads [agent] of [undefined]: the result is then
    [None], for the [TypeError] that is thrown. *)
Definition buildInstruction (node : Node) (state : State) : option string :=
  let inferred :=
    found ← findAll (nodes (graph state)) (completed (execution state));
    Some ("Continue workflow after: " +:+
          join ", " (List.map (fun n => default EmptyString (agent n))
                       (List.filter hasAgent found))) in
  match instruction node with
  | Some s => if negb (String.eqb s EmptyString) then Some s else inferred
  | None => inferred
  end.

(** [list.filter(id => id !== nodeId)] *)
Definition without (nodeId : NodeId) (l : list NodeId) : list NodeId :=
  List.filter (fun x => negb (String.eqb x nodeId)) l.

(** [executeAgent]; the node object is given by its index in
    [state.graph.nodes], [task] is the answer of the [Task] tool and
    [elapsed] the time it took.  The result is the state the call leaves and
    how the call ends; the calls of the visualizer change nothing. *)
Definition executeAgent (index : nat) (task : TaskOutcome) (elapsed : Z)
  (state : State) : State * Ended :=
  match nodes (graph state) !! index with
  | None => (state, Threw "Cannot set properties of undefined (setting 'status')")
  | Some node =>
      let ex := execution state in
      let state1 :=
        withRun (setStatusAt index Executing (nodes (graph state)))
          (mkExecution (current ex ++ [id node]) (completed ex) (failed ex)
             (skipped ex) (outputs ex))
          state in
      match buildInstruction node state1 with
      | None =>
          (state1, Threw "Cannot read properties of undefined (reading 'agent')")
      | Some _ =>
          let ex1 := execution state1 in
          match task with
          | Fulfilled result =>
              (withRun (setStatusAt index Completed (nodes (graph state1)))
                 (mkExecution (without (id node) (current ex1))
                    (completed ex1 ++ [id node]) (failed ex1) (skipped ex1)
                    (<[id node := mkOutput true (Some result) None None
                                    (Millis elapsed)]> (outputs ex1)))
                 state1,
               Finished)
          | Rejected message =>
              (withRun (setStatusAt index Failed (nodes (graph state1)))
                 (mkExecution (without (id node) (current ex1))
                    (completed ex1) (failed ex1 ++ [id node]) (skipped ex1)
                    (<[id node := mkOutput false None (Some message) None
                                    (Millis elapsed)]> (outputs ex1)))
                 state1,
               Threw message)
          end
      end
  end.

(** [isComplete] *)
Definition isComplete (state : State) : bool :=
  forallb
    (fun node =>
       bool_decide (status node = Completed)
       || bool_decide (status node = Failed)
       || bool_decide (status node = Skipped))
    (nodes (graph state)).

(** What [processRecovery] answers, or the error it ends with. *)
Inductive Recovery : Type :=
| Recovered (recovered : bool)
| RecoveryThrew (message : string).

Section Recovery.

(** [editAndReparse], which the executor guide calls and does not define. *)
Variable editAndReparse : State -> State * Recovery.

(** [processRecovery]; the failed node is given by its index in
    [state.graph.nodes], and [task] and [elapsed] describe the run of the
    agent when the action is a retry. *)
Definition processRecovery (action : string) (index : nat) (task : TaskOutcome)
  (elapsed : Z) (state : State) : State * Recovery :=
  match nodes (graph state) !! index with
  | None =>
      if String.eqb action "retry" || String.eqb action "skip"
      then (state, RecoveryThrew "Cannot set properties of undefined (setting 'status')")
      else if String.eqb action "edit" then editAndReparse state
      else (state, Recovered false)
  | Some node =>
      let ex := execution state in
      if String.eqb action "retry" then
        let state1 :=
          withRun (setStatusAt index Pending (nodes (graph state)))
            (mkExecution (current ex) (completed ex) (without (id node) (failed ex))
               (skipped ex) (outputs ex))
            state in
        match executeAgent index task elapsed state1 with
        | (state2, Finished) => (state2, Recovered true)
        | (state2, Threw message) => (state2, RecoveryThrew message)
        end
      else if String.eqb action "skip" then
        (withRun (setStatusAt index Skipped (nodes (graph state)))
           (mkExecution (current ex) (completed ex) (without (id node) (failed ex))
              (skipped ex ++ [id node]) (outputs ex))
           state,
         Recovered true)
      else if String.eqb action "edit" then editAndReparse state
      else (state, Recovered false)
  end.

End Recovery.

(** ** Batches of parallel agents *)

Definition MAX_PARALLEL_AGENTS : nat := 5.

(** [nodes.slice(i, i + MAX_PARALLEL_AGENTS)] *)
Definition slice {A : Type} (i j : nat) (l : list A) : list A :=
  take (j - i) (drop i l).

(** The loop [for (let i = 0; i < nodes.length; i += MAX_PARALLEL_AGENTS)]
    of [executeParallelBatched], from [i] on. *)
Fixpoint batchesFrom {A : Type} (fuel : nat) (i : nat) (l : list A)
  : list (list A) :=
  match fuel with
  | 0 => []
  | S fuel' =>
      if (i <? length l)%nat
      then slice i (i + MAX_PARALLEL_AGENTS) l
           :: batchesFrom fuel' (i + MAX_PARALLEL_AGENTS) l
      else []
  end.

Section Batches.

(** [executeParallel], which runs the agents of one batch. *)
Variable executeParallel : list Node -> State -> Outcome State.

(** [executeParallelBatched]: the batches are run one after the other. *)
Definition executeParallelBatched (ns : list Node) (state : State) : Outcome State :=
  foldOutcome executeParallel (batchesFrom (length ns) 0 ns) state.

End Batches.

(** ** Bookkeeping of a run (for the statements about the executor) *)

(** The list [l] holds the ids of the nodes whose status is [t]. *)
Definition tracks (ns : list Node) (l : list NodeId) (t : Status) : Prop :=
  forall x, In x l <-> exists n, In n ns /\ id n = x /\ status n = t.

(** No two nodes share an id, and the four lists of [state.execution] agree
    with the status of the nodes. *)
Definition consistent (state : State) : Prop :=
  let ns := nodes (graph state) in
  let ex := execution state in
  List.NoDup (List.map id ns)
  /\ tracks ns (current ex) Executing
  /\ tracks ns (completed ex) Completed
  /\ tracks ns (failed ex) Failed
  /\ tracks ns (skipped ex) Skipped.

(** What [findExecutableNodes] requires of an incoming edge. *)
Definition edgeReady (JSON_stringify : Output -> string) (state : State)
  (edge : Edge) : Prop :=
  exists source,
    findNode (nodes (graph state)) (from edge) = Some source
    /\ status source = Completed
    /\ (hasCondition edge = false
        \/ exists c, condition edge = Some c
                     /\ evaluateCondition JSON_stringify c
                          (outputs (execution state) !! from edge) = Return true).

(** The ids of the nodes whose status is [t]. *)
Definition idsWith (t : Status) (ns : list Node) : list NodeId :=
  List.map id (List.filter (fun n => bool_decide (status n = t)) ns).

Definition sameIds (l l' : list NodeId) : bool :=
  forallb (fun x => existsb (String.eqb x) l') l
  && forallb (fun x => existsb (String.eqb x) l) l'.

(** [consistent], as a test. *)
Definition consistentb (state : State) : bool :=
  let ns := nodes (graph state) in
  let ex := execution state in
  bool_decide (NoDup (id <$> ns))
  && sameIds (current ex) (idsWith Executing ns)
  && sameIds (completed ex) (idsWith Completed ns)
  && sameIds (failed ex) (idsWith Failed ns)
  && sameIds (skipped ex) (idsWith Skipped ns).

(** The built-in conditions whose evaluator calls [every] or [some] on its
    argument. *)
Definition aggregate (cond : string) : bool :=
  String.eqb cond "if all success" || String.eqb cond "if any success"
  || String.eqb cond "if all failed" || String.eqb cond "if any failed".

(** No edge of the graph starts at a node whose id is an inherited name, or
    carries a condition that is one, once its parentheses are removed. *)
Definition plainNames (graph : Graph) : bool :=
  forallb
    (fun edge =>
       negb (inheritedName (from edge))
       && match condition edge with
          | Some c => negb (inheritedName (trim (stripParens c)))
          | None => true
          end)
    (edges graph).

(** An incoming edge on which the callback of [incoming.every] throws: no
    node has the id [edge.from]; or the source is completed and the edge
    carries a condition, while no output is recorded for the source or the
    condition is an aggregate one. *)
Definition edgeBroken (state : State) (edge : Edge) : Prop :=
  findNode (nodes (graph state)) (from edge) = None
  \/ exists source c,
       findNode (nodes (graph state)) (from edge) = Some source
       /\ status source = Completed
       /\ condition edge = Some c /\ c <> EmptyString
       /\ (outputs (execution state) !! from edge = None
           \/ aggregate (trim (stripParens c)) = true).

(** ** Steering: repeating a step, inserting a node (steering guide) *)

(** [{action: 'repeat', success: true, node}] or
    [{action: 'repeat', success: false, error}]. *)
Inductive RepeatResult : Type :=
| RepeatDone (node : NodeId)
| RepeatFailed (error : string).

(** [processRepeat]; with an empty [completed], [lastNodeId] is [undefined],
    which is the id of no node. *)
Definition processRepeat (state : State) : RepeatResult * State :=
  let ex := execution state in
  match last (completed ex) with
  | None => (RepeatFailed "No node to repeat", state)
  | Some lastNodeId =>
      match findNodeIndex (nodes (graph state)) lastNodeId with
      | None => (RepeatFailed "No node to repeat", state)
      | Some index =>
          (RepeatDone lastNodeId,
           mkState (workflow state)
             (mkGraph (setStatusAt index Pending (nodes (graph state)))
                (edges (graph state)))
             (mkExecution (current ex) (without lastNodeId (completed ex))
                (failed ex) (skipped ex) (delete lastNodeId (outputs ex)))
             (mkSteering false (position (steering state))
                (command (steering state))))
      end
  end.

(** [edge.to = newId] for an edge that enters the target. *)
Definition redirect (targetId newId : NodeId) (edge : Edge) : Edge :=
  if String.eqb (to edge) targetId
  then mkEdge (from edge) newId (condition edge)
  else edge.

(** [insertNodeBefore]; the result is the graph after the call. *)
Definition insertNodeBefore (newNode targetNode : Node) (graph : Graph) : Graph :=
  mkGraph (nodes graph ++ [newNode])
    (List.map (redirect (id targetNode) (id newNode)) (edges graph)
     ++ [mkEdge (id newNode) (id targetNode) None]).

(** ** Wrapping text (visualizer guide) *)

(** [s.split(sep)] for a separator of one character. *)
Fixpoint splitOn (sep : ascii) (s : string) : list string :=
  match s with
  | EmptyString => [EmptyString]
  | String c s' =>
      if Ascii.eqb c sep then EmptyString :: splitOn sep s'
      else
        match splitOn sep s' with
        | word :: words => String c word :: words
        | [] => [String c EmptyString]
        end
  end.

(** The body of the loop of [wrapText] on [(lines, currentLine)]. *)
Definition wrapStep (maxWidth : nat) (st : list string * string) (word : string)
  : list string * string :=
  let (lines, currentLine) := st in
  if (String.length (currentLine +:+ word) <=? maxWidth)%nat
  then (lines,
        currentLine +:+
        (if String.eqb currentLine EmptyString then EmptyString else " ") +:+ word)
  else (lines ++ [currentLine], word).

Definition wrapText (text : string) (maxWidth : nat) : list string :=
  let (lines, currentLine) :=
    fold_left (wrapStep maxWidth) (splitOn " " text) ([], EmptyString) in
  if String.eqb currentLine EmptyString then lines else lines ++ [currentLine].

(** [s] without its spaces. *)
Fixpoint withoutSpaces (s : string) : string :=
  match s with
  | EmptyString => EmptyString
  | String c s' =>
      if Ascii.eqb c " " then withoutSpaces s' else String c (withoutSpaces s')
  end.
(** ** Running a node with temporary-agent support
    (src/temp-agents-executor.js) *)

(** The parameters handed to the task function; [taskModel] is the [model]
    property, which is set for a node with a model only. *)
Record TaskParams : Type := mkTaskParams {
  subagent_type : option string;
  description : string;
  prompt : option string;
  taskModel : option string
}.

(** [s] is a non-empty string. *)
Definition truthy (s : option string) : bool :=
  match s with
  | Some text => negb (String.eqb text EmptyString)
  | None => false
  end.

(** The [taskParams] of [executeAgentWithTempAgents]. *)
Definition taskParamsOf (node : TempNode) (instr : option string) : TaskParams :=
  mkTaskParams (agent (base node))
    (if truthy (tempAgentName node)
     then "Temp agent: " +:+ default EmptyString (tempAgentName node)
     else "Execute " +:+ default "undefined" (agent (base node)))
    instr
    (if truthy (model node) then model node else None).

(** [executeAgentWithTempAgents]; [variables] is [state.graph.variables],
    [None] when the graph has none, and [taskFn] answers with a result or
    rejects with an error, given by its message.  The call returns the
    result, and leaves the second component in [state.graph.variables]. *)
Definition executeAgentWithTempAgents (node : TempNode)
  (variables : option Variables) (taskFn : TaskParams -> JsValue + string)
  : Completion (JsValue * option Variables) :=
  match prepareNodeInstruction node (default [] variables) with
  | Abrupt message => Abrupt message
  | Uncaught e => Uncaught e
  | Unfinished => Unfinished
  | Normal instr =>
      match taskFn (taskParamsOf node instr) with
      | inr message => Abrupt message
      | inl result =>
          Normal (result,
                  if truthy (outputVar node)
                  then captureNodeOutput node result <$> variables
                  else variables)
      end
  end.

(** * Properties *)

(** ** Strings and the tokenizer *)

Lemma string_app_cons (x : ascii) (a b : string) :
  String x a +:+ b = String x (a +:+ b).
Proof. reflexivity. Qed.

Lemma string_app_nil_l (s : string) : EmptyString +:+ s = s.
Proof. reflexivity. Qed.

Lemma string_app_nil_r (s : string) : s +:+ EmptyString = s.
Proof.
  induction s as [|c s IH]; [reflexivity|]. by rewrite string_app_cons, IH.
Qed.

Lemma string_app_assoc (a b c : string) : (a +:+ b) +:+ c = a +:+ (b +:+ c).
Proof.
  induction a as [|x a IH]; [reflexivity|]. by rewrite !string_app_cons, IH.
Qed.

Lemma string_app_length (a b : string) :
  String.length (a +:+ b) = String.length a + String.length b.
Proof.
  induction a as [|x a IH]; [reflexivity|].
  rewrite string_app_cons. simpl. by rewrite IH.
Qed.

Lemma dropOne_length (s : string) : String.length (dropOne s) <= String.length s.
Proof. destruct s; simpl; lia. Qed.

Lemma readWhile_length (keep : ascii -> bool) (s : string) :
  String.length (snd (readWhile keep s)) <= String.length s.
Proof.
  induction s as [|c s IH]; simpl; [lia|].
  destruct (keep c); simpl; [|lia].
  destruct (readWhile keep s); simpl in *. lia.
Qed.

Lemma readWhile_all (keep : ascii -> bool) (s : string) :
  allChars keep s = true -> readWhile keep s = (s, EmptyString).
Proof.
  induction s as [|c s IH]; simpl; [done|].
  intros [Hc Hs]%andb_prop. rewrite Hc, (IH Hs). done.
Qed.

Lemma trimEnd_no_space (s : string) :
  allChars (fun c => negb (isSpace c)) s = true -> trimEnd s = s.
Proof.
  induction s as [|c s IH]; simpl; [done|].
  intros [Hc Hs]%andb_prop. rewrite (IH Hs).
  apply negb_true_iff in Hc. by rewrite Hc.
Qed.

Lemma trim_no_space (s : string) :
  allChars (fun c => negb (isSpace c)) s = true -> trim s = s.
Proof.
  intros H. unfold trim.
  assert (trimStart s = s) as ->.
  { destruct s as [|c s]; simpl in *; [done|].
    apply andb_prop in H as [Hc _]. apply negb_true_iff in Hc. by rewrite Hc. }
  by apply trimEnd_no_space.
Qed.

Lemma readWhile_cons_length keep c s :
  keep c = true ->
  String.length (snd (readWhile keep (String c s))) <= String.length s.
Proof.
  intros H. simpl. rewrite H.
  pose proof (readWhile_length keep s) as Hr.
  destruct (readWhile keep s); simpl in *. lia.
Qed.

Lemma tokenizeLoop_total (fuel : nat) :
  forall rest current tokens,
    String.length rest < fuel ->
    exists result, tokenizeLoop fuel rest current tokens = Return result.
Proof.
  induction fuel as [|fuel IH]; intros rest current tokens Hlen; [lia|].
  destruct rest as [|char rest1]; [by eexists|].
  cbn [tokenizeLoop]. cbn [String.length] in Hlen.
  pose proof (dropOne_length rest1).
  repeat match goal with
  | |- context [if ?b then _ else _] => destruct b eqn:?
  end; try (apply IH; lia).
  - pose proof (readWhile_length (fun c => negb (endsLabel c)) rest1) as Hr.
    destruct (readWhile _ rest1); simpl in Hr. apply IH. lia.
  - assert (char = "("%char) as ->.
    { match goal with H : (_ && _) = true |- _ => apply andb_prop in H as [Hc _]; by apply Ascii.eqb_eq in Hc end. }
    pose proof (readWhile_cons_length (fun c => negb (Ascii.eqb c ")")) "(" rest1 eq_refl) as Hr.
    destruct (readWhile _ (String "(" rest1)) as [cnd rest2]; simpl in Hr.
    pose proof (dropOne_length rest2). apply IH. lia.
  - pose proof (readWhile_length (fun c => negb (Ascii.eqb c "034")) rest1) as Hr.
    destruct (readWhile _ rest1) as [ins rest2]; simpl in Hr.
    pose proof (dropOne_length rest2). apply IH. lia.
Qed.

Lemma tokenize_total (workflow : string) :
  exists tokens, tokenize workflow = Return tokens.
Proof. apply tokenizeLoop_total. lia. Qed.

Lemma nextIs_name (name rest : string) :
  allChars nameChar name = true -> nextIs ">" rest = false ->
  nextIs ">" (name +:+ rest) = false.
Proof.
  destruct name as [|c name]; [done|]. simpl. intros [Hc _]%andb_prop _.
  destruct c as [[] [] [] [] [] [] [] []]; try discriminate Hc; reflexivity.
Qed.

Lemma tokenizeLoop_name (name : string) :
  forall fuel rest current tokens,
    allChars nameChar name = true ->
    nextIs ">" rest = false ->
    tokenizeLoop (String.length name + fuel) (name +:+ rest) current tokens
    = tokenizeLoop fuel rest (current +:+ name) tokens.
Proof.
  induction name as [|c name IH]; intros fuel rest current tokens Hp Hrest.
  - by rewrite string_app_nil_r.
  - simpl in Hp. apply andb_prop in Hp as [Hc Hname].
    rewrite string_app_cons. cbn [String.length plus tokenizeLoop].
    rewrite (nextIs_name name rest Hname Hrest), andb_false_r.
    assert (Hbr : Ascii.eqb c "|" = false /\
                  Ascii.eqb c "~" = false /\ Ascii.eqb c "@" = false /\
                  Ascii.eqb c "[" = false /\ Ascii.eqb c "]" = false /\
                  Ascii.eqb c "(" = false /\ Ascii.eqb c "034" = false /\
                  isSpace c = false).
    { clear -Hc. destruct c as [[] [] [] [] [] [] [] []]; try discriminate Hc; repeat split; reflexivity. }
    destruct Hbr as (-> & -> & -> & -> & -> & -> & -> & ->). cbn [andb negb].
    rewrite IH by done.
    f_equal. by rewrite string_app_assoc.
Qed.

Lemma noSpace_of_name (name : string) :
  allChars nameChar name = true ->
  allChars (fun c => negb (isSpace c)) name = true.
Proof.
  induction name as [|c name IH]; simpl; [done|].
  intros [Hc Hn]%andb_prop. rewrite (IH Hn), andb_true_r.
  unfold nameChar in Hc. by apply andb_prop in Hc as [-> _].
Qed.

(** The loop at a quote that is never closed. *)
Lemma tokenizeLoop_unterminated_quote (fuel : nat) (body current : string)
  (tokens : list Token) :
  allChars (fun c => negb (Ascii.eqb c "034")) body = true ->
  tokenizeLoop (S (S fuel)) (String "034" body) current tokens
  = Return (tokens ++ [TAgentWithInstruction (trim current) body]).
Proof.
  intros Hbody. cbn [tokenizeLoop].
  cbn [Ascii.eqb Bool.eqb andb nextIs negb isSpace].
  rewrite (readWhile_all _ _ Hbody). by cbn [dropOne tokenizeLoop].
Qed.

(** The loop at an [(if ] that is never closed. *)
Lemma tokenizeLoop_unterminated_condition (fuel : nat) (body current : string)
  (tokens : list Token) :
  allChars (fun c => negb (Ascii.eqb c ")")) body = true ->
  tokenizeLoop (S (S fuel)) ("(if " +:+ body) current tokens
  = Return (pushAgent current tokens ++ [TCondition ("(if " +:+ body +:+ ")")]).
Proof.
  intros Hbody.
  change ("(if " +:+ body) with (String "(" (String "i" (String "f" (String " " body)))).
  cbn [tokenizeLoop Ascii.eqb Bool.eqb andb nextIs negb isSpace String.prefix].
  destruct (ascii_dec "(" "(") as [_|]; [|done].
  destruct (ascii_dec "i" "i") as [_|]; [|done].
  destruct (ascii_dec "f" "f") as [_|]; [|done].
  destruct (ascii_dec " " " ") as [_|]; [|done].
  rewrite (readWhile_all _ (String "(" (String "i" (String "f" (String " " body))))).
  2:{ simpl. exact Hbody. }
  assert (String.prefix EmptyString body = true) as -> by (by destruct body).
  by cbn [dropOne tokenizeLoop].
Qed.

Lemma tokenize_unterminated_quote (name body : string) :
  allChars nameChar name = true ->
  allChars (fun c => negb (Ascii.eqb c "034")) body = true ->
  tokenize (name +:+ String "034" body)
  = Return [TAgentWithInstruction name body].
Proof.
  intros Hname Hbody. unfold tokenize.
  rewrite string_app_length. cbn [String.length].
  replace (S (String.length name + S (String.length body)))
    with (String.length name + S (S (String.length body))) by lia.
  rewrite tokenizeLoop_name by done.
  rewrite tokenizeLoop_unterminated_quote by done.
  rewrite string_app_nil_l.
  by rewrite trim_no_space by (by apply noSpace_of_name).
Qed.

Lemma tokenize_unterminated_condition (name body : string) :
  allChars nameChar name = true ->
  allChars (fun c => negb (Ascii.eqb c ")")) body = true ->
  tokenize (name +:+ " (if " +:+ body)
  = Return (pushAgent name [] ++ [TCondition ("(if " +:+ body +:+ ")")]).
Proof.
  intros Hname Hbody. unfold tokenize.
  change (name +:+ " (if " +:+ body) with (name +:+ String " " ("(if " +:+ body)).
  rewrite string_app_length. cbn [String.length].
  replace (S (String.length name + S (String.length ("(if " +:+ body))))
    with (String.length name + S (S (S (String.length body + 3)))).
  2:{ rewrite string_app_length. simpl. lia. }
  rewrite tokenizeLoop_name by done.
  rewrite string_app_nil_l.
  remember (S (S (String.length body + 3))) as fuel eqn:Hfuel.
  cbn [tokenizeLoop Ascii.eqb Bool.eqb andb nextIs negb isSpace String.prefix].
  destruct (ascii_dec " " "(") as [|_]; [done|].
  subst fuel. unfold pushAgent.
  destruct (String.eqb (trim name) EmptyString) eqn:Hempty; cbn [negb].
  - rewrite tokenizeLoop_unterminated_condition by done.
    unfold pushAgent. rewrite Hempty. done.
  - rewrite tokenizeLoop_unterminated_condition by done.
    unfold pushAgent. cbn [trim trimStart trimEnd String.eqb]. done.
Qed.

(** C8, as stated, fails: an unterminated quoted instruction and an
    unterminated [(if] condition are both tokenized without any error. *)
Lemma tokenize_accepts_unterminated :
  ~ tokenizeFails ("a:" +:+ String "034" "oops")
  /\ ~ tokenizeFails "a (if bad"
  /\ tokenize ("a:" +:+ String "034" "oops")
     = Return [TAgentWithInstruction "a:" "oops"]
  /\ tokenize "a (if bad" = Return [TAgent "a"; TCondition "(if bad)"].
Proof.
  repeat split; try reflexivity; intros [e He]; vm_compute in He; discriminate.
Qed.

(** C8 (amended): [tokenize] never fails: every input yields a token list.
    When the loop meets a quote that is never closed, whatever it has read
    before, it adds one agent-with-instruction token made of the step name
    read so far and of the rest of the input; when it meets an [(if ] that is
    never closed, it adds the step name read so far, if any, and a condition
    token made of the rest of the input with [)] appended.  So a step name
    followed by such a quote gives that one token, and a step name followed
    by a space and such a condition gives the step and the condition. *)
Theorem tokenize_never_fails (workflow name body : string) :
  (exists tokens, tokenize workflow = Return tokens)
  /\ (allChars (fun c => negb (Ascii.eqb c "034")) body = true ->
      (forall fuel current tokens,
         tokenizeLoop (S (S fuel)) (String "034" body) current tokens
         = Return (tokens ++ [TAgentWithInstruction (trim current) body]))
      /\ (allChars nameChar name = true ->
          tokenize (name +:+ String "034" body)
          = Return [TAgentWithInstruction name body]))
  /\ (allChars (fun c => negb (Ascii.eqb c ")")) body = true ->
      (forall fuel current tokens,
         tokenizeLoop (S (S fuel)) ("(if " +:+ body) current tokens
         = Return (pushAgent current tokens
                   ++ [TCondition ("(if " +:+ body +:+ ")")]))
      /\ (allChars nameChar name = true ->
          tokenize (name +:+ " (if " +:+ body)
          = Return (pushAgent name [] ++ [TCondition ("(if " +:+ body +:+ ")")]))).
Proof.
  split; [apply tokenize_total|]. split.
  - intros Hbody. split.
    + intros fuel current tokens. by apply tokenizeLoop_unterminated_quote.
    + intros Hname. by apply tokenize_unterminated_quote.
  - intros Hbody. split.
    + intros fuel current tokens. by apply tokenizeLoop_unterminated_condition.
    + intros Hname. by apply tokenize_unterminated_condition.
Qed.

Lemma tokenize_never_fails_witness :
  (exists tokens, tokenize "a -> b" = Return tokens)
  /\ tokenize ("general-purpose:" +:+ String "034" "fix {bugs}")
     = Return [TAgentWithInstruction "general-purpose:" "fix {bugs}"]
  /\ tokenize ("code-reviewer" +:+ " (if " +:+ "fix {bugs}")
     = Return [TAgent "code-reviewer"; TCondition "(if fix {bugs})"].
Proof.
  pose proof (tokenize_never_fails "a -> b" "general-purpose:" "fix {bugs}")
    as (H1 & H2 & _).
  pose proof (tokenize_never_fails "a -> b" "code-reviewer" "fix {bugs}")
    as (_ & _ & H3).
  split; [exact H1|]. split.
  - apply H2; reflexivity.
  - apply H3; reflexivity.
Defined.

(** ** The parser *)

Lemma terminates_bind {A B : Type} (P : A -> Prop) (Q : B -> Prop)
  (m : Outcome A) (k : A -> Outcome B) :
  terminates P m -> (forall a, P a -> terminates Q (k a)) ->
  terminates Q (m ≫= k).
Proof. destruct m; simpl; auto. Qed.

Section BuildASTTotal.

Variable tokens : list Token.

Let remaining (position : nat) : nat := length tokens - position.

Lemma parse_total (r : nat) :
  (forall fuel position,
      remaining position <= r -> 2 * r + 1 <= fuel ->
      terminates (fun res => position < snd res) (parsePrimary tokens fuel position))
  /\ (forall fuel precedence left position,
      remaining position <= r -> 2 * r + 1 <= fuel ->
      terminates (fun res => position <= snd res)
        (parseLoop tokens fuel precedence left position))
  /\ (forall fuel precedence position,
      remaining position <= r -> 2 * r + 2 <= fuel ->
      terminates (fun res => position < snd res)
        (parseExpression tokens fuel precedence position)).
Proof.
  unfold remaining.
  induction r as [|r (IHP & IHL & IHE)].
  - assert (HP : forall fuel position,
      length tokens - position <= 0 -> 2 * 0 + 1 <= fuel ->
      terminates (fun res => position < snd res) (parsePrimary tokens fuel position)).
    { intros [|fuel] position Hr Hf; [lia|]. cbn [parsePrimary].
      rewrite (proj2 (lookup_ge_None tokens position)) by lia. exact I. }
    split; [exact HP|]. split.
    + intros [|fuel] precedence left position Hr Hf; [lia|]. cbn [parseLoop].
      rewrite (proj2 (lookup_ge_None tokens position)) by lia. simpl. lia.
    + intros [|fuel] precedence position Hr Hf; [lia|]. cbn [parseExpression].
      eapply terminates_bind; [apply HP; lia|].
      intros [a p] Hp. cbn [fst snd] in *.
      destruct fuel as [|fuel]; [lia|]. cbn [parseLoop].
      rewrite (proj2 (lookup_ge_None tokens p)) by lia. simpl. lia.
  - assert (HP : forall fuel position,
      length tokens - position <= S r -> 2 * S r + 1 <= fuel ->
      terminates (fun res => position < snd res) (parsePrimary tokens fuel position)).
    { intros [|fuel] position Hr Hf; [lia|]. cbn [parsePrimary].
      destruct (tokens !! position) as [token|]; [|exact I].
      destruct token; simpl; try lia; try exact I.
      eapply terminates_bind; [apply (IHE fuel 0 (S position)); lia|].
      intros [a p] Hp. cbn [fst snd] in *.
      destruct (tokens !! p) as [[]|]; simpl; try exact I. lia. }
    assert (HL : forall fuel precedence left position,
      length tokens - position <= S r -> 2 * S r + 1 <= fuel ->
      terminates (fun res => position <= snd res)
        (parseLoop tokens fuel precedence left position)).
    { intros [|fuel] precedence left position Hr Hf; [lia|]. cbn [parseLoop].
      destruct (tokens !! position) as [token|] eqn:Htok; [|simpl; lia].
      destruct (getOperatorPrecedence token <? precedence); [simpl; lia|].
      assert (Hstep : forall combine prec',
        terminates (fun res => position <= snd res)
          (r0 ← parseExpression tokens fuel prec' (S position);
           parseLoop tokens fuel precedence (combine (fst r0)) (snd r0))).
      { intros combine prec'.
        eapply terminates_bind; [apply (IHE fuel prec' (S position)); lia|].
        intros [a p] Hp. cbn [fst snd] in *.
        pose proof (IHL fuel precedence (combine a) p) as H.
        destruct (parseLoop tokens fuel precedence (combine a) p) as [[a' p']| |];
          simpl in *; try done; [|apply H; lia].
        assert (p <= p') by (apply H; lia). lia. }
      destruct token;
        try (pose proof (IHL fuel precedence left (S position)) as H;
             destruct (parseLoop tokens fuel precedence left (S position))
               as [[a' p']| |]; simpl in *; try done;
             [assert (S position <= p') by (apply H; lia); lia | apply H; lia]).
      - apply (Hstep (appendStep left)).
      - apply (Hstep (appendBranch left)).
      - apply (Hstep (fun right => Conditional left _ right)). }
    split; [exact HP|]. split; [exact HL|].
    intros [|fuel] precedence position Hr Hf; [lia|]. cbn [parseExpression].
    eapply terminates_bind; [apply HP; lia|].
    intros [a p] Hp. cbn [fst snd] in *.
    pose proof (IHL fuel precedence a p) as H.
    destruct (parseLoop tokens fuel precedence a p) as [[a' p']| |];
      simpl in *; try done; [|apply H; lia].
    assert (p <= p') by (apply H; lia). lia.
Qed.

End BuildASTTotal.

Lemma buildAST_total (tokens : list Token) : buildAST tokens <> OutOfFuel.
Proof.
  unfold buildAST.
  pose proof (proj2 (proj2 (parse_total tokens (length tokens)))
                (2 * length tokens + 2) 0 0) as H.
  destruct (parseExpression tokens (2 * length tokens + 2) 0 0); simpl in *;
    try done. intros _. apply H; lia.
Qed.

Lemma chainTokens_cons (op : Token) (s : Step) (rest : list Step) :
  chainTokens op (s :: rest) = stepToken s :: chainTail op rest.
Proof.
  revert s. induction rest as [|s' rest IH]; intros s; [done|].
  change (chainTokens op (s :: s' :: rest))
    with (stepToken s :: op :: chainTokens op (s' :: rest)).
  by rewrite IH.
Qed.

Lemma lookup_after (pre : list Token) (x : Token) (suf : list Token) :
  (pre ++ x :: suf) !! length pre = Some x.
Proof. by apply list_lookup_middle. Qed.

Lemma lookup_after2 (pre : list Token) (x y : Token) (suf : list Token) :
  (pre ++ x :: y :: suf) !! S (length pre) = Some y.
Proof.
  replace (pre ++ x :: y :: suf) with ((pre ++ [x]) ++ y :: suf)
    by (by rewrite <- app_assoc).
  apply list_lookup_middle. rewrite length_app. simpl. lia.
Qed.

Lemma lookup_end (pre : list Token) : pre !! length pre = None.
Proof. apply lookup_ge_None. lia. Qed.

Lemma parsePrimary_step (tokens : list Token) (fuel position : nat) (s : Step) :
  tokens !! position = Some (stepToken s) ->
  parsePrimary tokens (S fuel) position = Return (stepAST s, S position).
Proof. intros H. cbn [parsePrimary]. rewrite H. by destruct s. Qed.

(** The operand to the right of an operator in a chain: one leaf, because
    the next token is absent or binds less tightly. *)
Lemma parseExpression_step (tokens : list Token) (fuel precedence position : nat)
  (s : Step) :
  tokens !! position = Some (stepToken s) ->
  match tokens !! S position with
  | Some t => getOperatorPrecedence t < precedence
  | None => True
  end ->
  parseExpression tokens (S (S fuel)) precedence position
  = Return (stepAST s, S position).
Proof.
  intros Hs Hnext. cbn [parseExpression].
  rewrite (parsePrimary_step _ _ _ _ Hs). cbn [mbind Outcome_bind fst snd parseLoop].
  destruct (tokens !! S position) as [t|]; [|done].
  apply Nat.ltb_lt in Hnext. by rewrite Hnext.
Qed.

Section Chain.

Variable op : Token.
Variable combine : AST -> AST -> AST.
Variable wrap : list AST -> AST.
Hypothesis op_prec : 2 <= getOperatorPrecedence op.
Hypothesis combine_wrap :
  forall acc right, combine (wrap acc) right = wrap (acc ++ [right]).
Hypothesis loop_op :
  forall tokens fuel left position,
    tokens !! position = Some op ->
    parseLoop tokens (S fuel) 0 left position
    = r ← parseExpression tokens fuel (getOperatorPrecedence op + 1) (S position);
      parseLoop tokens fuel 0 (combine left (fst r)) (snd r).

Lemma parseLoop_chain (rest : list Step) :
  forall pre acc fuel,
    length rest + 2 <= fuel ->
    parseLoop (pre ++ chainTail op rest) fuel 0 (wrap acc) (length pre)
    = Return (wrap (acc ++ List.map stepAST rest),
              length (pre ++ chainTail op rest)).
Proof.
  induction rest as [|s rest IH]; intros pre acc fuel Hfuel.
  - destruct fuel as [|fuel]; [simpl in Hfuel; lia|].
    cbn [chainTail flat_map List.map parseLoop]. rewrite !app_nil_r.
    by rewrite lookup_end.
  - destruct fuel as [|[|[|fuel]]]; [simpl in Hfuel; lia..|].
    cbn [chainTail flat_map List.map app].
    fold (chainTail op rest).
    rewrite loop_op by apply lookup_after.
    rewrite (parseExpression_step _ _ _ _ s).
    + cbn [mbind Outcome_bind fst snd]. rewrite combine_wrap.
      replace (pre ++ op :: stepToken s :: chainTail op rest)
        with ((pre ++ [op; stepToken s]) ++ chainTail op rest)
        by (by rewrite <- app_assoc).
      replace (S (S (length pre))) with (length (pre ++ [op; stepToken s]))
        by (rewrite length_app; simpl; lia).
      rewrite IH by (simpl in Hfuel; lia).
      by rewrite <- app_assoc.
    + apply lookup_after2.
    + replace (pre ++ op :: stepToken s :: chainTail op rest)
        with ((pre ++ [op; stepToken s]) ++ chainTail op rest)
        by (by rewrite <- app_assoc).
      replace (S (S (length pre))) with (length (pre ++ [op; stepToken s]))
        by (rewrite length_app; simpl; lia).
      destruct rest as [|s' rest].
      * cbn [chainTail flat_map]. rewrite app_nil_r. by rewrite lookup_end.
      * cbn [chainTail flat_map app]. rewrite lookup_after. lia.
Qed.

Hypothesis combine_leaf :
  forall s right, combine (stepAST s) right = wrap [stepAST s; right].

Lemma buildAST_chain (steps : list Step) :
  2 <= length steps ->
  buildAST (chainTokens op steps) = Return (wrap (List.map stepAST steps)).
Proof.
  destruct steps as [|s1 [|s2 rest]]; [simpl; lia..|]. intros _.
  unfold buildAST. rewrite chainTokens_cons.
  set (tokens := stepToken s1 :: chainTail op (s2 :: rest)).
  assert (Hlen : length (chainTail op rest) = 2 * length rest).
  { clear. unfold chainTail. induction rest; simpl; lia. }
  assert (Hfuel : length rest + 6 <= 2 * length tokens + 2).
  { subst tokens. cbn [length chainTail flat_map app].
    fold (chainTail op rest). lia. }
  generalize dependent (2 * length tokens + 2).
  intros [|[|[|[|fuel]]]] Hfuel; [lia..|].
  cbn [parseExpression].
  rewrite (parsePrimary_step tokens _ 0 s1) by reflexivity.
  cbn [mbind Outcome_bind fst snd].
  rewrite loop_op by reflexivity.
  rewrite (parseExpression_step tokens _ _ 2 s2); [|reflexivity|].
  2:{ subst tokens. destruct rest; cbn; [done|lia]. }
  cbn [mbind Outcome_bind fst snd]. rewrite combine_leaf.
  pose proof (parseLoop_chain rest [stepToken s1; op; stepToken s2]
                [stepAST s1; stepAST s2]) as Hloop.
  cbn [app length] in Hloop. subst tokens. cbn [chainTail flat_map app].
  fold (chainTail op rest). rewrite Hloop; [done|lia].
Qed.

End Chain.

Lemma buildAST_sequence_chain (steps : list Step) :
  2 <= length steps ->
  buildAST (chainTokens TSequential steps) = Return (Sequence (List.map stepAST steps)).
Proof.
  apply (buildAST_chain TSequential appendStep Sequence).
  - simpl. lia.
  - done.
  - intros tokens fuel left position H. cbn [parseLoop]. by rewrite H.
  - by intros [].
Qed.

Lemma buildAST_parallel_chain (steps : list Step) :
  2 <= length steps ->
  buildAST (chainTokens TParallel steps) = Return (Parallel (List.map stepAST steps)).
Proof.
  apply (buildAST_chain TParallel appendBranch Parallel).
  - simpl. lia.
  - done.
  - intros tokens fuel left position H. cbn [parseLoop]. by rewrite H.
  - by intros [].
Qed.

(** C10: repeated [->] (and repeated [||]) are folded into one flat list.
    For every chain of [n >= 2] steps joined by [->], [buildAST] returns a
    single sequence node whose [steps] are the [n] steps in order; joined by
    [||], a single parallel node whose [branches] are the [n] steps. *)
Theorem buildAST_folds_chains (steps : list Step) :
  2 <= length steps ->
  buildAST (chainTokens TSequential steps) = Return (Sequence (List.map stepAST steps))
  /\ buildAST (chainTokens TParallel steps) = Return (Parallel (List.map stepAST steps))
  /\ length (List.map stepAST steps) = length steps.
Proof.
  intros H. split; [by apply buildAST_sequence_chain|].
  split; [by apply buildAST_parallel_chain|]. apply length_map.
Qed.

Lemma buildAST_folds_chains_witness :
  2 <= length [StepAgent "a"; StepAgent "b"; StepAgent "c"]
  /\ buildAST [TAgent "a"; TSequential; TAgent "b"; TSequential; TAgent "c"]
     = Return (Sequence [Agent "a" None; Agent "b" None; Agent "c" None])
  /\ buildAST [TAgent "a"; TParallel; TAgent "b"; TParallel; TAgent "c"]
     = Return (Parallel [Agent "a" None; Agent "b" None; Agent "c" None]).
Proof.
  assert (H : 2 <= length [StepAgent "a"; StepAgent "b"; StepAgent "c"])
    by (simpl; lia).
  destruct (buildAST_folds_chains _ H) as (Hs & Hp & _).
  split; [exact H|]. split; [exact Hs|exact Hp].
Defined.

(** The example of the specification, from the text. *)
Example buildAST_a_b_c :
  (tokens ← tokenize "a->b->c"; buildAST tokens)
  = Return (Sequence [Agent "a" None; Agent "b" None; Agent "c" None]).
Proof. reflexivity. Qed.

(** ** Graph creation *)

Lemma nodeIdOf_inj (i j : nat) : nodeIdOf i = nodeIdOf j -> i = j.
Proof.
  unfold nodeIdOf. intros H. apply (inj (String.app "node-")) in H.
  by apply (inj pretty) in H.
Qed.

Lemma processNode_Sequence (steps : list AST) (p : option NodeId) (st : Lowering) :
  processNode (Sequence steps) p st = processSteps steps p st.
Proof.
  revert p st. induction steps as [|x steps IH]; intros p st; [done|].
  simpl. destruct (processNode x p st) as [p1 st1]. apply IH.
Qed.

Lemma processNode_Parallel (branches : list AST) (p : option NodeId) (st : Lowering) :
  processNode (Parallel branches) p st =
  let (entryId, st1) := generateId st in
  let st2 := pushNode (mkNode entryId ParallelEntry None None None None Pending) st1 in
  let st3 := linkFrom p entryId st2 in
  let (branchExits, st4) := processBranches entryId branches [] st3 in
  let (mergeId, st5) := generateId st4 in
  let st6 := pushNode (mkNode mergeId ParallelMerge None None None (Some branchExits) Pending) st5 in
  (Some mergeId, pushMergeEdges branchExits mergeId st6).
Proof.
  cbn [processNode generateId].
  set (entryId := nodeIdOf (nodeIdCounter st)).
  match goal with
  | |- context [?f branches [] ?s3] =>
      assert (H : forall bs exits s, f bs exits s = processBranches entryId bs exits s)
  end.
  { induction bs as [|b bs IH]; intros exits s; [done|].
    cbn [processBranches]. destruct (processNode b (Some entryId) s) as [e s'].
    apply IH. }
  by rewrite H.
Qed.

Lemma nodeCount_Sequence steps : nodeCount (Sequence steps) = nodeCountList steps.
Proof. induction steps as [|x l IH]; [done|]. simpl in *. by rewrite IH. Qed.

Lemma nodeCount_Parallel branches :
  nodeCount (Parallel branches) = 2 + nodeCountList branches.
Proof.
  induction branches as [|x l IH]; [done|]. simpl in *. lia.
Qed.

Lemma conditionsOf_Sequence steps : conditionsOf (Sequence steps) = conditionsOfList steps.
Proof. induction steps as [|x l IH]; [done|]. simpl in *. by rewrite IH. Qed.

Lemma conditionsOf_Parallel branches :
  conditionsOf (Parallel branches) = conditionsOfList branches.
Proof. induction branches as [|x l IH]; [done|]. simpl in *. by rewrite IH. Qed.

Lemma idBetween_weaken (lo hi lo' hi' : nat) (x : NodeId) :
  idBetween lo hi x -> lo' <= lo -> hi <= hi' -> idBetween lo' hi' x.
Proof. intros (k & Hk & ->) ??. exists k. split; [lia|done]. Qed.

Lemma idBetween_disjoint (lo hi lo' hi' : nat) (x : NodeId) :
  idBetween lo hi x -> idBetween lo' hi' x -> hi <= lo' -> False.
Proof.
  intros (k & Hk & ->) (k' & Hk' & Heq) ?. apply nodeIdOf_inj in Heq. lia.
Qed.

Lemma skeleton_app (a b : list Edge) : skeleton (a ++ b) = skeleton a ++ skeleton b.
Proof. apply map_app. Qed.

Lemma skeleton_setFirstCondition s t c es :
  skeleton (setFirstCondition s t c es) = skeleton es.
Proof.
  induction es as [|e es IH]; [done|]. simpl.
  destruct (_ && _); simpl; [done|]. by rewrite IH.
Qed.

Lemma lowered_leaf (n : Node) (p : option NodeId) (st : Lowering) :
  lowered 1 p st
    (Some (nodeIdOf (nodeIdCounter st)),
     linkFrom p (nodeIdOf (nodeIdCounter st)) (pushNode n (snd (generateId st)))).
Proof.
  unfold lowered. cbn [fst snd].
  assert (Hc : nodeIdCounter (linkFrom p (nodeIdOf (nodeIdCounter st))
                 (pushNode n (snd (generateId st)))) = nodeIdCounter st + 1).
  { destruct p; simpl; lia. }
  rewrite Hc. split; [done|]. split.
  - exists (match p with Some x => [(x, nodeIdOf (nodeIdCounter st))] | None => [] end).
    split; [destruct p; simpl; [by rewrite skeleton_app|by rewrite app_nil_r]|].
    split; [|done].
    intros x y Hin. destruct p as [p'|]; [|done].
    destruct Hin as [[= <- <-]|[]]. split; [|by left].
    exists (nodeIdCounter st). split; [lia|done].
  - split; [done|]. intros _. eexists. split; [done|].
    exists (nodeIdCounter st). split; [lia|done].
Qed.

Lemma lowered_seq (n1 n2 : nat) (p : option NodeId) (st : Lowering)
  (r1 : option NodeId) (st1 : Lowering) (res : option NodeId * Lowering) :
  lowered n1 p st (r1, st1) -> lowered n2 r1 st1 res ->
  lowered (n1 + n2) p st res.
Proof.
  unfold lowered. cbn [fst snd].
  intros (Hc1 & (new1 & Hs1 & Hn1 & Hd1) & Hz1 & Hf1)
         (Hc2 & (new2 & Hs2 & Hn2 & Hd2) & Hz2 & Hf2).
  split; [lia|]. split.
  - exists (new1 ++ new2). split; [by rewrite Hs2, Hs1, app_assoc|]. split.
    + intros x y [Hin|Hin]%in_app_or.
      * destruct (Hn1 x y Hin) as [Hy Hx]. split.
        { eapply idBetween_weaken; [exact Hy|lia..]. }
        destruct Hx as [Hx|Hx]; [by left|right].
        eapply idBetween_weaken; [exact Hx|lia..].
      * destruct (Hn2 x y Hin) as [Hy Hx]. split.
        { eapply idBetween_weaken; [exact Hy|lia..]. }
        destruct Hx as [Hx|Hx].
        -- destruct (Nat.eq_dec n1 0) as [Hz|Hnz].
           ++ left. rewrite <- (Hz1 Hz). done.
           ++ right. destruct (Hf1 Hnz) as (r & Hr & Hb). rewrite Hr in Hx.
              injection Hx as <-. eapply idBetween_weaken; [exact Hb|lia..].
        -- right. eapply idBetween_weaken; [exact Hx|lia..].
    + intros x y [Hin|Hin]%in_app_or Hp Hold Hret.
      * destruct (Hn1 x y Hin) as [Hy _].
        destruct (Nat.eq_dec n2 0) as [Hz|Hnz].
        -- rewrite (Hz2 Hz) in Hret. rewrite (Hd1 x y Hin Hp Hold Hret). lia.
        -- destruct (Hf2 Hnz) as (r & Hr & Hb). rewrite Hr in Hret.
           injection Hret as ->. exfalso.
           eapply (idBetween_disjoint _ _ _ _ y Hy Hb). lia.
      * destruct (Hn2 x y Hin) as [_ Hx].
        destruct (Nat.eq_dec n1 0) as [Hz|Hnz].
        -- assert (r1 = Some x) as Hr1 by (by rewrite (Hz1 Hz)).
           rewrite (Hd2 x y Hin Hr1); [lia| |done].
           eapply idBetween_weaken; [exact Hold|lia..].
        -- exfalso. destruct (Hf1 Hnz) as (r & Hr & Hb).
           destruct Hx as [Hx|Hx].
           ++ rewrite Hr in Hx. injection Hx as <-.
              eapply (idBetween_disjoint _ _ _ _ r Hold Hb). lia.
           ++ eapply (idBetween_disjoint _ _ _ _ x Hold Hx). lia.
  - split.
    + intros Hz. rewrite Hz2, Hz1 by lia. done.
    + intros Hnz. destruct (Nat.eq_dec n2 0) as [Hz|Hnz2].
      * rewrite (Hz2 Hz). destruct (Hf1 ltac:(lia)) as (r & Hr & Hb).
        exists r. split; [done|]. eapply idBetween_weaken; [exact Hb|lia..].
      * destruct (Hf2 Hnz2) as (r & Hr & Hb).
        exists r. split; [done|]. eapply idBetween_weaken; [exact Hb|lia..].
Qed.

Lemma lowered_attach (n : nat) (p : option NodeId) (st : Lowering)
  (s t : option NodeId) (c : string) (st' : Lowering) :
  lowered n p st (t, st') -> lowered n p st (t, attachCondition s t c st').
Proof.
  unfold lowered, attachCondition. cbn [fst snd].
  destruct s as [s|], t as [t|]; try done.
  cbn [lEdges nodeIdCounter]. by rewrite skeleton_setFirstCondition.
Qed.

Lemma lowered_nil (p : option NodeId) (st : Lowering) : lowered 0 p st (p, st).
Proof.
  unfold lowered. cbn [fst snd]. split; [lia|]. split.
  - exists []. split; [by rewrite app_nil_r|]. split; intros ?? [].
  - split; [done|]. intros []. done.
Qed.

Lemma pushMergeEdges_spec (exits : list (option NodeId)) (mergeId : NodeId)
  (st : Lowering) :
  pushMergeEdges exits mergeId st =
  mkLowering (lNodes st)
    (lEdges st ++ List.map (fun x => mkEdge x mergeId None) (definedIds exits))
    (nodeIdCounter st).
Proof.
  revert st. induction exits as [|[x|] exits IH]; intros st.
  - simpl. rewrite app_nil_r. by destruct st.
  - cbn [pushMergeEdges definedIds List.map]. rewrite IH. simpl.
    by rewrite <- app_assoc.
  - cbn [pushMergeEdges definedIds]. apply IH.
Qed.

Lemma processSteps_lowered (steps : list AST) :
  Forall (fun a => forall p st, lowered (nodeCount a) p st (processNode a p st)) steps ->
  forall p st, lowered (nodeCountList steps) p st (processSteps steps p st).
Proof.
  induction 1 as [|x steps Hx _ IH]; intros p st.
  - apply lowered_nil.
  - cbn [processSteps nodeCountList].
    specialize (Hx p st). destruct (processNode x p st) as [r1 st1].
    eapply lowered_seq; [exact Hx|apply IH].
Qed.

Lemma processBranches_lowered (entryId : NodeId) (branches : list AST) :
  Forall (fun a => forall p st, lowered (nodeCount a) p st (processNode a p st))
    branches ->
  forall exits st,
    branchesLowered entryId branches exits st
      (processBranches entryId branches exits st).
Proof.
  induction 1 as [|b branches Hb _ IH]; intros exits st.
  - unfold branchesLowered. cbn [processBranches fst snd nodeCountList length].
    split; [lia|]. split.
    + exists []. split; [by rewrite app_nil_r|]. intros ?? [].
    + exists []. split; [by rewrite app_nil_r|]. split; [done|]. intros ? [].
  - cbn [processBranches nodeCountList].
    specialize (Hb (Some entryId) st).
    destruct (processNode b (Some entryId) st) as [e st1].
    specialize (IH (exits ++ [e]) st1).
    destruct (processBranches entryId branches (exits ++ [e]) st1) as [exits' st'].
    unfold lowered, branchesLowered in *. cbn [fst snd] in *.
    destruct Hb as (Hc1 & (new1 & Hs1 & Hn1 & _) & Hz1 & Hf1).
    destruct IH as (Hc2 & (new2 & Hs2 & Hn2) & (ex & Hex & Hlen & Hin)).
    cbn [nodeCountList length]. split; [lia|]. split.
    + exists (new1 ++ new2). split; [by rewrite Hs2, Hs1, app_assoc|].
      intros x y [Hxy|Hxy]%in_app_or.
      * destruct (Hn1 x y Hxy) as [Hy Hx]. split.
        { eapply idBetween_weaken; [exact Hy|lia..]. }
        destruct Hx as [[= ->]|Hx]; [by left|right].
        eapply idBetween_weaken; [exact Hx|lia..].
      * destruct (Hn2 x y Hxy) as [Hy Hx]. split.
        { eapply idBetween_weaken; [exact Hy|lia..]. }
        destruct Hx as [->|Hx]; [by left|right].
        eapply idBetween_weaken; [exact Hx|lia..].
    + exists (e :: ex). split; [by rewrite Hex, <- app_assoc|].
      split; [simpl; lia|].
      intros e' [<-|He'].
      * destruct (Nat.eq_dec (nodeCount b) 0) as [Hz|Hnz].
        -- exists entryId. split; [by apply Hz1|by left].
        -- destruct (Hf1 Hnz) as (r & Hr & Hb). exists r. split; [done|right].
           eapply idBetween_weaken; [exact Hb|lia..].
      * destruct (Hin e' He') as (r & Hr & [->|Hb]).
        -- exists entryId. split; [done|by left].
        -- exists r. split; [done|right].
           eapply idBetween_weaken; [exact Hb|lia..].
Qed.

Lemma definedIds_all (ex : list (option NodeId)) (Q : NodeId -> Prop) :
  (forall e, In e ex -> exists r, e = Some r /\ Q r) ->
  forall x, In x (definedIds ex) -> Q x.
Proof.
  induction ex as [|[e|] ex IH]; intros H x; simpl; [done| |].
  - intros [<-|Hx].
    + destruct (H (Some e) (or_introl eq_refl)) as (r & [= ->] & Hr). done.
    + apply IH; [|done]. intros e' He'. apply H. by right.
  - apply IH. intros e' He'. apply H. by right.
Qed.

Lemma processNode_lowered (a : AST) :
  forall p st, lowered (nodeCount a) p st (processNode a p st).
Proof.
  induction a as [name instr|lbl|steps IH|branches IH|source cond target IHs IHt|children IH]
    using AST_ind; intros p st.
  - apply lowered_leaf.
  - apply lowered_leaf.
  - rewrite processNode_Sequence, nodeCount_Sequence. by apply processSteps_lowered.
  - rewrite processNode_Parallel, nodeCount_Parallel.
    cbn [generateId].
    set (entryId := nodeIdOf (nodeIdCounter st)).
    set (st3 := linkFrom p entryId _).
    pose proof (processBranches_lowered entryId branches IH [] st3) as Hb.
    destruct (processBranches entryId branches [] st3) as [exits st4].
    rewrite pushMergeEdges_spec. unfold lowered, branchesLowered in *.
    cbn [fst snd pushNode lNodes lEdges nodeIdCounter app] in *.
    assert (Hc3 : nodeIdCounter st3 = S (nodeIdCounter st)).
    { subst st3. by destruct p. }
    assert (Hs3 : skeleton (lEdges st3) = skeleton (lEdges st) ++
              match p with Some x => [(x, entryId)] | None => [] end).
    { subst st3. destruct p; simpl; [by rewrite skeleton_app|by rewrite app_nil_r]. }
    destruct Hb as (Hc4 & (new & Hs4 & Hn4) & (ex & -> & Hlen & Hex)).
    rewrite Hc3 in *. split; [lia|]. split.
    + exists (match p with Some x => [(x, entryId)] | None => [] end ++ new ++
              List.map (fun x => (x, nodeIdOf (nodeIdCounter st4))) (definedIds ex)).
      split.
      { rewrite skeleton_app, Hs4, Hs3, <- !app_assoc. do 3 f_equal.
        unfold skeleton. rewrite map_map. done. }
      assert (Hall : forall x y,
        In (x, y) (match p with Some x => [(x, entryId)] | None => [] end ++ new ++
              List.map (fun x => (x, nodeIdOf (nodeIdCounter st4))) (definedIds ex)) ->
        (idBetween (nodeIdCounter st) (S (nodeIdCounter st4)) y
         /\ (p = Some x \/ idBetween (nodeIdCounter st) (S (nodeIdCounter st4)) x))
        /\ (p = Some x -> idBetween 0 (nodeIdCounter st) x ->
            y <> nodeIdOf (nodeIdCounter st4))).
      { intros x y [Hin|[Hin|Hin]%in_app_or]%in_app_or.
        - destruct p as [p'|]; [|done]. destruct Hin as [[= <- <-]|[]].
          split; [split; [|by left]|].
          + exists (nodeIdCounter st). split; [lia|done].
          + intros _ _ Heq. apply nodeIdOf_inj in Heq. lia.
        - destruct (Hn4 x y Hin) as [Hy Hx].
          assert (Hx' : idBetween (nodeIdCounter st) (S (nodeIdCounter st4)) x).
          { destruct Hx as [->|Hx].
            - exists (nodeIdCounter st). split; [lia|done].
            - eapply idBetween_weaken; [exact Hx|lia..]. }
          split; [split; [|by right]|].
          + eapply idBetween_weaken; [exact Hy|lia..].
          + intros _ Hold _. eapply (idBetween_disjoint _ _ _ _ x Hold Hx'). lia.
        - apply in_map_iff in Hin as (x' & [= <- <-] & Hx').
          assert (Hx : idBetween (nodeIdCounter st) (S (nodeIdCounter st4)) x').
          { revert x' Hx'. apply definedIds_all. intros e He.
            destruct (Hex e He) as (r & -> & [Hr|Hr]); exists r; (split; [done|]).
            - subst r. exists (nodeIdCounter st). split; [lia|done].
            - eapply idBetween_weaken; [exact Hr|lia..]. }
          split; [split; [|by right]|].
          + exists (nodeIdCounter st4). split; [lia|done].
          + intros _ Hold _. eapply (idBetween_disjoint _ _ _ _ x' Hold Hx). lia. }
      split.
      * intros x y Hin. destruct (Hall x y Hin) as [[Hy Hx] _]. split.
        { eapply idBetween_weaken; [exact Hy|lia..]. }
        destruct Hx as [Hx|Hx]; [by left|right].
        eapply idBetween_weaken; [exact Hx|lia..].
      * intros x y Hin Hp Hold [= <-]. by destruct (proj2 (Hall x _ Hin) Hp Hold).
    + split; [lia|]. intros _. eexists. split; [done|].
      exists (nodeIdCounter st4). split; [lia|done].
  - cbn [processNode nodeCount].
    specialize (IHs p st). destruct (processNode source p st) as [sourceId st1].
    specialize (IHt sourceId st1).
    destruct (processNode target sourceId st1) as [targetId st2].
    apply lowered_attach. eapply lowered_seq; [exact IHs|exact IHt].
  - apply IH.
Qed.

(** A node lowered below a parent has an exit. *)
Lemma processNode_exit_some (a : AST) (p : NodeId) (st : Lowering) :
  exists r, fst (processNode a (Some p) st) = Some r.
Proof.
  destruct (processNode_lowered a (Some p) st) as (_ & _ & Hz & Hf).
  destruct (Nat.eq_dec (nodeCount a) 0) as [H|H].
  - exists p. by apply Hz.
  - destruct (Hf H) as (r & Hr & _). by exists r.
Qed.

Lemma conditionsFrom_refl (st : Lowering) : conditionsFrom [] st st.
Proof. intros e c He Hc. left. by exists e. Qed.

Lemma conditionsFrom_trans (cs1 cs2 : list string) (st st1 st2 : Lowering) :
  conditionsFrom cs1 st st1 -> conditionsFrom cs2 st1 st2 ->
  conditionsFrom (cs1 ++ cs2) st st2.
Proof.
  intros H1 H2 e c He Hc.
  destruct (H2 e c He Hc) as [(e1 & He1 & Hc1)|Hin].
  - destruct (H1 e1 c He1 Hc1) as [?|?]; [by left|right]. apply in_or_app. by left.
  - right. apply in_or_app. by right.
Qed.

Lemma conditionsFrom_weaken (cs cs' : list string) (st st' : Lowering) :
  conditionsFrom cs st st' -> (forall c, In c cs -> In c cs') ->
  conditionsFrom cs' st st'.
Proof. intros H Hsub e c He Hc. destruct (H e c He Hc); [by left|right; auto]. Qed.

Lemma conditionsFrom_leaf (n : Node) (p : option NodeId) (x : NodeId) (st : Lowering) :
  conditionsFrom [] st (linkFrom p x (pushNode n (snd (generateId st)))).
Proof.
  intros e c He Hc. left. destruct p as [p'|]; simpl in He; [|by exists e].
  apply in_app_or in He as [He|[<-|[]]]; [by exists e|done].
Qed.

Lemma in_setFirstCondition s t c es e :
  In e (setFirstCondition s t c es) ->
  In e es \/ condition e = Some c.
Proof.
  induction es as [|e0 es IH]; simpl; [done|].
  destruct (_ && _); simpl.
  - intros [<-|He]; [by right|left; by right].
  - intros [<-|He]; [left; by left|]. destruct (IH He); [left; by right|by right].
Qed.

Lemma conditionsFrom_attach (s t : option NodeId) (c : string) (st : Lowering) :
  conditionsFrom [c] st (attachCondition s t c st).
Proof.
  intros e c' He Hc. destruct s as [s|], t as [t|]; simpl in He;
    try (left; by exists e).
  apply in_setFirstCondition in He as [He|He]; [left; by exists e|].
  right. left. congruence.
Qed.

Lemma processSteps_conditions (steps : list AST) :
  Forall (fun a => forall p st, conditionsFrom (conditionsOf a) st (snd (processNode a p st)))
    steps ->
  forall p st, conditionsFrom (conditionsOfList steps) st (snd (processSteps steps p st)).
Proof.
  induction 1 as [|x steps Hx _ IH]; intros p st.
  - apply conditionsFrom_refl.
  - cbn [processSteps conditionsOfList].
    specialize (Hx p st). destruct (processNode x p st) as [r1 st1].
    eapply conditionsFrom_trans; [exact Hx|apply IH].
Qed.

Lemma processBranches_conditions (entryId : NodeId) (branches : list AST) :
  Forall (fun a => forall p st, conditionsFrom (conditionsOf a) st (snd (processNode a p st)))
    branches ->
  forall exits st,
    conditionsFrom (conditionsOfList branches) st
      (snd (processBranches entryId branches exits st)).
Proof.
  induction 1 as [|b branches Hb _ IH]; intros exits st.
  - apply conditionsFrom_refl.
  - cbn [processBranches conditionsOfList].
    specialize (Hb (Some entryId) st).
    destruct (processNode b (Some entryId) st) as [e st1].
    eapply conditionsFrom_trans; [exact Hb|apply IH].
Qed.

Lemma processNode_conditions (a : AST) :
  forall p st, conditionsFrom (conditionsOf a) st (snd (processNode a p st)).
Proof.
  induction a as [name instr|lbl|steps IH|branches IH|source cond target IHs IHt|children IH]
    using AST_ind; intros p st.
  - apply conditionsFrom_leaf.
  - apply conditionsFrom_leaf.
  - rewrite processNode_Sequence, conditionsOf_Sequence.
    by apply processSteps_conditions.
  - rewrite processNode_Parallel, conditionsOf_Parallel. cbn [generateId].
    set (entryId := nodeIdOf (nodeIdCounter st)).
    set (st3 := linkFrom p entryId _).
    pose proof (processBranches_conditions entryId branches IH [] st3) as Hb.
    destruct (processBranches entryId branches [] st3) as [exits st4].
    rewrite pushMergeEdges_spec. cbn [snd] in *.
    intros e c He Hc. cbn [pushNode lEdges] in He.
    apply in_app_or in He as [He|He].
    + destruct (Hb e c He Hc) as [(e0 & He0 & Hc0)|?]; [|by right].
      left. destruct (conditionsFrom_leaf
        (mkNode entryId ParallelEntry None None None None Pending) p entryId st
        e0 c He0 Hc0) as [?|[]]. done.
    + apply in_map_iff in He as (x & <- & _). done.
  - cbn [processNode conditionsOf].
    specialize (IHs p st). destruct (processNode source p st) as [sourceId st1].
    specialize (IHt sourceId st1).
    destruct (processNode target sourceId st1) as [targetId st2]. cbn [snd] in *.
    eapply conditionsFrom_weaken.
    + eapply conditionsFrom_trans; [exact IHs|].
      eapply conditionsFrom_trans; [exact IHt|apply conditionsFrom_attach].
    + intros c [?|[?|[?|[]]]%in_app_or]%in_app_or; apply in_or_app;
        [by left|right; by right|right; by left].
  - apply IH.
Qed.

Lemma setFirstCondition_absent s t c es :
  (forall e, In e es -> ~ (from e = s /\ to e = t)) ->
  setFirstCondition s t c es = es.
Proof.
  induction es as [|e es IH]; intros H; [done|]. simpl.
  destruct (String.eqb_spec (from e) s) as [Hs|Hs];
    destruct (String.eqb_spec (to e) t) as [Ht|Ht]; simpl;
    try (f_equal; apply IH; intros e' He'; apply H; by right).
  exfalso. apply (H e); [by left|done].
Qed.

Lemma in_skeleton (es : list Edge) (e : Edge) :
  In e es -> In (from e, to e) (skeleton es).
Proof. intros H. unfold skeleton. apply in_map_iff. by exists e. Qed.

Lemma skeleton_in (es : list Edge) (x y : NodeId) :
  In (x, y) (skeleton es) -> exists e, In e es /\ from e = x /\ to e = y.
Proof.
  unfold skeleton. intros (e & [= <- <-] & He)%in_map_iff. by exists e.
Qed.

(** With a target of two nodes or more, no edge runs from the exit of the
    source to the id returned for the target. *)
Lemma no_edge_source_to_target (source target : AST) (parentId : option NodeId)
  (st : Lowering) :
  wfLowering st parentId ->
  2 <= nodeCount target ->
  forall e,
    In e (lEdges (snd (processSteps [source; target] parentId st))) ->
    ~ (Some (from e) = fst (processNode source parentId st)
       /\ Some (to e) = fst (processSteps [source; target] parentId st)).
Proof.
  intros [Hwf_e Hwf_p] Hcount e. cbn [processSteps].
  pose proof (processNode_lowered source parentId st) as Hs.
  destruct (processNode source parentId st) as [sourceId st1].
  pose proof (processNode_lowered target sourceId st1) as Ht.
  destruct (processNode target sourceId st1) as [targetId st2].
  unfold lowered in Hs, Ht. cbn [fst snd] in *.
  destruct Hs as (Hc1 & (new1 & Hs1 & Hn1 & _) & Hz1 & Hf1).
  destruct Ht as (Hc2 & (new2 & Hs2 & Hn2 & Hd2) & _ & Hf2).
  intros He [Hfrom Hto].
  destruct (Hf2 ltac:(lia)) as (r & -> & Hr). injection Hto as Hto.
  assert (Hsold : idBetween 0 (nodeIdCounter st1) (from e)).
  { destruct (Nat.eq_dec (nodeCount source) 0) as [Hz|Hnz].
    - rewrite (Hz1 Hz) in Hfrom. eapply idBetween_weaken;
        [apply Hwf_p; by rewrite Hfrom|lia..].
    - destruct (Hf1 Hnz) as (s & Hs & Hb). rewrite Hs in Hfrom.
      injection Hfrom as ->. eapply idBetween_weaken; [exact Hb|lia..]. }
  apply in_skeleton in He. rewrite Hs2 in He.
  apply in_app_or in He as [He|He].
  - assert (Hold : idBetween 0 (nodeIdCounter st1) (to e)).
    { rewrite Hs1 in He. apply in_app_or in He as [He|He].
      - apply skeleton_in in He as (e0 & He0 & _ & <-).
        eapply idBetween_weaken; [by apply Hwf_e|lia..].
      - destruct (Hn1 _ _ He) as [Hy _].
        eapply idBetween_weaken; [exact Hy|lia..]. }
    rewrite Hto in Hold. eapply (idBetween_disjoint _ _ _ _ r Hold Hr). lia.
  - assert (nodeCount target = 1); [|lia].
    apply (Hd2 _ _ He); [done|done|by rewrite Hto].
Qed.

Lemma processNode_Conditional_dropped (source target : AST) (cond : string)
  (parentId : option NodeId) (st : Lowering) :
  wfLowering st parentId ->
  2 <= nodeCount target ->
  processNode (Conditional source cond target) parentId st
  = processSteps [source; target] parentId st.
Proof.
  intros Hwf Hcount.
  pose proof (no_edge_source_to_target source target parentId st Hwf Hcount) as Hno.
  cbn [processNode processSteps] in *.
  destruct (processNode source parentId st) as [sourceId st1].
  destruct (processNode target sourceId st1) as [targetId st2].
  cbn [fst snd] in Hno. f_equal.
  destruct sourceId as [s|], targetId as [t|]; try done.
  unfold attachCondition. rewrite setFirstCondition_absent; [by destruct st2|].
  intros e He [Hs Ht]. apply (Hno e He). by rewrite Hs, Ht.
Qed.

(** C3, as stated, fails: in [a (if failed)~> b (if failed)~> c -> d] the
    second conditional has the target [c -> d], of two nodes, and its
    condition is dropped; but the graph has an edge that carries the same
    text, the one of the first conditional. *)
Lemma conditional_text_on_another_edge :
  let source := Conditional (Agent "a" None) "(if failed)" (Agent "b" None) in
  let target := Sequence [Agent "c" None; Agent "d" None] in
  (tokens ← tokenize "a (if failed)~> b (if failed)~> c -> d"; buildAST tokens)
  = Return (Conditional source "(if failed)" target)
  /\ nodeCount target = 2
  /\ edges (astToGraph (Conditional source "(if failed)" target))
     = [mkEdge "node-0" "node-1" (Some "(if failed)");
        mkEdge "node-1" "node-2" None;
        mkEdge "node-2" "node-3" None].
Proof. by repeat split. Qed.

(** C3 (amended): a conditional whose target lowers to two graph nodes or
    more loses its condition.  Lowering it gives exactly the graph of the
    sequence [source -> target]: no edge runs from the exit of the source to
    the id returned for the target, so no edge receives the text.  Hence the
    text is on no edge of the result, unless it was on an edge before or is
    the condition of another conditional inside [source] or [target]. *)
Theorem conditional_compound_target_drops_condition
  (source target : AST) (cond : string) (parentId : option NodeId) (st : Lowering) :
  wfLowering st parentId ->
  2 <= nodeCount target ->
  processNode (Conditional source cond target) parentId st
  = processNode (Sequence [source; target]) parentId st
  /\ (forall e,
        In e (lEdges (snd (processNode (Conditional source cond target) parentId st))) ->
        ~ (Some (from e) = fst (processNode source parentId st)
           /\ Some (to e)
              = fst (processNode (Conditional source cond target) parentId st)))
  /\ (~ In cond (conditionsOf source ++ conditionsOf target) ->
      (forall e, In e (lEdges st) -> condition e <> Some cond) ->
      forall e,
        In e (lEdges (snd (processNode (Conditional source cond target) parentId st))) ->
        condition e <> Some cond).
Proof.
  intros Hwf Hcount.
  pose proof (processNode_Conditional_dropped source target cond parentId st Hwf Hcount)
    as Hdrop.
  split; [by rewrite processNode_Sequence|]. split.
  - rewrite Hdrop. by apply no_edge_source_to_target.
  - intros Hfresh Hold e He Hc. rewrite Hdrop in He.
    rewrite <- processNode_Sequence in He.
    destruct (processNode_conditions (Sequence [source; target]) parentId st e cond He Hc)
      as [(e0 & He0 & Hc0)|Hin].
    + by apply (Hold e0).
    + apply Hfresh. simpl in Hin. by rewrite app_nil_r in Hin.
Qed.

Lemma conditional_compound_target_drops_condition_witness :
  astToGraph (Conditional (Agent "src" None) "(if failed)"
                (Sequence [Agent "b" None; Agent "c" None]))
  = astToGraph (Sequence [Agent "src" None;
                          Sequence [Agent "b" None; Agent "c" None]])
  /\ forall e,
       In e (edges (astToGraph (Conditional (Agent "src" None) "(if failed)"
                      (Sequence [Agent "b" None; Agent "c" None])))) ->
       condition e <> Some "(if failed)".
Proof.
  assert (Hwf : wfLowering (mkLowering [] [] 0) None).
  { split; [intros e []|intros p Hp; discriminate Hp]. }
  assert (Hcount : 2 <= nodeCount (Sequence [Agent "b" None; Agent "c" None]))
    by (simpl; lia).
  destruct (conditional_compound_target_drops_condition (Agent "src" None)
              (Sequence [Agent "b" None; Agent "c" None]) "(if failed)" None
              (mkLowering [] [] 0) Hwf Hcount) as (Heq & _ & Hno).
  split.
  - unfold astToGraph. by rewrite Heq.
  - intros e He. apply Hno.
    + simpl. intros [].
    + intros e0 [].
    + exact He.
Defined.

(** The example of the claim, from the text: both edges are unconditional. *)
Example lowering_src_if_failed_b_c :
  (tokens ← tokenize "src (if failed)~> b -> c";
   ast ← buildAST tokens;
   Return (edges (astToGraph ast)))
  = Return [mkEdge "node-0" "node-1" None; mkEdge "node-1" "node-2" None].
Proof. reflexivity. Qed.

(** A conditional with a single-node target keeps its condition. *)
Example lowering_src_if_failed_b :
  (tokens ← tokenize "src (if failed)~> b";
   ast ← buildAST tokens;
   Return (edges (astToGraph ast)))
  = Return [mkEdge "node-0" "node-1" (Some "(if failed)")].
Proof. reflexivity. Qed.

(** ** Sets and the fuel measure *)

Lemma setHas_In (x : string) (s : list string) : setHas x s = true <-> In x s.
Proof.
  unfold setHas. rewrite existsb_exists. split.
  - intros (y & Hy & ->%String.eqb_eq). done.
  - intros H. exists x. split; [done|apply String.eqb_refl].
Qed.

Lemma setHas_not_In (x : string) (s : list string) : setHas x s = false <-> ~ In x s.
Proof. rewrite <- setHas_In. by destruct (setHas x s). Qed.

Lemma in_setAdd (x y : string) (s : list string) :
  In y (setAdd x s) <-> y = x \/ In y s.
Proof.
  unfold setAdd. destruct (setHas x s) eqn:H.
  - apply setHas_In in H. split; [by right|]. by intros [->|?].
  - rewrite in_app_iff. simpl. split; [intros [?|[<-|[]]]|intros [->|?]]; auto.
Qed.

Lemma in_setDelete (x y : string) (s : list string) :
  In y (setDelete x s) <-> In y s /\ y <> x.
Proof.
  unfold setDelete. rewrite filter_In, negb_true_iff, String.eqb_neq.
  split; intros [? ?]; split; auto.
Qed.

Lemma setDelete_absent (x : string) (s : list string) :
  ~ In x s -> setDelete x s = s.
Proof.
  induction s as [|y s IH]; intros H; [done|]. simpl.
  destruct (String.eqb_spec x y) as [->|Hne]; simpl.
  - exfalso. apply H. by left.
  - f_equal. apply IH. intros ?. apply H. by right.
Qed.

Lemma setDelete_setAdd (x : string) (s : list string) :
  ~ In x s -> setDelete x (setAdd x s) = s.
Proof.
  intros H. unfold setAdd. rewrite (proj2 (setHas_not_In x s) H).
  unfold setDelete. rewrite List.filter_app. simpl. rewrite String.eqb_refl. simpl.
  rewrite app_nil_r. by apply setDelete_absent.
Qed.

Lemma unseen_le (universe seen seen' : list NodeId) :
  (forall x, In x seen -> In x seen') ->
  unseen universe seen' <= unseen universe seen.
Proof.
  intros Hsub. unfold unseen. induction universe as [|u universe IH]; [done|].
  simpl. destruct (setHas u seen') eqn:H'; destruct (setHas u seen) eqn:H;
    simpl; try lia.
  apply setHas_In, Hsub, setHas_In in H. congruence.
Qed.

Lemma unseen_lt (universe seen seen' : list NodeId) (x : NodeId) :
  (forall y, In y seen -> In y seen') ->
  In x universe -> ~ In x seen -> In x seen' ->
  unseen universe seen' < unseen universe seen.
Proof.
  intros Hsub Hu Hx Hx'. unfold unseen.
  induction universe as [|u universe IH]; [done|].
  pose proof (unseen_le universe seen seen' Hsub) as Hle. unfold unseen in Hle.
  simpl. destruct Hu as [->|Hu].
  - rewrite (proj2 (setHas_In x seen') Hx'), (proj2 (setHas_not_In x seen) Hx).
    simpl. lia.
  - specialize (IH Hu).
    destruct (setHas u seen') eqn:H'; destruct (setHas u seen) eqn:H;
      simpl; try lia.
    apply setHas_In, Hsub, setHas_In in H. congruence.
Qed.

Lemma unseen_bound (universe seen : list NodeId) :
  unseen universe seen <= length universe.
Proof. unfold unseen. apply List.filter_length_le. Qed.

(** ** Loops *)

Lemma foldOutcome_spec {A S : Type} (f : A -> S -> Outcome S)
  (I : S -> Prop) (T : JsError -> Prop) (l : list A) :
  forall s,
    I s ->
    (forall a s1, In a l -> I s1 -> outcomeSpec I T (f a s1)) ->
    outcomeSpec I T (foldOutcome f l s).
Proof.
  induction l as [|a l IH]; intros s Hs Hf; [done|].
  cbn [foldOutcome].
  pose proof (Hf a s (or_introl eq_refl) Hs) as Ha.
  destruct (f a s) as [s1| |]; simpl in *; try done.
  apply IH; [done|]. intros a' s' Ha'. apply Hf. by right.
Qed.

Lemma outcomeSpec_weaken {A : Type} (R R' : A -> Prop) (T T' : JsError -> Prop)
  (m : Outcome A) :
  outcomeSpec R T m -> (forall a, R a -> R' a) -> (forall e, T e -> T' e) ->
  outcomeSpec R' T' m.
Proof. destruct m; simpl; auto. Qed.

Lemma in_outgoingEdges (es : list Edge) (n : NodeId) (e : Edge) :
  In e (outgoingEdges es n) <-> In e es /\ from e = n.
Proof. unfold outgoingEdges. by rewrite filter_In, String.eqb_eq. Qed.

Lemma in_incomingEdges (es : list Edge) (n : NodeId) (e : Edge) :
  In e (incomingEdges es n) <-> In e es /\ to e = n.
Proof. unfold incomingEdges. by rewrite filter_In, String.eqb_eq. Qed.

(** ** Paths *)

Lemma unconditionalPath_snoc (es : list Edge) (l : list NodeId) (a b : NodeId) :
  unconditionalPath es (l ++ [a]) -> unconditionalEdge es a b ->
  unconditionalPath es ((l ++ [a]) ++ [b]).
Proof.
  induction l as [|x l IH]; intros Hp Hab; [simpl; auto|].
  destruct l as [|y l]; simpl in *; [tauto|].
  destruct Hp as [Hxy Hp]. split; [done|]. by apply IH.
Qed.

Lemma unconditionalPath_tail (es : list Edge) (x : NodeId) (l : list NodeId) :
  unconditionalPath es (x :: l) -> unconditionalPath es l.
Proof. destruct l; simpl; tauto. Qed.

Lemma unconditionalPath_drop (es : list Edge) (i : nat) (l : list NodeId) :
  unconditionalPath es l -> unconditionalPath es (drop i l).
Proof.
  revert l. induction i as [|i IH]; intros l Hp; [by rewrite drop_0|].
  destruct l as [|x l]; [done|]. simpl. apply IH.
  by apply unconditionalPath_tail in Hp.
Qed.

Lemma indexOf_In (x : NodeId) (l : list NodeId) :
  In x l -> exists i rest, indexOf x l = Some i /\ drop i l = x :: rest /\ i < length l.
Proof.
  induction l as [|y l IH]; intros Hin; [done|]. simpl.
  destruct (String.eqb_spec y x) as [->|Hne].
  - exists 0, l. repeat split. simpl. lia.
  - destruct Hin as [?|Hin]; [done|].
    destruct (IH Hin) as (i & rest & -> & Hd & Hi).
    exists (S i), rest. repeat split; [done|simpl; lia].
Qed.

Lemma cycleFrom_cycle (es : list Edge) (path : list NodeId) (n : NodeId) :
  unconditionalPath es (path ++ [n]) -> In n path ->
  unconditionalCycle es (cycleFrom path n)
  /\ exists rest, cycleFrom path n = n :: rest.
Proof.
  intros Hp Hin. unfold cycleFrom.
  destruct (indexOf_In n path Hin) as (i & rest & -> & Hd & Hi).
  assert (Heq : drop i path ++ [n] = drop i (path ++ [n])).
  { rewrite drop_app. replace (i - length path) with 0 by lia. by rewrite drop_0. }
  split; [split|].
  - rewrite Heq. by apply unconditionalPath_drop.
  - exists n, rest. by rewrite Hd.
  - exists (rest ++ [n]). by rewrite Hd.
Qed.

(** ** Visited nodes have no unconditional cycle *)

Lemma successorsFirst_snoc (es : list Edge) (visited : list NodeId) (n : NodeId) :
  successorsFirst es visited ->
  (forall y, unconditionalEdge es n y -> In y visited) ->
  successorsFirst es (visited ++ [n]).
Proof.
  intros Hs Hn before x after Heq y Hxy.
  destruct after as [|z after _] using rev_ind.
  - apply app_inj_tail in Heq as [-> ->]. by apply Hn.
  - replace (before ++ x :: after ++ [z]) with ((before ++ x :: after) ++ [z]) in Heq
      by (by rewrite <- app_assoc).
    apply app_inj_tail in Heq as [-> ->]. by apply (Hs before x after).
Qed.

Lemma successorsFirst_setAdd (es : list Edge) (visited : list NodeId) (n : NodeId) :
  successorsFirst es visited ->
  (forall y, unconditionalEdge es n y -> In y visited) ->
  successorsFirst es (setAdd n visited).
Proof.
  intros Hs Hn. unfold setAdd. destruct (setHas n visited); [done|].
  by apply successorsFirst_snoc.
Qed.

Lemma successorsFirst_descendants (es : list Edge) (visited : list NodeId)
  (x y : NodeId) :
  successorsFirst es visited ->
  tc (unconditionalEdge es) x y ->
  forall before after, visited = before ++ x :: after -> In y before.
Proof.
  intros Hs Htc. induction Htc as [x y Hxy|x z y Hxz Hzy IH];
    intros before after Heq.
  - by apply (Hs before x after).
  - pose proof (Hs before x after Heq z Hxz) as Hz.
    apply in_split in Hz as (b1 & a1 & ->).
    apply in_or_app. left. apply (IH b1 (a1 ++ x :: after)).
    rewrite Heq. by rewrite <- app_assoc.
Qed.

Lemma successorsFirst_acyclic (es : list Edge) (visited : list NodeId) (x : NodeId) :
  successorsFirst es visited -> In x visited ->
  ~ tc (unconditionalEdge es) x x.
Proof.
  intros Hs Hin Hcycle.
  assert (H : forall n before after,
             length before <= n -> visited = before ++ x :: after -> False).
  { induction n as [|n IH]; intros before after Hlen Heq.
    - pose proof (successorsFirst_descendants es visited x x Hs Hcycle before after Heq).
      destruct before; [done|simpl in Hlen; lia].
    - pose proof (successorsFirst_descendants es visited x x Hs Hcycle before after Heq)
        as Hx.
      apply in_split in Hx as (b1 & a1 & ->).
      apply (IH b1 (a1 ++ x :: after)).
      + rewrite length_app in Hlen. simpl in Hlen. lia.
      + rewrite Heq. by rewrite <- app_assoc. }
  apply in_split in Hin as (before & after & Heq).
  by apply (H (length before) before after).
Qed.

Lemma successorsFirst_closed (es : list Edge) (visited : list NodeId) (x y : NodeId) :
  successorsFirst es visited -> In x visited ->
  rtc (unconditionalEdge es) x y -> In y visited.
Proof.
  intros Hs Hin Hrtc. induction Hrtc as [|x z y Hxz _ IH]; [done|].
  apply IH. apply in_split in Hin as (before & after & ->).
  apply in_or_app. left. by apply (Hs before x after).
Qed.

(** ** The search of [validateNoCycles] *)

Section CycleSearch.

Variable es : list Edge.
Variable universe : list NodeId.
Hypothesis universe_to : forall e, In e es -> In (to e) universe.

Lemma visitCycle_spec (root : NodeId) (fuel : nat) :
  forall nodeId path st,
    In nodeId universe ->
    unseen universe (fst st ++ snd st) < fuel ->
    unconditionalPath es (path ++ [nodeId]) ->
    (forall x, In x (path ++ [nodeId]) -> rtc (unconditionalEdge es) root x) ->
    (forall x, In x (fst st) -> In x path) ->
    successorsFirst es (snd st) ->
    outcomeSpec (visitedAfter es nodeId st) (cycleFound es root)
      (visitCycle es fuel nodeId path st).
Proof.
  induction fuel as [|fuel IH];
    intros nodeId path [visiting visited] Hu Hfuel Hpath Hreach Hvis Hsf; [lia|].
  cbn [fst snd] in *. cbn [visitCycle fst snd].
  destruct (setHas nodeId visiting) eqn:Hing.
  { apply setHas_In in Hing. simpl.
    destruct (cycleFrom_cycle es path nodeId Hpath (Hvis _ Hing)) as [Hc (rest & Hr)].
    exists (cycleFrom path nodeId). split; [done|]. split; [done|].
    exists nodeId, rest. split; [done|]. apply Hreach, in_or_app. right. by left. }
  destruct (setHas nodeId visited) eqn:Hed.
  { apply setHas_In in Hed. simpl. by repeat split. }
  apply setHas_not_In in Hing, Hed.
  set (path1 := path ++ [nodeId]).
  set (f := fun edge s => if negb (hasCondition edge)
                          then visitCycle es fuel (to edge) path1 s else Return s).
  assert (Hloop : forall l s,
    (forall e, In e l -> In e es /\ from e = nodeId) ->
    fst s = setAdd nodeId visiting ->
    (forall x, In x visited -> In x (snd s)) ->
    successorsFirst es (snd s) ->
    outcomeSpec
      (fun s' => fst s' = setAdd nodeId visiting
                 /\ (forall x, In x (snd s) -> In x (snd s'))
                 /\ successorsFirst es (snd s')
                 /\ forall e, In e l -> hasCondition e = false -> In (to e) (snd s'))
      (cycleFound es root) (foldOutcome f l s)).
  { induction l as [|e l IHl]; intros s Hl Hfst Hincl Hs.
    - simpl. by repeat split.
    - cbn [foldOutcome].
      destruct (Hl e (or_introl eq_refl)) as [He Hfrom].
      assert (Hfe : outcomeSpec
                (fun s1 => fst s1 = fst s
                           /\ (forall x, In x (snd s) -> In x (snd s1))
                           /\ successorsFirst es (snd s1)
                           /\ (hasCondition e = false -> In (to e) (snd s1)))
                (cycleFound es root) (f e s)).
      { unfold f. destruct (hasCondition e) eqn:Hcond; simpl; [by repeat split|].
        assert (Hedge : unconditionalEdge es nodeId (to e)) by (by exists e).
        eapply outcomeSpec_weaken; [apply IH| |done].
        - by apply universe_to.
        - rewrite Hfst.
          assert (unseen universe (setAdd nodeId visiting ++ snd s)
                  < unseen universe (visiting ++ visited)); [|lia].
          apply (unseen_lt _ _ _ nodeId); [|done| |].
          + intros y [?|?]%in_app_or; apply in_or_app;
              [left; apply in_setAdd; by right|right; by apply Hincl].
          + by intros [?|?]%in_app_or.
          + apply in_or_app. left. apply in_setAdd. by left.
        - by apply unconditionalPath_snoc.
        - intros x [Hx|[<-|[]]]%in_app_or; [by apply Hreach|].
          eapply rtc_r; [|exact Hedge]. apply Hreach, in_or_app. right. by left.
        - rewrite Hfst. intros x [->|Hx]%in_setAdd; apply in_or_app;
            [right; by left|left; by apply Hvis].
        - done.
        - intros s1 (H1 & H2 & H3 & H4). by repeat split. }
      destruct (f e s) as [s1| |]; simpl in Hfe |- *; try done.
      destruct Hfe as (H1 & H2 & H3 & H4).
      eapply outcomeSpec_weaken; [apply (IHl s1)| |done].
      + intros e' He'. apply Hl. by right.
      + by rewrite H1.
      + intros x Hx. by apply H2, Hincl.
      + done.
      + intros s' (G1 & G2 & G3 & G4). repeat split; [done| |done|].
        * intros x Hx. by apply G2, H2.
        * intros e' [<-|He'] Hc; [by apply G2, H4|by apply G4]. }
  pose proof (Hloop (outgoingEdges es nodeId) (setAdd nodeId visiting, visited)) as Hl.
  cbn [fst snd] in Hl. specialize (Hl ltac:(intros e; apply in_outgoingEdges)
                                      eq_refl ltac:(done) Hsf).
  fold path1. fold f.
  destruct (foldOutcome f (outgoingEdges es nodeId) (setAdd nodeId visiting, visited))
    as [[visiting' visited']| |]; simpl in Hl |- *; try done.
  destruct Hl as (-> & Hincl & Hsf' & Hout).
  unfold visitedAfter. cbn [fst snd].
  split; [by apply setDelete_setAdd|]. split.
  { intros x Hx. apply in_setAdd. right. by apply Hincl. }
  split; [apply in_setAdd; by left|].
  apply successorsFirst_setAdd; [done|].
  intros y (e & He & Hfrom & Hto & Hcond). rewrite <- Hto.
  apply Hout; [by apply in_outgoingEdges|done].
Qed.

End CycleSearch.

Lemma idUniverse_id (graph : Graph) (node : Node) :
  In node (nodes graph) -> In (id node) (idUniverse graph).
Proof. intros H. apply in_or_app. left. by apply in_map. Qed.

Lemma idUniverse_to (graph : Graph) (e : Edge) :
  In e (edges graph) -> In (to e) (idUniverse graph).
Proof. intros H. apply in_or_app. right. by apply in_map. Qed.

(** [validateNoCycles] always finishes.  It returns when no cycle of
    unconditional edges can be reached from a node of the graph, and it
    throws a circular-dependency error that shows such a cycle otherwise. *)
Lemma validateNoCycles_spec (graph : Graph) :
  outcomeSpec
    (fun _ =>
       forall n x, In n (List.map id (nodes graph)) ->
         rtc (unconditionalEdge (edges graph)) n x ->
         ~ tc (unconditionalEdge (edges graph)) x x)
    (fun e =>
       exists n, In n (List.map id (nodes graph))
                 /\ cycleFound (edges graph) n e)
    (validateNoCycles graph).
Proof.
  unfold validateNoCycles.
  set (es := edges graph). set (fuel := S (length (idUniverse graph))).
  set (f := fun node s => if negb (setHas (id node) (snd s))
                          then visitCycle es fuel (id node) [] s else Return s).
  assert (Hloop : forall l s,
    (forall node, In node l -> In node (nodes graph)) ->
    fst s = [] -> successorsFirst es (snd s) ->
    outcomeSpec
      (fun s' => successorsFirst es (snd s')
                 /\ (forall x, In x (snd s) -> In x (snd s'))
                 /\ forall node, In node l -> In (id node) (snd s'))
      (fun e => exists n, In n (List.map id (nodes graph)) /\ cycleFound es n e)
      (foldOutcome f l s)).
  { induction l as [|node l IHl]; intros s Hl Hfst Hsf; [simpl; by repeat split|].
    cbn [foldOutcome].
    assert (Hnode : In node (nodes graph)) by (apply Hl; by left).
    assert (Hf : outcomeSpec
              (fun s1 => fst s1 = [] /\ successorsFirst es (snd s1)
                         /\ (forall x, In x (snd s) -> In x (snd s1))
                         /\ In (id node) (snd s1))
              (fun e => exists n, In n (List.map id (nodes graph)) /\ cycleFound es n e)
              (f node s)).
    { unfold f. destruct (setHas (id node) (snd s)) eqn:Hhas; simpl.
      - apply setHas_In in Hhas. by repeat split.
      - eapply outcomeSpec_weaken;
          [apply (visitCycle_spec es (idUniverse graph) (idUniverse_to graph)
                    (id node) fuel)| |].
        + by apply idUniverse_id.
        + pose proof (unseen_bound (idUniverse graph) (fst s ++ snd s)).
          unfold fuel. lia.
        + done.
        + intros x [<-|[]]. apply rtc_refl.
        + rewrite Hfst. intros x [].
        + done.
        + intros s1 (H1 & H2 & H3 & H4). repeat split; try done. by rewrite H1.
        + intros e He. exists (id node). split; [by apply in_map|done]. }
    destruct (f node s) as [s1| |]; simpl in Hf |- *; try done.
    destruct Hf as (H1 & H2 & H3 & H4).
    eapply outcomeSpec_weaken; [apply (IHl s1)| |done]; try done.
    - intros node' Hn'. apply Hl. by right.
    - intros s' (G1 & G2 & G3). repeat split; [done| |].
      + intros x Hx. by apply G2, H3.
      + intros node' [<-|Hn']; [by apply G2|by apply G3]. }
  pose proof (Hloop (nodes graph) ([], []) ltac:(done) eq_refl) as H.
  cbn [snd] in H. specialize (H ltac:(by intros [] ???)).
  fold es fuel f.
  destruct (foldOutcome f (nodes graph) ([], [])) as [s'| |]; simpl in H |- *;
    try done.
  destruct H as (Hsf & _ & Hall).
  intros n x (node & <- & Hnode)%in_map_iff Hreach.
  apply (successorsFirst_acyclic es (snd s')); [done|].
  eapply successorsFirst_closed; [done| |exact Hreach]. by apply Hall.
Qed.

Lemma unconditionalPath_tc (es : list Edge) (l : list NodeId) :
  forall a b, unconditionalPath es (a :: l ++ [b]) -> tc (unconditionalEdge es) a b.
Proof.
  induction l as [|x l IH]; intros a b Hp.
  - simpl in Hp. apply tc_once. tauto.
  - change (a :: (x :: l) ++ [b]) with (a :: x :: l ++ [b]) in Hp.
    destruct Hp as [Hax Hp]. eapply tc_l; [exact Hax|]. by apply IH.
Qed.

Lemma cycleFound_tc (es : list Edge) (root : NodeId) (e : JsError) :
  cycleFound es root e ->
  exists x, rtc (unconditionalEdge es) root x /\ tc (unconditionalEdge es) x x.
Proof.
  intros (cycle & -> & [Hp (n & middle & Hc)] & x & rest & Hx & Hreach).
  rewrite Hc in Hx. injection Hx as <- _. exists n. split; [done|].
  rewrite Hc in Hp. by apply (unconditionalPath_tc es middle).
Qed.

Lemma validateNoCycles_total (graph : Graph) : validateNoCycles graph <> OutOfFuel.
Proof.
  pose proof (validateNoCycles_spec graph) as H.
  by destruct (validateNoCycles graph).
Qed.

(** C4, as stated, fails: the graph [node-0 -> node-1 -> node-2] with the
    conditioned edge [node-2 (if failed)~> node-1] has a cycle that contains
    the unconditional edge [node-1 -> node-2], and it is accepted, by the
    cycle check and by the whole validation. *)
Lemma validation_accepts_cycle_with_unconditional_edge :
  cycleWithUnconditionalEdge retryLoopGraph
  /\ validateNoCycles retryLoopGraph = Return tt
  /\ validateGraph VALID_AGENTS retryLoopGraph [] = Return Valid.
Proof.
  split; [|split; reflexivity].
  exists "node-1", "node-2". split.
  - exists (mkEdge "node-1" "node-2" None). simpl. tauto.
  - apply rtc_once. exists (mkEdge "node-2" "node-1" (Some "(if failed)")).
    simpl. tauto.
Qed.

(** C4 (amended): the cycle check always decides, and it rejects a graph
    exactly when a cycle made of unconditional edges only can be reached
    from one of its nodes along unconditional edges; the error then shows
    such a cycle.  A cycle is therefore permitted as soon as one of its
    edges carries a condition. *)
Theorem validateNoCycles_rejects_unconditional_cycles (graph : Graph) :
  validateNoCycles graph <> OutOfFuel
  /\ ((exists e, validateNoCycles graph = Throw e) <->
      (exists n x, In n (List.map id (nodes graph))
                   /\ rtc (unconditionalEdge (edges graph)) n x
                   /\ tc (unconditionalEdge (edges graph)) x x))
  /\ (forall e, validateNoCycles graph = Throw e ->
        exists cycle, e = CircularDependency cycle
                      /\ unconditionalCycle (edges graph) cycle).
Proof.
  pose proof (validateNoCycles_spec graph) as H.
  destruct (validateNoCycles graph) as [[]|e|]; simpl in H; [| |done].
  - split; [done|]. split; [|done]. split; [by intros [e He]|].
    intros (n & x & Hn & Hreach & Hcycle). by destruct (H n x Hn Hreach).
  - split; [done|]. destruct H as (n & Hn & Hfound). split.
    + split; [|by exists e]. intros _.
      destruct (cycleFound_tc _ _ _ Hfound) as (x & Hreach & Hcycle).
      by exists n, x.
    + intros e' [= <-]. destruct Hfound as (cycle & -> & Hc & _). by exists cycle.
Qed.

Lemma validateNoCycles_rejects_unconditional_cycles_witness :
  exists cycle,
    validateNoCycles unconditionalLoopGraph = Throw (CircularDependency cycle)
    /\ unconditionalCycle (edges unconditionalLoopGraph) cycle.
Proof.
  destruct (validateNoCycles_rejects_unconditional_cycles unconditionalLoopGraph)
    as (_ & [_ Hthrow] & Hshape).
  destruct Hthrow as [e He].
  - exists "node-0", "node-1". split; [simpl; tauto|]. split.
    + apply rtc_once. exists (mkEdge "node-0" "node-1" None). simpl. tauto.
    + eapply tc_l; [|apply tc_once].
      * exists (mkEdge "node-1" "node-2" None). simpl. tauto.
      * exists (mkEdge "node-2" "node-1" None). simpl. tauto.
  - destruct (Hshape e He) as (cycle & -> & Hc). by exists cycle.
Defined.

(** ** The search of [validateConnectivity] *)

Section ReachableSearch.

Variable es : list Edge.
Variable universe : list NodeId.
Hypothesis universe_to : forall e, In e es -> In (to e) universe.

Lemma visitReachable_terminates (fuel : nat) :
  forall nodeId reachable,
    In nodeId universe ->
    unseen universe reachable < fuel ->
    outcomeSpec
      (fun r => (forall x, In x reachable -> In x r) /\ In nodeId r)
      (fun _ => False)
      (visitReachable es fuel nodeId reachable).
Proof.
  induction fuel as [|fuel IH]; intros nodeId reachable Hu Hfuel; [lia|].
  cbn [visitReachable].
  destruct (setHas nodeId reachable) eqn:Hhas.
  { apply setHas_In in Hhas. by split. }
  apply setHas_not_In in Hhas.
  eapply outcomeSpec_weaken;
    [apply (foldOutcome_spec _
              (fun r => forall x, In x (setAdd nodeId reachable) -> In x r)
              (fun _ => False))| |done].
  - done.
  - intros e r He Hr. apply in_outgoingEdges in He as [He _].
    eapply outcomeSpec_weaken; [apply IH| |done].
    + by apply universe_to.
    + assert (unseen universe r < unseen universe reachable); [|lia].
      apply (unseen_lt _ _ _ nodeId); [|done|done|].
      * intros y Hy. apply Hr, in_setAdd. by right.
      * apply Hr, in_setAdd. by left.
    + intros r' [Hincl _] x Hx. by apply Hincl, Hr.
  - intros r Hr. split.
    + intros x Hx. apply Hr, in_setAdd. by right.
    + apply Hr, in_setAdd. by left.
Qed.

End ReachableSearch.

Lemma validateConnectivity_total (graph : Graph) :
  validateConnectivity graph <> OutOfFuel.
Proof.
  unfold validateConnectivity.
  destruct (length _ =? 0)%nat; [done|].
  set (f := fun start r => visitReachable _ _ (id start) r).
  assert (H : outcomeSpec (fun _ => True) (fun _ => False)
                (foldOutcome f
                   (List.filter
                      (fun node => negb (existsb (fun edge => String.eqb (to edge) (id node))
                                           (edges graph))) (nodes graph)) [])).
  { apply foldOutcome_spec; [done|].
    intros start r [Hstart _]%filter_In _. unfold f.
    eapply outcomeSpec_weaken;
      [apply (visitReachable_terminates (edges graph) (idUniverse graph)
                (idUniverse_to graph))| |done]; [|  |done].
    - by apply idUniverse_id.
    - pose proof (unseen_bound (idUniverse graph) r). lia. }
  destruct (foldOutcome f _ []) as [r| |]; simpl in H; try done.
  simpl. by destruct (0 <? _)%nat.
Qed.

(** ** [validateGraph] *)

Lemma validateBracketsLoop_total (tokens : list Token) :
  forall i depth, validateBracketsLoop tokens i depth <> OutOfFuel.
Proof.
  induction tokens as [|t tokens IH]; intros i depth; [done|]. simpl.
  destruct (_ <? 0)%Z; [done|apply IH].
Qed.

Lemma validateBrackets_total (tokens : list Token) :
  validateBrackets tokens <> OutOfFuel.
Proof.
  unfold validateBrackets.
  pose proof (validateBracketsLoop_total tokens 0 0%Z) as H.
  destruct (validateBracketsLoop tokens 0 0%Z); simpl; try done.
  by destruct (0 <? a)%Z.
Qed.

Lemma validateAgents_total (validAgents : list string) (graph : Graph) :
  validateAgents validAgents graph <> OutOfFuel.
Proof.
  unfold validateAgents. induction (nodes graph) as [|n ns IH]; [done|]. simpl.
  by destruct (_ && _).
Qed.

(** C5, as stated, fails: with a stray [']'] in the tokens and an unknown
    step in the graph, the bracket check and the step check both fail, and
    the result of [validateGraph] holds the bracket error alone. *)
Lemma validateGraph_reports_one_failure :
  validateBrackets [TCloseBracket] = Throw (UnexpectedCloseBracket 0)
  /\ validateAgents VALID_AGENTS unknownStepGraph
     = Throw (UnknownAgent (Some "deploy"))
  /\ validateGraph VALID_AGENTS unknownStepGraph [TCloseBracket]
     = Return (Invalid (UnexpectedCloseBracket 0))
  /\ ~ reports (validateGraph VALID_AGENTS unknownStepGraph [TCloseBracket])
         (UnknownAgent (Some "deploy")).
Proof. repeat split; try reflexivity. intros H. discriminate H. Qed.

(** [validateGraph] stops at the first check that throws. *)
Lemma validateGraph_first_failure
  (validAgents : list string) (graph : Graph) (tokens : list Token) :
  validateGraph validAgents graph tokens
  = Return
      match firstFailure [validateBrackets tokens;
                          validateAgents validAgents graph;
                          validateConnectivity graph;
                          validateNoCycles graph] with
      | Some e => Invalid e
      | None => Valid
      end.
Proof.
  unfold validateGraph.
  pose proof (validateBrackets_total tokens).
  pose proof (validateAgents_total validAgents graph).
  pose proof (validateConnectivity_total graph).
  pose proof (validateNoCycles_total graph).
  destruct (validateBrackets tokens) as [[]| |]; [|done..].
  destruct (validateAgents validAgents graph) as [[]| |]; [|done..].
  destruct (validateConnectivity graph) as [[]| |]; [|done..].
  destruct (validateNoCycles graph) as [[]| |]; done.
Qed.

(** C5 (amended): [validateGraph] runs the bracket, step, connectivity and
    cycle checks in this order and stops at the first one that fails: its
    result is valid when none of them fails, and otherwise holds the error of
    the first failing check and nothing about the later ones.  The condition
    check only warns. *)
Theorem validateGraph_reports_first_failure
  (validAgents : list string) (graph : Graph) (tokens : list Token) :
  validateGraph validAgents graph tokens
  = Return
      match firstFailure [validateBrackets tokens;
                          validateAgents validAgents graph;
                          validateConnectivity graph;
                          validateNoCycles graph] with
      | Some e => Invalid e
      | None => Valid
      end.
Proof. apply validateGraph_first_failure. Qed.

(** ** Cycles written with step names *)

(** C1, as stated, fails: [a -> b -> a] is not rejected as a cycle.  It is
    valid when the directory knows [a] and [b], it is rejected for the
    unknown step [a] with the directory of the parser guide, and no
    directory makes the result a circular-dependency error. *)
Lemma text_cycle_without_condition_not_rejected :
  compileAndValidate ["a"; "b"] "a -> b -> a" = Return Valid
  /\ compileAndValidate VALID_AGENTS "a -> b -> a"
     = Return (Invalid (UnknownAgent (Some "a")))
  /\ forall validAgents cycle,
       compileAndValidate validAgents "a -> b -> a"
       <> Return (Invalid (CircularDependency cycle)).
Proof.
  split; [reflexivity|]. split; [reflexivity|].
  intros validAgents cycle.
  unfold compileAndValidate.
  change (tokenize "a -> b -> a")
    with (Return [TAgent "a"; TSequential; TAgent "b"; TSequential; TAgent "a"]).
  cbn [mbind Outcome_bind].
  change (buildAST [TAgent "a"; TSequential; TAgent "b"; TSequential; TAgent "a"])
    with (Return (Sequence [Agent "a" None; Agent "b" None; Agent "a" None])).
  cbn [mbind Outcome_bind].
  rewrite validateGraph_first_failure.
  change (validateBrackets [TAgent "a"; TSequential; TAgent "b"; TSequential; TAgent "a"])
    with (Return tt).
  change (validateNoCycles
            (astToGraph (Sequence [Agent "a" None; Agent "b" None; Agent "a" None])))
    with (Return tt).
  change (validateConnectivity
            (astToGraph (Sequence [Agent "a" None; Agent "b" None; Agent "a" None])))
    with (Return tt).
  cbn [firstFailure].
  destruct (validateAgents validAgents _) as [[]|e|] eqn:He; try done.
  intros [= ->]. revert He. unfold validateAgents.
  change (nodes (astToGraph (Sequence [Agent "a" None; Agent "b" None; Agent "a" None])))
    with [mkNode "node-0" AgentNode (Some "a") None None None Pending;
          mkNode "node-1" AgentNode (Some "b") None None None Pending;
          mkNode "node-2" AgentNode (Some "a") None None None Pending].
  simpl. repeat (destruct (existsb _ validAgents); simpl; try done).
Qed.

Lemma includesAgent_In (name : string) (validAgents : list string) :
  In name validAgents -> includesAgent (Some name) validAgents = true.
Proof.
  intros H. simpl. apply existsb_exists. exists name.
  split; [done|apply String.eqb_refl].
Qed.

(** C1 (amended): both texts lower to three distinct nodes in a chain
    [node-0 -> node-1 -> node-2], because the second mention of [a] is a node
    of its own; neither graph has a cycle, and validation accepts both
    whenever the directory knows [a] and [b]. *)
Theorem repeated_step_name_is_a_fresh_node
  (validAgents : list string) (workflow : string) :
  In "a" validAgents -> In "b" validAgents ->
  workflow = "a (if failed)~> b -> a" \/ workflow = "a -> b -> a" ->
  compileAndValidate validAgents workflow = Return Valid
  /\ exists graph,
       compileGraph workflow = Return graph
       /\ List.map id (nodes graph) = ["node-0"; "node-1"; "node-2"]
       /\ List.map agent (nodes graph) = [Some "a"; Some "b"; Some "a"]
       /\ skeleton (edges graph) = [("node-0", "node-1"); ("node-1", "node-2")]
       /\ validateNoCycles graph = Return tt.
Proof.
  intros Ha Hb Hw.
  apply includesAgent_In in Ha, Hb. simpl in Ha, Hb.
  split.
  - destruct Hw as [-> | ->]; unfold compileAndValidate.
    + change (tokenize "a (if failed)~> b -> a")
        with (Return [TAgent "a"; TCondition "(if failed)"; TConditional;
                      TAgent "b"; TSequential; TAgent "a"]).
      cbn [mbind Outcome_bind].
      change (buildAST _)
        with (Return (Conditional (Agent "a" None) "(if failed)"
                        (Sequence [Agent "b" None; Agent "a" None]))).
      cbn [mbind Outcome_bind]. unfold validateGraph, validateAgents.
      change (validateBrackets _) with (Return tt). cbn [mbind Outcome_bind].
      change (nodes (astToGraph _))
        with [mkNode "node-0" AgentNode (Some "a") None None None Pending;
              mkNode "node-1" AgentNode (Some "b") None None None Pending;
              mkNode "node-2" AgentNode (Some "a") None None None Pending].
      simpl validateAgentsLoop. rewrite Ha, Hb. reflexivity.
    + change (tokenize "a -> b -> a")
        with (Return [TAgent "a"; TSequential; TAgent "b"; TSequential; TAgent "a"]).
      cbn [mbind Outcome_bind].
      change (buildAST _)
        with (Return (Sequence [Agent "a" None; Agent "b" None; Agent "a" None])).
      cbn [mbind Outcome_bind]. unfold validateGraph, validateAgents.
      change (validateBrackets _) with (Return tt). cbn [mbind Outcome_bind].
      change (nodes (astToGraph _))
        with [mkNode "node-0" AgentNode (Some "a") None None None Pending;
              mkNode "node-1" AgentNode (Some "b") None None None Pending;
              mkNode "node-2" AgentNode (Some "a") None None None Pending].
      simpl validateAgentsLoop. rewrite Ha, Hb. reflexivity.
  - destruct Hw as [-> | ->]; eexists; (split; [reflexivity|]); by repeat split.
Qed.

Lemma repeated_step_name_is_a_fresh_node_witness :
  compileAndValidate ["a"; "b"] "a (if failed)~> b -> a" = Return Valid
  /\ compileAndValidate ["a"; "b"] "a -> b -> a" = Return Valid.
Proof.
  split.
  - apply (repeated_step_name_is_a_fresh_node ["a"; "b"] "a (if failed)~> b -> a");
      [simpl; tauto|simpl; tauto|by left].
  - apply (repeated_step_name_is_a_fresh_node ["a"; "b"] "a -> b -> a");
      [simpl; tauto|simpl; tauto|by right].
Defined.

(** ** The scheduler *)


Lemma everyOutcome_forallb {A : Type} (f : A -> Outcome bool) (l : list A) (b : bool) :
  everyOutcome f l = Return b ->
  b = forallb (fun a => match f a with Return c => c | _ => false end) l.
Proof.
  induction l as [|a l IH]; simpl; [by intros [= <-]|].
  destruct (f a) as [[]| |]; simpl; try discriminate; [done|by intros [= <-]].
Qed.

(** When [findExecutableNodes] returns, the ready set is made of the pending
    nodes whose incoming edges all have a completed source and a condition,
    if any, that evaluates to true. *)
Lemma findExecutableNodes_ready (JSON_stringify : Output -> string)
  (state : State) (ready : list Node) :
  findExecutableNodes JSON_stringify state = Return ready ->
  ready = List.filter
            (fun node =>
               bool_decide (status node = Pending)
               && forallb (codeEdgeSatisfied JSON_stringify state)
                    (incomingEdges (edges (graph state)) (id node)))
            (nodes (graph state)).
Proof.
  unfold findExecutableNodes.
  assert (H : forall l acc ready,
    foldOutcome
      (fun node ready =>
         if negb (bool_decide (status node = Pending)) then Return ready
         else
           let incoming := incomingEdges (edges (graph state)) (id node) in
           if (length incoming =? 0)%nat then Return (ready ++ [node])
           else
             allSatisfied ← everyOutcome (edgeSatisfied JSON_stringify state) incoming;
             if allSatisfied : bool then Return (ready ++ [node])
             else Return ready) l acc = Return ready ->
    ready = acc ++ List.filter
              (fun node =>
                 bool_decide (status node = Pending)
                 && forallb (codeEdgeSatisfied JSON_stringify state)
                      (incomingEdges (edges (graph state)) (id node))) l).
  { induction l as [|node l IH]; intros acc r.
    - simpl. intros [= <-]. by rewrite app_nil_r.
    - cbn [foldOutcome List.filter].
      destruct (bool_decide (status node = Pending)); cbn [negb andb]; [|apply IH].
      destruct (incomingEdges (edges (graph state)) (id node)) as [|e es] eqn:Hin.
      + cbn [length Nat.eqb forallb mbind Outcome_bind].
        intros Hr. apply IH in Hr. by rewrite <- app_assoc in Hr.
      + cbn [length Nat.eqb].
        destruct (everyOutcome (edgeSatisfied JSON_stringify state) (e :: es))
          as [b| |] eqn:Hevery; cbn [mbind Outcome_bind]; try done.
        apply everyOutcome_forallb in Hevery.
        change (fun a => match edgeSatisfied JSON_stringify state a with
                         | Return c => c | _ => false end)
          with (codeEdgeSatisfied JSON_stringify state) in Hevery.
        rewrite <- Hevery. destruct b.
        * intros Hr. apply IH in Hr. by rewrite <- app_assoc in Hr.
        * apply IH. }
  intros Hr. by apply H in Hr.
Qed.

(** C2 fails on the code at [skippedSourceState]: the source of the only edge
    into [node-1] is skipped, so the specification puts [node-1] in the
    ready set, and [findExecutableNodes] returns no node. *)
Theorem findExecutableNodes_ignores_skipped_source
  (JSON_stringify : Output -> string) :
  findExecutableNodes JSON_stringify skippedSourceState = Return []
  /\ specReadySet JSON_stringify skippedSourceState
     = [mkNode "node-1" AgentNode (Some "test") None None None Pending].
Proof. split; reflexivity. Qed.

(** ** The parallel merge *)






Lemma filter_none {A : Type} (f : A -> bool) (l : list A) :
  (forall x, In x l -> f x = false) -> List.filter f l = [].
Proof.
  induction l as [|x l IH]; intros H; [done|]. simpl.
  rewrite (H x (or_introl eq_refl)). apply IH. intros y Hy. apply H. by right.
Qed.

Lemma filter_all {A : Type} (f : A -> bool) (l : list A) :
  (forall x, In x l -> f x = true) -> List.filter f l = l.
Proof.
  induction l as [|x l IH]; intros H; [done|]. simpl.
  rewrite (H x (or_introl eq_refl)). f_equal. apply IH. intros y Hy. apply H. by right.
Qed.












(** ** The search of [resetFromNode] *)

Section DownstreamSearch.

Variable es : list Edge.
Variable universe : list NodeId.
Hypothesis universe_to : forall e, In e es -> In (to e) universe.

Lemma visitDownstream_spec (fuel : nat) :
  forall nodeId st,
    In nodeId universe ->
    unseen universe (snd st) < fuel ->
    outcomeSpec (downstreamVisited es nodeId st) (fun _ => False)
      (visitDownstream es fuel nodeId st).
Proof.
  induction fuel as [|fuel IH]; intros nodeId [toReset visited] Hu Hfuel; [lia|].
  cbn [fst snd] in *. cbn [visitDownstream fst snd].
  destruct (setHas nodeId visited) eqn:Hhas.
  { apply setHas_In in Hhas. simpl. unfold downstreamVisited. cbn [fst snd].
    split; [done|]. split; [done|]. split; [auto|]. split; [done|].
    intros x. tauto. }
  apply setHas_not_In in Hhas.
  set (f := fun edge s => visitDownstream es fuel (to edge) s).
  set (inv := fun s : list string * list string =>
    (forall x, In x (setAdd nodeId visited) -> In x (snd s))
    /\ (forall x, In x (snd s) -> In x visited \/ rtc (anyEdge es) nodeId x)
    /\ (forall x, In x (snd s) -> ~ In x visited -> x <> nodeId ->
          forall y, anyEdge es x y -> In y (snd s))
    /\ (forall x, In x (fst s) <-> In x toReset \/ (In x (snd s) /\ ~ In x visited))).
  assert (Hloop : forall l s,
    (forall e, In e l -> In e es /\ from e = nodeId) ->
    inv s ->
    outcomeSpec
      (fun s' => inv s'
                 /\ (forall x, In x (snd s) -> In x (snd s'))
                 /\ forall e, In e l -> In (to e) (snd s'))
      (fun _ => False) (foldOutcome f l s)).
  { induction l as [|e l IHl]; intros s Hl Hinv;
      [simpl; split; [done|]; split; [done|]; intros ? []|].
    cbn [foldOutcome].
    destruct (Hl e (or_introl eq_refl)) as [He Hfrom].
    destruct Hinv as (I1 & I2 & I3 & I4).
    pose proof (IH (to e) s (universe_to e He)) as Hcall.
    assert (Hlt : unseen universe (snd s) < fuel).
    { assert (unseen universe (snd s) < unseen universe visited); [|lia].
      apply (unseen_lt _ _ _ nodeId); [|done|done|].
      - intros y Hy. apply I1, in_setAdd. by right.
      - apply I1, in_setAdd. by left. }
    specialize (Hcall Hlt).
    change (f e s) with (visitDownstream es fuel (to e) s).
    destruct (visitDownstream es fuel (to e) s) as [s1| |]; simpl in Hcall |- *;
      try done.
    destruct Hcall as (C1 & C2 & C3 & C4 & C5).
    eapply outcomeSpec_weaken; [apply (IHl s1)| |done].
    - intros e' He'. apply Hl. by right.
    - unfold inv. split; [|split; [|split]].
      + intros x Hx. by apply C1, I1.
      + intros x Hx. destruct (C3 x Hx) as [Hx'|Hx']; [by apply I2|].
        right. eapply rtc_l; [|exact Hx']. by exists e.
      + intros x Hx Hnv Hne y Hxy.
        destruct (in_dec string_dec x (snd s)) as [Hs|Hs].
        * by apply C1, (I3 x).
        * by apply (C4 x).
      + intros x. rewrite C5, I4. split.
        * intros [[?|[? ?]]|[? Hn]]; [by left|right; split; auto|].
          right. split; [done|]. intros Hv. apply Hn, I1, in_setAdd. by right.
        * intros [?|[Hx Hv]]; [left; by left|].
          destruct (in_dec string_dec x (snd s)) as [Hs|Hs];
            [left; right; by split|right; by split].
    - intros s' (Hinv' & Hmono & Hall). split; [done|]. split.
      + intros x Hx. by apply Hmono, C1.
      + intros e' [<-|He']; [by apply Hmono|by apply Hall]. }
  assert (Hinit : inv (setAdd nodeId toReset, setAdd nodeId visited)).
  { unfold inv. cbn [fst snd]. split; [done|]. split; [|split].
    - intros x [->|Hx]%in_setAdd; [right; apply rtc_refl|by left].
    - intros x [->|Hx]%in_setAdd; done.
    - intros x. rewrite !in_setAdd. split.
      + intros [->|?]; [right; split; [by left|done]|by left].
      + intros [?|[[->|?] ?]]; [by right|by left|done]. }
  pose proof (Hloop (outgoingEdges es nodeId) _
                ltac:(intros e; apply in_outgoingEdges) Hinit) as Hl.
  fold f.
  eapply outcomeSpec_weaken; [exact Hl| |done].
  intros s' ((J1 & J2 & J3 & J4) & _ & Hall).
  unfold downstreamVisited. cbn [fst snd].
  split; [intros x Hx; apply J1, in_setAdd; by right|].
  split; [apply J1, in_setAdd; by left|].
  split; [done|]. split; [|done].
  intros x Hx Hnv y Hxy.
  destruct (string_dec x nodeId) as [->|Hne]; [|by apply (J3 x)].
  destruct Hxy as (e & He & Hfrom & <-). apply Hall. by apply in_outgoingEdges.
Qed.

End DownstreamSearch.

(** ** Resetting nodes *)

Lemma withStatus_idem (s : Status) (n : Node) :
  withStatus s (withStatus s n) = withStatus s n.
Proof. done. Qed.

Lemma findNodeIndex_Some (ns : list Node) (x : NodeId) (i : nat) :
  findNodeIndex ns x = Some i ->
  exists n, ns !! i = Some n /\ findNode ns x = Some n
            /\ setStatusAt i Pending ns = pendingFirst x ns.
Proof.
  revert i. induction ns as [|n ns IH]; intros i; [done|]. simpl.
  unfold findNode. simpl. destruct (String.eqb (id n) x) eqn:Heq.
  - intros [= <-]. exists n. by repeat split.
  - destruct (findNodeIndex ns x) as [j|] eqn:Hj; [|done]. intros [= <-].
    destruct (IH j eq_refl) as (m & Hm & Hfind & Hset). exists m.
    split; [done|]. split; [done|].
    unfold setStatusAt in *. simpl. rewrite Hm in *. simpl. by rewrite <- Hset.
Qed.

Lemma findNodeIndex_None (ns : list Node) (x : NodeId) :
  findNodeIndex ns x = None -> findNode ns x = None.
Proof.
  induction ns as [|n ns IH]; [done|]. simpl. unfold findNode. simpl.
  destruct (String.eqb (id n) x); [done|].
  destruct (findNodeIndex ns x); [done|]. intros _. by apply IH.
Qed.

Lemma resetOne_unfold (x : NodeId) (state : State) :
  resetOne x state =
  if isResettable (nodes (graph state)) x then
    mkState (workflow state)
      (mkGraph (pendingFirst x (nodes (graph state))) (edges (graph state)))
      (mkExecution (current (execution state))
         (List.filter (fun cid => negb (String.eqb cid x)) (completed (execution state)))
         (List.filter (fun fid => negb (String.eqb fid x)) (failed (execution state)))
         (skipped (execution state))
         (delete x (outputs (execution state))))
      (steering state)
  else state.
Proof.
  unfold resetOne, isResettable.
  destruct (findNodeIndex (nodes (graph state)) x) as [i|] eqn:Hi.
  - destruct (findNodeIndex_Some _ _ _ Hi) as (n & Hn & -> & Hset).
    rewrite Hn. destruct (negb _); [|done]. by rewrite Hset.
  - by rewrite (findNodeIndex_None _ _ Hi).
Qed.

Lemma findNode_pendingFirst (x y : NodeId) (ns : list Node) :
  findNode (pendingFirst x ns) y =
  if String.eqb y x then withStatus Pending <$> findNode ns y else findNode ns y.
Proof.
  unfold findNode. induction ns as [|n ns IH]; simpl; [by destruct (String.eqb y x)|].
  destruct (String.eqb_spec (id n) x) as [Hx|Hx]; simpl.
  - destruct (String.eqb_spec y x) as [->|Hy].
    + by rewrite Hx, String.eqb_refl.
    + rewrite Hx. by rewrite (proj2 (String.eqb_neq x y)) by done.
  - rewrite IH. destruct (String.eqb_spec (id n) y) as [<-|Hy]; [|done].
    by rewrite (proj2 (String.eqb_neq (id n) x)) by done.
Qed.

Lemma map_id_pendingFirst (x : NodeId) (ns : list Node) :
  List.map id (pendingFirst x ns) = List.map id ns.
Proof.
  induction ns as [|n ns IH]; [done|]. simpl.
  destruct (String.eqb (id n) x); simpl; [done|]. by rewrite IH.
Qed.

Lemma lookup_pendingFirst (x : NodeId) (ns : list Node) (i : nat) (n : Node) :
  ns !! i = Some n ->
  pendingFirst x ns !! i = Some n
  \/ (pendingFirst x ns !! i = Some (withStatus Pending n) /\ id n = x
      /\ findNode ns x = Some n).
Proof.
  revert i. induction ns as [|m ns IH]; intros i; [done|]. simpl.
  unfold findNode. simpl.
  destruct (String.eqb_spec (id m) x) as [Hx|Hx].
  - destruct i as [|i]; simpl; [|by left]. intros [= ->]. right. by repeat split.
  - destruct i as [|i]; simpl; [by left|]. intros Hn.
    destruct (IH i Hn) as [?|(? & ? & ?)]; [by left|right; by repeat split].
Qed.

Lemma isResettable_pendingFirst (x y : NodeId) (ns : list Node) :
  isResettable (pendingFirst x ns) y = isResettable ns y.
Proof.
  unfold isResettable. rewrite findNode_pendingFirst.
  destruct (String.eqb y x); [|done]. by destruct (findNode ns y).
Qed.

Lemma isResettable_resetOne (x y : NodeId) (state : State) :
  isResettable (nodes (graph (resetOne x state))) y
  = isResettable (nodes (graph state)) y.
Proof.
  rewrite resetOne_unfold. destruct (isResettable (nodes (graph state)) x); [|done].
  apply isResettable_pendingFirst.
Qed.

Lemma in_filter_ne (x y : NodeId) (l : list NodeId) :
  In y (List.filter (fun c => negb (String.eqb c x)) l) <-> In y l /\ y <> x.
Proof. by rewrite filter_In, negb_true_iff, String.eqb_neq. Qed.

Lemma resetAll_spec (toReset : list NodeId) :
  forall state,
    regionReset (fun y => In y toReset) state (resetAll toReset state).
Proof.
  induction toReset as [|x toReset IH]; intros state.
  - unfold resetAll, regionReset. simpl. repeat split; try tauto; try done.
    all: try (by intros y []); try (intros i n Hn; by left).
  - change (resetAll (x :: toReset) state)
      with (resetAll toReset (resetOne x state)).
    specialize (IH (resetOne x state)).
    unfold regionReset in *.
    pose proof (isResettable_resetOne x) as Hres.
    revert IH. rewrite resetOne_unfold.
    destruct (isResettable (nodes (graph state)) x) eqn:Hx.
    + pose proof (isResettable_pendingFirst x) as Hres1.
      cbn [graph nodes edges execution completed failed skipped current outputs workflow].
      intros (A1 & A2 & A3 & A4 & A5 & A6 & A7 & A8).
      cbn [graph nodes edges execution completed failed skipped current outputs workflow]
        in A1, A2, A3, A4, A5, A6, A7, A8.
      split; [|split; [|split; [|split; [|by repeat split]]]].
      * intros y Hy Hry.
        destruct (in_dec string_dec y toReset) as [Hin|Hnin].
        -- destruct (A1 y Hin ltac:(by rewrite Hres1)) as (B1 & B2 & B3 & B4).
           split; [|by repeat split].
           rewrite B1, findNode_pendingFirst.
           destruct (String.eqb y x); [|done].
           by destruct (findNode (nodes (graph state)) y).
        -- destruct Hy as [<-|Hy]; [|done].
           destruct (A2 x ltac:(intros [? _]; done)) as (B1 & B2 & B3 & B4).
           rewrite B1, B2, B3, B4, findNode_pendingFirst, String.eqb_refl,
             lookup_delete_eq, !in_filter_ne.
           split; [done|]. split; [done|]. split; by intros [_ ?].
      * intros y Hy.
        assert (Hny : ~ (In y toReset
                         /\ isResettable (pendingFirst x (nodes (graph state))) y = true)).
        { intros [? ?]. apply Hy. split; [by right|by rewrite <- Hres1]. }
        destruct (A2 y Hny) as (B1 & B2 & B3 & B4).
        assert (Hne : y <> x).
        { intros ->. apply Hy. split; [by left|done]. }
        rewrite B1, B2, B3, B4, findNode_pendingFirst, !in_filter_ne.
        rewrite (proj2 (String.eqb_neq y x) Hne), lookup_delete_ne by done.
        repeat split; tauto.
      * intros i n Hn.
        destruct (lookup_pendingFirst x _ i n Hn) as [H1|(H1 & Hid & Hfind)].
        -- destruct (A3 i n H1) as [?|(? & ? & ?)]; [by left|right].
           split; [done|]. split; [by right|done].
        -- right. assert (Htype : type n <> CheckpointNode).
           { unfold isResettable in Hx. rewrite Hfind in Hx.
             apply negb_true_iff, bool_decide_eq_false in Hx. done. }
           destruct (A3 i _ H1) as [?|(? & ? & ?)];
             (split; [done|split; [by left|done]]).
      * by rewrite A4, map_id_pendingFirst.
    + intros (A1 & A2 & A3 & A4 & A5 & A6 & A7 & A8).
      split; [|split; [|split; [|by repeat split]]].
      * intros y [<-|Hy] Hry; [congruence|]. by apply A1.
      * intros y Hy. apply A2. intros [? ?]. apply Hy. split; [by right|done].
      * intros i n Hn. destruct (A3 i n Hn) as [?|(? & ? & ?)]; [by left|right].
        split; [done|]. split; [by right|done].
Qed.

Lemma regionReset_ext (P Q : NodeId -> Prop) (state state' : State) :
  (forall y, P y <-> Q y) -> regionReset P state state' -> regionReset Q state state'.
Proof.
  intros Heq (A1 & A2 & A3 & A4). unfold regionReset.
  split; [intros y Hy; apply A1; by apply Heq|].
  split; [intros y Hy; apply A2; intros [? ?]; apply Hy; split; [by apply Heq|done]|].
  split; [|done].
  intros i n Hn. destruct (A3 i n Hn) as [?|(? & ? & ?)]; [by left|right].
  split; [done|]. split; [by apply Heq|done].
Qed.

(** [resetFromNode] returns, and it has reset the nodes that can be reached
    from [node] along the edges of the graph, conditioned or not. *)
Lemma resetFromNode_spec (node : Node) (state : State) :
  exists state',
    resetFromNode node state = Return state'
    /\ regionReset (fun y => rtc (anyEdge (edges (graph state))) (id node) y)
         state state'.
Proof.
  unfold resetFromNode.
  pose proof (visitDownstream_spec (edges (graph state))
                (id node :: idUniverse (graph state))
                ltac:(intros e He; right; by apply idUniverse_to)
                (S (length (idUniverse (graph state)) + 1)) (id node)
                ([id node], []) ltac:(by left)) as H.
  cbn [snd] in H.
  pose proof (unseen_bound (id node :: idUniverse (graph state)) []) as Hb.
  simpl length in Hb. specialize (H ltac:(lia)).
  destruct (visitDownstream _ _ _ _) as [[toReset visited]| |]; simpl in H; try done.
  cbn [mbind Outcome_bind fst]. eexists. split; [reflexivity|].
  fold (resetAll toReset state).
  destruct H as (_ & H2 & H3 & H4 & H5). cbn [fst snd] in *.
  eapply regionReset_ext; [|apply resetAll_spec].
  assert (Hvis : forall y, In y visited <-> rtc (anyEdge (edges (graph state))) (id node) y).
  { intros y. split.
    - intros Hy. by destruct (H3 y Hy).
    - assert (Hclosed : forall a b, rtc (anyEdge (edges (graph state))) a b ->
                                    In a visited -> In b visited).
      { induction 1 as [|a b c Hab _ IH]; [done|].
        intros Ha. apply IH. exact (H4 a Ha (fun h => h) b Hab). }
      intros Hr. by apply (Hclosed (id node)). }
  intros y. cbn beta. rewrite H5, <- Hvis. split.
  - intros [[Heq|[]]|[? _]]; [by rewrite <- Heq|done].
  - intros Hy. right. split; [done|intros []].
Qed.

(** C6, as stated, fails: after a jump to the completed step [plan], the
    checkpoint [@review], which can be reached from it, is still completed
    and still listed as completed. *)
Lemma jump_leaves_checkpoint_completed :
  exists state',
    processJump (Some "plan") checkpointDownstreamState
    = Return (JumpDone "node-0", state')
    /\ rtc (anyEdge (edges (graph checkpointDownstreamState))) "node-0" "node-1"
    /\ status <$> findNode (nodes (graph state')) "node-1" = Some Completed
    /\ In "node-1" (completed (execution state')).
Proof.
  eexists. split; [vm_compute; reflexivity|]. split.
  - apply rtc_once. exists (mkEdge "node-0" "node-1" None). simpl. tauto.
  - split; [reflexivity|]. simpl. tauto.
Qed.

(** C6 (amended): a jump always returns.  When no jump target has the
    selected label it fails and changes nothing.  Otherwise it moves the
    position to the target and resets the region that can be reached from
    the target: every node of the region that is not a checkpoint becomes
    pending, loses its stored output and leaves the completed and failed
    lists; the checkpoints of the region and every node outside it keep
    their status, their output and their place in the lists. *)
Theorem jump_resets_downstream_steps (selectedLabel : option string) (state : State) :
  exists res state',
    processJump selectedLabel state = Return (res, state')
    /\ match res with
       | JumpFailed _ =>
           state' = state
           /\ forall n, In n (getJumpTargets state) -> displayName n <> selectedLabel
       | JumpDone target =>
           (exists targetNode,
              In targetNode (getJumpTargets state)
              /\ displayName targetNode = selectedLabel
              /\ id targetNode = target)
           /\ regionReset
                (fun y => rtc (anyEdge (edges (graph state))) target y) state state'
           /\ position (steering state') = Some target
           /\ paused (steering state') = false
       end.
Proof.
  unfold processJump.
  destruct (List.find _ (getJumpTargets state)) as [targetNode|] eqn:Hfind.
  - apply find_some in Hfind as [Hin Hname]. apply bool_decide_eq_true in Hname.
    destruct (resetFromNode_spec targetNode state) as (state1 & -> & Hreset).
    cbn [mbind Outcome_bind]. do 2 eexists. split; [reflexivity|].
    split; [by exists targetNode|]. split; [exact Hreset|done].
  - do 2 eexists. split; [reflexivity|]. split; [done|].
    intros n Hn. pose proof (find_none _ _ Hfind n Hn) as H.
    by apply bool_decide_eq_false in H.
Qed.

(** The same jump in full: [plan] and [build] are reset, the checkpoint and
    the unrelated step [docs] are not. *)
Example jump_to_plan :
  exists state',
    processJump (Some "plan") checkpointDownstreamState
    = Return (JumpDone "node-0", state')
    /\ List.map status (nodes (graph state')) = [Pending; Completed; Pending; Completed]
    /\ outputs (execution state') !! "node-0" = None
    /\ outputs (execution state') !! "node-2" = None
    /\ outputs (execution state') !! "node-3"
       = outputs (execution checkpointDownstreamState) !! "node-3"
    /\ completed (execution state') = ["node-1"; "node-3"].
Proof. eexists. split; [vm_compute; reflexivity|]. by repeat split. Qed.

(** ** Variable interpolation *)

Lemma readWhile_stop (keep : ascii -> bool) (a b : string) (c : ascii) :
  keep c = false ->
  readWhile keep (a +:+ String c b)
  = (fst (readWhile keep a), snd (readWhile keep a) +:+ String c b).
Proof.
  intros Hc. induction a as [|x a IH].
  - rewrite string_app_nil_l. simpl. by rewrite Hc.
  - rewrite string_app_cons. simpl. destruct (keep x); [|done].
    rewrite IH. by destruct (readWhile keep a).
Qed.

Lemma readWhile_split (keep : ascii -> bool) (s : string) :
  s = fst (readWhile keep s) +:+ snd (readWhile keep s).
Proof.
  induction s as [|x s IH]; [done|]. simpl. destruct (keep x); [|done].
  destruct (readWhile keep s) as [w r]. simpl in *. by rewrite string_app_cons, <- IH.
Qed.

Lemma readWhile_kept (keep : ascii -> bool) (s : string) :
  allChars keep (fst (readWhile keep s)) = true.
Proof.
  induction s as [|x s IH]; [done|]. simpl. destruct (keep x) eqn:Hx; [|done].
  destruct (readWhile keep s) as [w r]. simpl in *. by rewrite Hx, IH.
Qed.

Lemma readWhile_word_prefix (name rest : string) (c : ascii) :
  allChars isWordChar name = true -> isWordChar c = false ->
  readWhile isWordChar (name +:+ String c rest) = (name, String c rest).
Proof.
  intros Hn Hc. rewrite (readWhile_stop _ _ _ _ Hc).
  by rewrite (readWhile_all _ _ Hn).
Qed.

Lemma replacePlaceholder_total (variables : Variables) (w : string) :
  replacePlaceholder variables w <> OutOfFuel.
Proof.
  unfold replacePlaceholder, hasOwn.
  destruct (getOwn "hasOwnProperty" variables); [done|]. cbn [mbind Outcome_bind].
  destruct (getOwn w variables) as [[| | |]|]; done.
Qed.

Lemma replaceAll_total (variables : Variables) (fuel : nat) :
  forall s, String.length s < fuel -> replaceAll variables fuel s <> OutOfFuel.
Proof.
  induction fuel as [|fuel IH]; intros s Hlen; [lia|].
  destruct s as [|c rest]; [done|]. cbn [replaceAll]. simpl in Hlen.
  pose proof (readWhile_length isWordChar rest) as Hr.
  destruct (readWhile isWordChar rest) as [name after]. cbn [snd] in Hr.
  pose proof (dropOne_length after).
  destruct (_ && _).
  - assert (Hp : replacePlaceholder variables name <> OutOfFuel).
    { apply replacePlaceholder_total. }
    destruct (replacePlaceholder variables name); simpl; try done.
    pose proof (IH (dropOne after) ltac:(lia)).
    by destruct (replaceAll variables fuel (dropOne after)).
  - pose proof (IH rest ltac:(lia)).
    by destruct (replaceAll variables fuel rest).
Qed.


(** The fuel does not matter once it exceeds the length of the text. *)
Lemma replaceAll_fuel (variables : Variables) (fuel fuel' : nat) :
  forall s, String.length s < fuel -> String.length s < fuel' ->
    replaceAll variables fuel s = replaceAll variables fuel' s.
Proof.
  revert fuel'. induction fuel as [|fuel IH]; intros [|fuel'] s H1 H2; try lia.
  destruct s as [|c rest]; [done|]. cbn [replaceAll]. simpl in H1, H2.
  pose proof (readWhile_length isWordChar rest) as Hr.
  destruct (readWhile isWordChar rest) as [name after]. cbn [snd] in Hr.
  pose proof (dropOne_length after).
  destruct (_ && _).
  - by rewrite (IH fuel' (dropOne after)) by lia.
  - by rewrite (IH fuel' rest) by lia.
Qed.

Lemma interpolateVariables_replaceAll (s : string) (variables : Variables) (fuel : nat) :
  String.length s < fuel ->
  interpolateVariables (Some s) variables
  = (r ← replaceAll variables fuel s; Return (Some r)).
Proof.
  intros Hfuel. unfold interpolateVariables.
  destruct s as [|c s]; [destruct fuel; [simpl in Hfuel; lia|done]|].
  cbn [String.eqb]. by rewrite (replaceAll_fuel _ _ fuel) by (simpl in *; lia).
Qed.

Lemma replaceAll_app_placeholder (variables : Variables) (name after : string)
  (fuel : nat) :
  name <> EmptyString -> allChars isWordChar name = true ->
  forall before fuel0 b,
    replaceAll variables fuel0 before = Return b ->
    String.length (before +:+ String "{" (name +:+ String "}" after)) < fuel ->
    replaceAll variables fuel (before +:+ String "{" (name +:+ String "}" after))
    = (text ← replacePlaceholder variables name;
       a ← replaceAll variables (S (String.length after)) after;
       Return (b +:+ text +:+ a)).
Proof.
  intros Hne Hword.
  remember (replaceAll variables (S (String.length after)) after) as ra eqn:Hra.
  induction fuel as [|fuel IH]; intros before fuel0 b Hbefore Hlen; [lia|].
  destruct before as [|c before].
  - destruct fuel0; [done|]. injection Hbefore as <-.
    rewrite string_app_nil_l in *. cbn [replaceAll]. simpl in Hlen.
    rewrite (readWhile_word_prefix name after "}" Hword eq_refl).
    rewrite (proj2 (String.eqb_neq name EmptyString) Hne).
    cbn [Ascii.eqb Bool.eqb andb negb nextIs dropOne].
    destruct (replacePlaceholder variables name) as [text| |];
      cbn [mbind Outcome_bind]; try done.
    rewrite string_app_length in Hlen. simpl in Hlen.
    by rewrite (replaceAll_fuel _ fuel (S (String.length after))), <- Hra by lia.
  - destruct fuel0 as [|fuel0]; [done|].
    rewrite string_app_cons in *. cbn [replaceAll] in Hbefore |- *. simpl in Hlen.
    rewrite (readWhile_stop isWordChar before (name +:+ String "}" after) "{" eq_refl).
    set (target := String "{" (name +:+ String "}" after)) in *.
    pose proof (readWhile_split isWordChar before) as Hsplit.
    destruct (readWhile isWordChar before) as [w r]. cbn [fst snd] in *.
    assert (Hnext : nextIs "}" (r +:+ target) = nextIs "}" r) by (by destruct r).
    rewrite Hnext. destruct (_ && _) eqn:Hmatch.
    + destruct (replacePlaceholder variables w) as [tw| |]; simpl in Hbefore |- *;
        try done.
      destruct (replaceAll variables fuel0 (dropOne r)) as [tail| |] eqn:Htail;
        simpl in Hbefore; try done.
      injection Hbefore as <-.
      apply andb_prop in Hmatch as [_ Hr].
      destruct r as [|x r]; [discriminate|].
      rewrite string_app_cons. cbn [dropOne] in *.
      rewrite (IH r fuel0 tail Htail).
      * destruct (replacePlaceholder variables name); cbn [mbind Outcome_bind]; try done.
        destruct ra; cbn [mbind Outcome_bind]; try done.
        by rewrite !string_app_assoc.
      * assert (Hb : String.length before = String.length w + S (String.length r))
          by (by rewrite Hsplit, string_app_length).
        rewrite string_app_length in Hlen |- *. lia.
    + destruct (replaceAll variables fuel0 before) as [tail| |] eqn:Htail;
        simpl in Hbefore; try done.
      injection Hbefore as <-.
      rewrite (IH before fuel0 tail Htail) by lia.
      destruct (replacePlaceholder variables name); cbn [mbind Outcome_bind]; try done.
      by destruct ra.
Qed.

(** An error of the replacement is the error of one of the placeholders of
    the instruction. *)
Lemma replaceAll_throw_placeholder (variables : Variables) (fuel : nat) :
  forall s e,
    replaceAll variables fuel s = Throw e ->
    exists w, hasPlaceholder s w /\ replacePlaceholder variables w = Throw e.
Proof.
  induction fuel as [|fuel IH]; intros s e; [done|].
  destruct s as [|c rest]; [done|]. cbn [replaceAll].
  pose proof (readWhile_split isWordChar rest) as Hsplit.
  pose proof (readWhile_kept isWordChar rest) as Hkept.
  destruct (readWhile isWordChar rest) as [w after]. cbn [fst snd] in *.
  destruct (_ && _) eqn:Hmatch.
  - apply andb_prop in Hmatch as [[Hc Hw]%andb_prop Hnext].
    apply Ascii.eqb_eq in Hc. subst c.
    apply negb_true_iff, String.eqb_neq in Hw.
    destruct after as [|x after]; [discriminate|]. unfold nextIs in Hnext.
    apply Ascii.eqb_eq in Hnext. subst x. cbn [dropOne].
    destruct (replacePlaceholder variables w) as [text|e'|] eqn:Hrep; simpl;
      [|intros [= <-]|done].
    + destruct (replaceAll variables fuel after) as [tail|e'|] eqn:Htail; simpl;
        try done.
      intros [= <-]. destruct (IH _ _ Htail) as (w' & (H1 & H2 & b & a & ->) & H3).
      exists w'. split; [|done]. split; [done|]. split; [done|].
      exists (String "{" (w +:+ String "}" b)), a. subst rest.
      by rewrite string_app_cons, string_app_assoc, string_app_cons.
    + exists w. split; [|done]. split; [done|]. split; [done|].
      exists EmptyString, after. by rewrite string_app_nil_l, Hsplit.
  - destruct (replaceAll variables fuel rest) as [tail|e'|] eqn:Htail; simpl;
      try done.
    intros [= <-]. destruct (IH _ _ Htail) as (w' & (H1 & H2 & b & a & ->) & H3).
    exists w'. split; [|done]. split; [done|]. split; [done|].
    exists (String c b), a. by rewrite string_app_cons.
Qed.

Lemma interpolateVariables_total (instr : option string) (variables : Variables) :
  interpolateVariables instr variables <> OutOfFuel.
Proof.
  destruct instr as [s|]; [|done]. unfold interpolateVariables.
  destruct (String.eqb s EmptyString); [done|].
  pose proof (replaceAll_total variables (S (String.length s)) s ltac:(lia)).
  by destruct (replaceAll variables (S (String.length s)) s).
Qed.


(** What the callback does for one placeholder. *)
Lemma replacePlaceholder_cases (variables : Variables) (w : string) :
  (getOwn "hasOwnProperty" variables <> None
   /\ replacePlaceholder variables w = Throw notAFunction)
  \/ (inheritsHasOwnProperty variables
      /\ getOwn w variables = None
      /\ replacePlaceholder variables w
         = Throw (UnknownVariable w (objectKeys variables)))
  \/ (inheritsHasOwnProperty variables
      /\ (getOwn w variables = Some VNull \/ getOwn w variables = Some VUndefined)
      /\ replacePlaceholder variables w = Throw (NoValueYet w))
  \/ (inheritsHasOwnProperty variables
      /\ exists str,
           (getOwn w variables = Some (VString str)
            \/ getOwn w variables = Some (VOther str))
           /\ replacePlaceholder variables w = Return (truncateValue str)).
Proof.
  unfold replacePlaceholder, hasOwn, inheritsHasOwnProperty.
  destruct (getOwn "hasOwnProperty" variables) as [v|]; [by left|right].
  cbn [mbind Outcome_bind].
  destruct (getOwn w variables) as [[| |str|json]|].
  - right. left. rewrite bool_decide_eq_true_2 by done. split; [done|]. split; [by left|done].
  - right. left. rewrite bool_decide_eq_true_2 by done. split; [done|]. split; [by right|done].
  - right. right. rewrite bool_decide_eq_true_2 by done. split; [done|].
    exists str. split; [by left|done].
  - right. right. rewrite bool_decide_eq_true_2 by done. split; [done|].
    exists json. split; [by right|done].
  - left. rewrite bool_decide_eq_false_2 by (intros H; by apply H). done.
Qed.




(** A text with a placeholder that cannot be replaced has a leftmost one:
    the text to its left can be interpolated. *)
Lemma leftmost_failing (variables : Variables) (n : nat) :
  forall left w right e0,
    String.length left <= n ->
    w <> EmptyString -> allChars isWordChar w = true ->
    replacePlaceholder variables w = Throw e0 ->
    exists left' w' right' text e,
      left +:+ String "{" (w +:+ String "}" right)
      = left' +:+ String "{" (w' +:+ String "}" right')
      /\ w' <> EmptyString /\ allChars isWordChar w' = true
      /\ replaceAll variables (S (String.length left')) left' = Return text
      /\ replacePlaceholder variables w' = Throw e.
Proof.
  induction n as [|n IH]; intros left w right e0 Hlen Hne Hword Hfail.
  - destruct left; [|simpl in Hlen; lia].
    exists EmptyString, w, right, EmptyString, e0. by repeat split.
  - pose proof (replaceAll_total variables (S (String.length left)) left
                  (Nat.lt_succ_diag_r _)) as Htot.
    destruct (replaceAll variables (S (String.length left)) left) as [text|e|] eqn:Hleft;
      [|clear Htot|done].
    { exists left, w, right, text, e0. by repeat split. }
    destruct (replaceAll_throw_placeholder _ _ _ _ Hleft)
      as (w1 & (Hne1 & Hword1 & b & a & ->) & Hfail1).
    assert (Hlen1 : String.length b <= n).
    { rewrite string_app_length in Hlen. simpl in Hlen. lia. }
    destruct (IH b w1 (a +:+ String "{" (w +:+ String "}" right)) e Hlen1 Hne1 Hword1
                Hfail1)
      as (left' & w' & right' & text & e' & Heq & H1 & H2 & H3 & H4).
    exists left', w', right', text, e'. split; [|done].
    rewrite <- Heq.
    by rewrite string_app_assoc, string_app_cons, string_app_assoc, string_app_cons.
Qed.

(** A store with a variable named [hasOwnProperty]: the error is the one of
    the call [variables.hasOwnProperty], and does not name [bugs] either. *)
Example interpolate_with_hasOwnProperty_variable :
  interpolateVariables (Some "fix {bugs}") [("hasOwnProperty", VString "yes")]
  = Throw notAFunction
  /\ variableErrorMessage notAFunction = "variables.hasOwnProperty is not a function".
Proof. by split. Qed.



(** The example of the specification. *)
Example interpolate_bugs_never_captured :
  interpolateVariables (Some "fix {bugs}") [("fixed", VString "done")]
  = Throw (UnknownVariable "bugs" ["fixed"])
  /\ variableErrorMessage (UnknownVariable "bugs" ["fixed"])
     = "Unknown variable '{bugs}' in instruction. Available variables: fixed".
Proof. split; reflexivity. Qed.

Example interpolate_bugs_captured :
  interpolateVariables (Some "fix {bugs}") [("bugs", VString "3 issues")]
  = Return (Some "fix 3 issues").
Proof. reflexivity. Qed.

(** ** More about variable interpolation *)


(** A text without any placeholder is returned as it is. *)
Lemma replaceAll_no_placeholder (variables : Variables) (fuel : nat) :
  forall s, String.length s < fuel ->
    (forall name, ~ hasPlaceholder s name) ->
    replaceAll variables fuel s = Return s.
Proof.
  induction fuel as [|fuel IH]; intros s Hlen Hnone; [lia|].
  destruct s as [|c rest]; [done|]. cbn [replaceAll]. simpl in Hlen.
  pose proof (readWhile_split isWordChar rest) as Hsplit.
  pose proof (readWhile_kept isWordChar rest) as Hkept.
  destruct (readWhile isWordChar rest) as [name after]. cbn [fst snd] in *.
  destruct (_ && _) eqn:Hmatch.
  - exfalso. apply andb_prop in Hmatch as [[Hc Hw]%andb_prop Hnext].
    apply Ascii.eqb_eq in Hc. subst c.
    apply negb_true_iff, String.eqb_neq in Hw.
    destruct after as [|x after]; [discriminate|]. unfold nextIs in Hnext.
    apply Ascii.eqb_eq in Hnext. subst x.
    apply (Hnone name). split; [done|]. split; [done|].
    exists EmptyString, after. by rewrite string_app_nil_l, Hsplit.
  - rewrite IH; [done|lia|].
    intros w (H1 & H2 & b & a & ->). apply (Hnone w).
    split; [done|]. split; [done|]. exists (String c b), a.
    by rewrite string_app_cons.
Qed.

(** Every placeholder of [s] is met by the scan. *)
Lemma hasPlaceholder_placeholdersLoop (name after : string) (fuel : nat) :
  name <> EmptyString -> allChars isWordChar name = true ->
  forall before,
    String.length (before +:+ String "{" (name +:+ String "}" after)) < fuel ->
    In name (placeholdersLoop fuel (before +:+ String "{" (name +:+ String "}" after))).
Proof.
  intros Hne Hword.
  induction fuel as [|fuel IH]; intros before Hlen; [lia|].
  destruct before as [|c before].
  - rewrite string_app_nil_l. cbn [placeholdersLoop].
    rewrite (readWhile_word_prefix name after "}" Hword eq_refl).
    rewrite (proj2 (String.eqb_neq name EmptyString) Hne). cbn. by left.
  - rewrite string_app_cons in *. cbn [placeholdersLoop]. simpl in Hlen.
    rewrite (readWhile_stop isWordChar before (name +:+ String "}" after) "{" eq_refl).
    set (target := String "{" (name +:+ String "}" after)) in *.
    pose proof (readWhile_split isWordChar before) as Hsplit.
    destruct (readWhile isWordChar before) as [w r]. cbn [fst snd] in *.
    destruct (_ && _) eqn:Hmatch.
    + right. apply andb_prop in Hmatch as [_ Hnext].
      destruct r as [|x r]; [subst target; simpl in Hnext; discriminate|].
      rewrite string_app_cons. cbn [dropOne]. apply IH.
      assert (Hb : String.length before = String.length w + S (String.length r))
        by (by rewrite Hsplit, string_app_length).
      rewrite string_app_length in Hlen |- *. lia.
    + apply IH. lia.
Qed.

Lemma hasPlaceholder_placeholders (s name : string) :
  hasPlaceholder s name -> In name (placeholders s).
Proof.
  intros (Hne & Hword & before & after & ->).
  apply hasPlaceholder_placeholdersLoop; [done|done|lia].
Qed.

(** X2: an instruction in which no placeholder occurs is returned unchanged,
    whatever the store holds. *)
Theorem interpolateVariables_without_placeholder
  (instr : string) (variables : Variables) :
  (forall name, ~ hasPlaceholder instr name) ->
  interpolateVariables (Some instr) variables = Return (Some instr).
Proof.
  intros Hnone.
  rewrite (interpolateVariables_replaceAll _ _ (S (String.length instr)))
    by apply Nat.lt_succ_diag_r.
  by rewrite replaceAll_no_placeholder by (done || apply Nat.lt_succ_diag_r).
Qed.

Lemma interpolateVariables_without_placeholder_witness :
  interpolateVariables (Some "run the {unit tests}, then stop")
    [("tests", VString "all")]
  = Return (Some "run the {unit tests}, then stop").
Proof.
  apply (interpolateVariables_without_placeholder
           "run the {unit tests}, then stop" [("tests", VString "all")]).
  intros name Hname. exact (hasPlaceholder_placeholders _ _ Hname).
Defined.





(** ** Temporary agents *)

Lemma missingOf_inherited (variables : Variables) (vars : list string) :
  inheritsHasOwnProperty variables ->
  missingOf variables vars
  = Return (List.filter
              (fun w => match getOwn w variables with
                        | None | Some VNull => true
                        | _ => false
                        end) vars).
Proof.
  intros Hown. induction vars as [|v vars IH]; [done|].
  cbn [missingOf List.filter]. rewrite IH. unfold isMissing, hasOwn.
  rewrite Hown. cbn [mbind Outcome_bind].
  by destruct (getOwn v variables) as [[| | |]|].
Qed.

Lemma missingOf_throws (variables : Variables) (v : string) (vars : list string) :
  getOwn "hasOwnProperty" variables <> None ->
  missingOf variables (v :: vars) = Throw notAFunction.
Proof.
  intros Hown. cbn [missingOf]. unfold isMissing, hasOwn.
  by destruct (getOwn "hasOwnProperty" variables).
Qed.

Lemma checkNodeVariableDependencies_ready (node : TempNode) (variables : Variables)
  (vars : list string) (w : string) :
  checkNodeVariableDependencies node variables = Return Ready ->
  templateVars node = Some vars -> In w vars ->
  inheritsHasOwnProperty variables
  /\ exists v, getOwn w variables = Some v /\ v <> VNull.
Proof.
  unfold checkNodeVariableDependencies. intros Hready Htv Hw. rewrite Htv in Hready.
  destruct vars as [|v0 vars]; [done|]. cbn [length Nat.eqb] in Hready.
  destruct (getOwn "hasOwnProperty" variables) as [own|] eqn:Hown.
  { rewrite missingOf_throws in Hready by congruence. done. }
  split; [done|].
  rewrite (missingOf_inherited variables (v0 :: vars) Hown) in Hready.
  cbn [mbind Outcome_bind] in Hready.
  set (pred := fun w => match getOwn w variables with
                        | None | Some VNull => true
                        | _ => false
                        end) in *.
  destruct (List.filter pred (v0 :: vars)) as [|m ms] eqn:Hf; [|done].
  destruct (pred w) eqn:Hm.
  - assert (In w (List.filter pred (v0 :: vars))) by (by apply filter_In).
    by rewrite Hf in *.
  - unfold pred in Hm. destruct (getOwn w variables) as [[| | |]|]; try done;
      eexists; by split.
Qed.

(** X4: when the template variables of a node list the placeholders of its
    instruction and the dependency check finds the node ready, preparing the
    instruction gives the interpolated text, unless a placeholder's variable
    holds [undefined]: the dependency check compares with [null] only, so
    that case reaches the interpolation, whose error is reported as a
    failure to prepare the instruction. *)
Theorem prepareNodeInstruction_after_dependency_check
  (node : TempNode) (variables : Variables) (s : string) :
  instruction (base node) = Some s ->
  s <> EmptyString ->
  (forall w, hasPlaceholder s w ->
     exists vars, templateVars node = Some vars /\ In w vars) ->
  checkNodeVariableDependencies node variables = Return Ready ->
  (exists r,
     prepareNodeInstruction node variables = Normal (Some r)
     /\ interpolateVariables (Some s) variables = Return (Some r))
  \/ (exists w,
        hasPlaceholder s w
        /\ getOwn w variables = Some VUndefined
        /\ prepareNodeInstruction node variables
           = Abrupt ("Failed to prepare instruction for node '" +:+ id (base node)
                     +:+ "': " +:+ "Variable '" +:+ w +:+
                     "' is referenced but has no value yet. " +:+
                     "Make sure the agent that produces this variable runs first.")).
Proof.
  intros Hinstr Hne Hvars Hready.
  unfold prepareNodeInstruction. rewrite Hinstr, Hready.
  rewrite (proj2 (String.eqb_neq s EmptyString) Hne).
  pose proof (interpolateVariables_total (Some s) variables) as Htot.
  destruct (interpolateVariables (Some s) variables) as [r|e|] eqn:Hr; [| |done].
  - left. revert Hr. unfold interpolateVariables.
    rewrite (proj2 (String.eqb_neq s EmptyString) Hne).
    destruct (replaceAll variables _ s) as [r'| |]; cbn [mbind Outcome_bind]; try done.
    intros [= <-]. by exists r'.
  - right. revert Hr. unfold interpolateVariables.
    rewrite (proj2 (String.eqb_neq s EmptyString) Hne).
    destruct (replaceAll variables _ s) as [r'|e'|] eqn:Hrep;
      cbn [mbind Outcome_bind]; try done.
    intros [= ->].
    destruct (replaceAll_throw_placeholder _ _ _ _ Hrep) as (w & Hw & Hthrow).
    exists w. split; [done|].
    destruct (Hvars w Hw) as (vars & Htv & Hin).
    destruct (checkNodeVariableDependencies_ready _ _ _ _ Hready Htv Hin)
      as (Hown & v & Hv & Hnull).
    destruct (replacePlaceholder_cases variables w)
      as [[H _]|[(_ & H & _)|[(_ & [H|H] & Hrep')|(_ & str & _ & Hrep')]]];
      try congruence.
    rewrite Hrep' in Hthrow. injection Hthrow as <-. done.
Qed.

Lemma prepareNodeInstruction_after_dependency_check_witness :
  let node :=
    mkTempNode
      (mkNode "node-1" AgentNode (Some "fixer") (Some "fix {bugs}") None None Pending)
      (Some ["bugs"]) None None None in
  (exists r,
     prepareNodeInstruction node [("bugs", VUndefined)] = Normal (Some r)
     /\ interpolateVariables (Some "fix {bugs}") [("bugs", VUndefined)]
        = Return (Some r))
  \/ (exists w,
        hasPlaceholder "fix {bugs}" w
        /\ getOwn w [("bugs", VUndefined)] = Some VUndefined
        /\ prepareNodeInstruction node [("bugs", VUndefined)]
           = Abrupt ("Failed to prepare instruction for node '" +:+ id (base node)
                     +:+ "': " +:+ "Variable '" +:+ w +:+
                     "' is referenced but has no value yet. " +:+
                     "Make sure the agent that produces this variable runs first.")).
Proof.
  intros node.
  apply (prepareNodeInstruction_after_dependency_check node
           [("bugs", VUndefined)] "fix {bugs}"); try reflexivity; [discriminate|].
  intros w Hw. exists ["bugs"]. split; [reflexivity|].
  exact (hasPlaceholder_placeholders _ _ Hw).
Defined.

(** *** Capturing an output *)









(** In a store with a variable named [hasOwnProperty], the first placeholder
    makes the interpolation throw. *)
Lemma interpolateVariables_not_a_function (variables : Variables) (instr w : string) :
  getOwn "hasOwnProperty" variables <> None ->
  hasPlaceholder instr w ->
  interpolateVariables (Some instr) variables = Throw notAFunction.
Proof.
  intros Hown (Hnew & Hword & before & after & ->).
  assert (Hfail : forall w', replacePlaceholder variables w' = Throw notAFunction).
  { intros w'. unfold replacePlaceholder, hasOwn.
    by destruct (getOwn "hasOwnProperty" variables). }
  destruct (leftmost_failing variables (String.length before) before w after notAFunction
              (Nat.le_refl _) Hnew Hword (Hfail w))
    as (left & w' & right & text & e & Heq & Hnew' & Hword' & Hleft & Hthrow).
  rewrite Heq.
  rewrite (interpolateVariables_replaceAll _ _
             (S (String.length (left +:+ String "{" (w' +:+ String "}" right)))))
    by lia.
  rewrite (replaceAll_app_placeholder variables w' right _ Hnew' Hword' left _ text Hleft)
    by lia.
  by rewrite Hfail.
Qed.



(** *** [validateTempAgentGraph] *)

Lemma mapPush_keys (k k' : string) (x : NodeId) (m : list (string * list NodeId)) :
  In k' (List.map fst (mapPush k x m)) <-> k' = k \/ In k' (List.map fst m).
Proof.
  induction m as [|[k0 xs] rest IH]; simpl.
  - split; [intros [<-|[]]; by left|intros [->|[]]; by left].
  - destruct (String.eqb k0 k) eqn:Hk; simpl.
    + apply String.eqb_eq in Hk. subst k0. intuition congruence.
    + rewrite IH. intuition congruence.
Qed.

Lemma varDeps_keys_vars (nodeId : NodeId) (vars : list string)
  (m : list (string * list NodeId)) (k : string) :
  In k (List.map fst (fold_left (fun m varName => mapPush varName nodeId m) vars m))
  <-> In k vars \/ In k (List.map fst m).
Proof.
  revert m. induction vars as [|v vars IH]; intros m; simpl; [intuition congruence|].
  rewrite IH, mapPush_keys. intuition congruence.
Qed.

Lemma varDepsOf_keys (ns : list TempNode) (k : string) :
  In k (List.map fst (varDepsOf ns))
  <-> exists node vars, In node ns /\ templateVars node = Some vars /\ In k vars.
Proof.
  unfold varDepsOf.
  assert (H : forall m,
    In k (List.map fst
            (fold_left
               (fun m node =>
                  match templateVars node with
                  | Some vars =>
                      fold_left (fun m varName => mapPush varName (id (base node)) m) vars m
                  | None => m
                  end) ns m))
    <-> (exists node vars, In node ns /\ templateVars node = Some vars /\ In k vars)
        \/ In k (List.map fst m)).
  { induction ns as [|n ns IH]; intros m; simpl.
    - split; [by right|]. by intros [(? & ? & [] & _)|].
    - rewrite IH. destruct (templateVars n) as [vars|] eqn:Hvars.
      + rewrite varDeps_keys_vars. split.
        * intros [(node & vs & Hin & Htv & Hk)|[Hk|Hk]].
          -- left. exists node, vs. by repeat split; [right| |].
          -- left. exists n, vars. by repeat split; [left| |].
          -- by right.
        * intros [(node & vs & [<-|Hin] & Htv & Hk)|Hk].
          -- right. left. congruence.
          -- left. by exists node, vs.
          -- right. by right.
      + split.
        * intros [(node & vs & Hin & Htv & Hk)|Hk]; [|by right].
          left. exists node, vs. by repeat split; [right| |].
        * intros [(node & vs & [<-|Hin] & Htv & Hk)|Hk]; [congruence| |by right].
          left. by exists node, vs. }
  rewrite H. simpl. split; [by intros [|[]]|by left].
Qed.

Lemma producedVarsOf_In (ns : list TempNode) (v : string) :
  In v (producedVarsOf ns)
  <-> v <> EmptyString /\ exists n, In n ns /\ outputVar n = Some v.
Proof.
  unfold producedVarsOf. induction ns as [|n ns IH]; simpl.
  - split; [done|]. by intros (_ & ? & [] & _).
  - unfold producesSomething at 1.
    destruct (outputVar n) as [name|] eqn:Hout.
    + destruct (String.eqb name EmptyString) eqn:Hname; simpl.
      * apply String.eqb_eq in Hname. subst name. rewrite IH. split.
        -- intros (Hv & m & Hm & Hmv). split; [done|]. exists m. by split; [right|].
        -- intros (Hv & m & [<-|Hm] & Hmv); [congruence|]. split; [done|]. by exists m.
      * apply String.eqb_neq in Hname. rewrite Hout. simpl. rewrite IH. split.
        -- intros [<-|(Hv & m & Hm & Hmv)].
           ++ split; [done|]. exists n. by split; [left|].
           ++ split; [done|]. exists m. by split; [right|].
        -- intros (Hv & m & [<-|Hm] & Hmv).
           ++ left. congruence.
           ++ right. split; [done|]. by exists m.
    + rewrite IH. split.
      * intros (Hv & m & Hm & Hmv). split; [done|]. exists m. by split; [right|].
      * intros (Hv & m & [<-|Hm] & Hmv); [congruence|]. split; [done|]. by exists m.
Qed.

Lemma producerIndex_spec (ns : list TempNode) (v : string) (i : nat) :
  producerIndex v ns = Some i <-> firstProducer ns v i.
Proof.
  unfold firstProducer. revert i. induction ns as [|n ns IH]; intros i; simpl.
  - split; [done|]. by intros [(? & ? & _) _].
  - destruct (bool_decide (outputVar n = Some v)) eqn:Hn.
    + apply bool_decide_eq_true in Hn. split.
      * intros [= <-]. split; [by exists n|intros; lia].
      * intros [_ Hfirst]. destruct i as [|i]; [done|].
        exfalso. by apply (Hfirst 0 n); [lia| |].
    + apply bool_decide_eq_false in Hn.
      destruct i as [|i].
      * split.
        -- by destruct (producerIndex v ns).
        -- intros [(m & [= <-] & Hm) _]. done.
      * split.
        -- destruct (producerIndex v ns) as [j|] eqn:Hj; [|done].
           intros [= <-]. destruct (proj1 (IH j) eq_refl) as [Hex Hfirst].
           split; [done|].
           intros [|k] m Hk; simpl; [by intros [= <-]|].
           apply Hfirst. lia.
        -- intros [Hex Hfirst].
           assert (Hi : producerIndex v ns = Some i).
           { apply IH. split; [done|]. intros k m Hk Hm.
             apply (Hfirst (S k) m); [lia|done]. }
           by rewrite Hi.
Qed.

Lemma producerIndex_None (ns : list TempNode) (v : string) :
  producerIndex v ns = None <-> forall n, In n ns -> outputVar n <> Some v.
Proof.
  induction ns as [|n ns IH]; simpl; [done|].
  destruct (bool_decide (outputVar n = Some v)) eqn:Hn.
  - apply bool_decide_eq_true in Hn. split; [done|]. intros H. exfalso.
    by apply (H n); [left|].
  - apply bool_decide_eq_false in Hn.
    destruct (producerIndex v ns); simpl.
    + split; [done|]. intros H. exfalso. destruct IH as [_ IH].
      discriminate IH. intros m Hm. apply H. by right.
    + split; [|done]. intros _ m [<-|Hm]; [done|]. by apply IH.
Qed.

Lemma flat_map_nil {A B : Type} (f : A -> list B) (l : list A) :
  flat_map f l = [] <-> forall x, In x l -> f x = [].
Proof.
  induction l as [|a l IH]; simpl; [done|].
  split.
  - intros [Ha Hl]%app_eq_nil x [<-|Hx]; [done|]. by apply IH.
  - intros H. rewrite (H a) by (by left). apply IH. intros x Hx. apply H. by right.
Qed.

Lemma concat_imap_nil {A B : Type} (f : nat -> A -> list B) (l : list A) :
  List.concat (imap f l) = [] <-> forall j x, l !! j = Some x -> f j x = [].
Proof.
  revert f. induction l as [|a l IH]; intros f; simpl; [done|].
  split.
  - intros [Ha Hl]%app_eq_nil [|j] x; simpl; [by intros [= <-]|].
    apply (IH (f ∘ S)). exact Hl.
  - intros H. rewrite (H 0 a) by done. simpl. apply (IH (f ∘ S)).
    intros j x Hx. by apply (H (S j)).
Qed.

(** X6: [validateTempAgentGraph] accepts a graph that uses temporary agents
    exactly when every variable a node reads has a non-empty name and the
    first node of [graph.nodes] that produces it stands before that node;
    a graph without temporary agents is accepted as it is. *)
Theorem validateTempAgentGraph_valid_iff (graph : TempGraph) :
  valid (validateTempAgentGraph graph) = true
  <-> tempAgents graph = false
      \/ forall j node vars varName,
           tempNodes graph !! j = Some node ->
           templateVars node = Some vars ->
           In varName vars ->
           varName <> EmptyString
           /\ exists i, i < j /\ firstProducer (tempNodes graph) varName i.
Proof.
  unfold validateTempAgentGraph.
  destruct (tempAgents graph); cbn [negb]; [|split; [by left|done]].
  set (ns := tempNodes graph). cbn [valid].
  rewrite Nat.eqb_eq, length_zero_iff_nil.
  split.
  - intros [H1 H2]%app_eq_nil. right. intros j node vars v Hj Hvars Hv.
    assert (Hprod : In v (producedVarsOf ns)).
    { rewrite flat_map_nil in H1.
      assert (Hkey : In v (List.map fst (varDepsOf ns))).
      { apply varDepsOf_keys. exists node, vars. split; [|done].
        apply list_elem_of_In. by eapply list_elem_of_lookup_2. }
      apply in_map_iff in Hkey as (entry & <- & Hentry).
      specialize (H1 entry Hentry).
      destruct (existsb _ (producedVarsOf ns)) eqn:Hex; [|done].
      apply existsb_exists in Hex as (p & Hp & Heq).
      apply String.eqb_eq in Heq. by subst p. }
    apply producedVarsOf_In in Hprod as (Hne & n & Hn & Hout).
    split; [done|].
    destruct (producerIndex v ns) as [i|] eqn:Hi.
    + exists i. split; [|by apply producerIndex_spec].
      rewrite concat_imap_nil in H2. specialize (H2 j node Hj).
      unfold orderErrorsOf in H2. rewrite Hvars in H2.
      rewrite flat_map_nil in H2. specialize (H2 v Hv). rewrite Hi in H2.
      destruct (j <=? i)%nat eqn:Hji; [done|]. apply Nat.leb_gt in Hji. lia.
    + exfalso. by apply (proj1 (producerIndex_None ns v) Hi n).
  - intros [|Hall]; [done|].
    match goal with |- ?a ++ ?b = [] => cut (a = [] /\ b = []) end;
      [by intros [-> ->]|]. split.
    + apply flat_map_nil. intros entry Hentry.
      assert (Hkey : In (fst entry) (List.map fst (varDepsOf ns)))
        by (by apply in_map).
      apply varDepsOf_keys in Hkey as (node & vars & Hnode & Hvars & Hv).
      apply list_elem_of_In, list_elem_of_lookup_1 in Hnode as [j Hj].
      destruct (Hall j node vars _ Hj Hvars Hv) as (Hne & i & _ & (n & Hn & Hout) & _).
      assert (Hp : In (fst entry) (producedVarsOf ns)).
      { apply producedVarsOf_In. split; [done|]. exists n. split; [|done].
        apply list_elem_of_In. by eapply list_elem_of_lookup_2. }
      assert (existsb (String.eqb (fst entry)) (producedVarsOf ns) = true) as ->; [|done].
      apply existsb_exists. exists (fst entry). split; [done|apply String.eqb_refl].
    + apply concat_imap_nil. intros j node Hj.
      unfold orderErrorsOf. destruct (templateVars node) as [vars|] eqn:Hvars; [|done].
      apply flat_map_nil. intros v Hv.
      destruct (Hall j node vars v Hj Hvars Hv) as (_ & i & Hij & Hfirst).
      apply producerIndex_spec in Hfirst. rewrite Hfirst.
      destruct (j <=? i)%nat eqn:Hji; [|done]. apply Nat.leb_le in Hji. lia.
Qed.


(** ** More about the parser *)

Lemma hasSubgraph_appendStep (left right : AST) :
  hasSubgraph left = false -> hasSubgraph right = false ->
  hasSubgraph (appendStep left right) = false.
Proof.
  intros Hl Hr. unfold appendStep.
  destruct left; cbn [hasSubgraph existsb] in *; rewrite ?Hr, ?Hl; try done.
  by rewrite existsb_app, Hl; cbn [existsb]; rewrite Hr.
Qed.

Lemma hasSubgraph_appendBranch (left right : AST) :
  hasSubgraph left = false -> hasSubgraph right = false ->
  hasSubgraph (appendBranch left right) = false.
Proof.
  intros Hl Hr. unfold appendBranch.
  destruct left; cbn [hasSubgraph existsb] in *; rewrite ?Hr, ?Hl; try done.
  by rewrite existsb_app, Hl; cbn [existsb]; rewrite Hr.
Qed.

Section NoSubgraph.

Variable tokens : list Token.

(** What the three parsing functions return, when they return: a leaf for
    [parsePrimary], which leaves no way to return a subgraph; and at
    precedence 0 the loop stops only at the end of the tokens. *)
Lemma parse_returns (fuel : nat) :
  (forall position r,
      parsePrimary tokens fuel position = Return r ->
      exists s, tokens !! position = Some (stepToken s)
                /\ r = (stepAST s, S position))
  /\ (forall precedence left position r,
      hasSubgraph left = false ->
      parseLoop tokens fuel precedence left position = Return r ->
      hasSubgraph (fst r) = false
      /\ (precedence = 0 -> tokens !! snd r = None))
  /\ (forall precedence position r,
      parseExpression tokens fuel precedence position = Return r ->
      hasSubgraph (fst r) = false
      /\ (precedence = 0 -> tokens !! snd r = None)).
Proof.
  induction fuel as [|fuel (IHP & IHL & IHE)]; [by repeat split|].
  assert (HP : forall position r,
      parsePrimary tokens (S fuel) position = Return r ->
      exists s, tokens !! position = Some (stepToken s)
                /\ r = (stepAST s, S position)).
  { intros position r. cbn [parsePrimary].
    destruct (tokens !! position) as [token|]; [|done].
    destruct token; try done.
    - intros [= <-]. by exists (StepAgent value).
    - intros [= <-]. by exists (StepCheckpoint value).
    - destruct (parseExpression tokens fuel 0 (S position)) as [r1| |] eqn:Hr1;
        cbn [mbind Outcome_bind]; try done.
      destruct (IHE 0 (S position) r1 Hr1) as [_ Hend]. by rewrite (Hend eq_refl).
    - intros [= <-]. by exists (StepWithInstruction agent0 instruction0). }
  split; [exact HP|]. split.
  - intros precedence left position r Hleft. cbn [parseLoop].
    destruct (tokens !! position) as [token|] eqn:Htoken.
    2:{ intros [= <-]. by split. }
    destruct (getOperatorPrecedence token <? precedence) eqn:Hprec.
    { intros [= <-]. split; [done|]. intros ->. by apply Nat.ltb_lt in Hprec; lia. }
    destruct token; try (by apply IHL).
    + destruct (parseExpression tokens fuel _ (S position)) as [r1| |] eqn:Hr1;
        cbn [mbind Outcome_bind]; try done.
      destruct (IHE _ _ _ Hr1) as [Hsub _].
      apply IHL. by apply hasSubgraph_appendStep.
    + destruct (parseExpression tokens fuel _ (S position)) as [r1| |] eqn:Hr1;
        cbn [mbind Outcome_bind]; try done.
      destruct (IHE _ _ _ Hr1) as [Hsub _].
      apply IHL. by apply hasSubgraph_appendBranch.
    + destruct (parseExpression tokens fuel _ (S position)) as [r1| |] eqn:Hr1;
        cbn [mbind Outcome_bind]; try done.
      destruct (IHE _ _ _ Hr1) as [Hsub _].
      apply IHL. cbn [hasSubgraph]. by rewrite Hleft, Hsub.
  - intros precedence position r. cbn [parseExpression].
    destruct (parsePrimary tokens fuel position) as [r1| |] eqn:Hr1;
      cbn [mbind Outcome_bind]; try done.
    destruct (IHP _ _ Hr1) as (s & _ & ->). cbn [fst snd].
    apply IHL. by destruct s.
Qed.

End NoSubgraph.

(** X7: [buildAST] never returns an AST with a subgraph node, and it rejects
    every token list that begins with an opening bracket: the expression
    inside the brackets is parsed at precedence 0, where the loop of
    [parseExpression] also consumes the closing bracket, so the check that
    follows never finds it. *)
Theorem buildAST_never_builds_subgraph (tokens : list Token) :
  (forall ast, buildAST tokens = Return ast -> hasSubgraph ast = false)
  /\ exists e, buildAST (TOpenBracket :: tokens) = Throw e.
Proof.
  split.
  - intros ast. unfold buildAST.
    destruct (parseExpression tokens _ 0 0) as [r| |] eqn:Hr;
      cbn [mbind Outcome_bind]; try done.
    intros [= <-]. by destruct (proj2 (proj2 (parse_returns tokens _)) _ _ _ Hr).
  - pose proof (buildAST_total (TOpenBracket :: tokens)) as Htotal.
    destruct (buildAST (TOpenBracket :: tokens)) as [ast|e|] eqn:Hb;
      [|by exists e|done].
    exfalso. revert Hb. unfold buildAST.
    destruct (parseExpression _ _ 0 0) as [r| |] eqn:Hr;
      cbn [mbind Outcome_bind]; try done.
    intros _. revert Hr.
    generalize (2 * length (TOpenBracket :: tokens) + 2). intros [|fuel]; [done|].
    cbn [parseExpression].
    destruct (parsePrimary _ fuel 0) as [r1| |] eqn:Hr1; cbn [mbind Outcome_bind];
      try done.
    destruct (proj1 (parse_returns _ fuel) _ _ Hr1) as (s & Hs & _).
    by destruct s.
Qed.

Section TrailingTokens.

Variable tokens junk : list Token.
Hypothesis junk_no_operator : forallb (fun t => negb (isOperator t)) junk = true.

Let total : list Token := tokens ++ junk.

(** Two positions that the parser cannot tell apart: the same position, or
    two positions after the tokens of the workflow. *)
Let alike (p p' : nat) : Prop :=
  p = p' \/ (length tokens <= p /\ length tokens <= p').

Lemma junk_lookup (position : nat) (t : Token) :
  length tokens <= position -> total !! position = Some t -> isOperator t = false.
Proof.
  intros Hpos Ht. unfold total in Ht. rewrite lookup_app_r in Ht by done.
  apply list_elem_of_lookup_2, list_elem_of_In in Ht.
  pose proof (proj1 (forallb_forall _ junk) junk_no_operator t Ht) as H.
  by apply negb_true_iff in H.
Qed.

(** After the tokens of the workflow the loop skips whatever follows. *)
Lemma parseLoop_skips (fuel : nat) :
  forall precedence left position,
    length tokens <= position ->
    length total - position < fuel ->
    exists p', parseLoop total fuel precedence left position = Return (left, p')
               /\ length tokens <= p'.
Proof.
  induction fuel as [|fuel IH]; intros precedence left position Hpos Hfuel; [lia|].
  cbn [parseLoop].
  destruct (total !! position) as [t|] eqn:Ht; [|by exists position].
  destruct (getOperatorPrecedence t <? precedence); [by exists position|].
  pose proof (junk_lookup _ _ Hpos Ht) as Hop.
  apply lookup_lt_Some in Ht.
  destruct t; try discriminate Hop; (apply IH; lia).
Qed.

Lemma parse_with_trailing (fuel : nat) :
  forall bigger, fuel + length junk + 1 <= bigger ->
  (forall position r,
      parsePrimary tokens fuel position = Return r ->
      parsePrimary total bigger position = Return r)
  /\ (forall precedence left position position' a p,
      alike position position' ->
      parseLoop tokens fuel precedence left position = Return (a, p) ->
      exists p', parseLoop total bigger precedence left position' = Return (a, p')
                 /\ alike p p')
  /\ (forall precedence position a p,
      parseExpression tokens fuel precedence position = Return (a, p) ->
      exists p', parseExpression total bigger precedence position = Return (a, p')
                 /\ alike p p').
Proof.
  induction fuel as [|fuel IH]; intros bigger Hbigger; [by repeat split|].
  destruct bigger as [|bigger]; [lia|].
  destruct (IH bigger ltac:(lia)) as (IHP & IHL & IHE).
  split; [|split].
  - intros position r Hr.
    destruct (proj1 (parse_returns tokens (S fuel)) _ _ Hr) as (s & Hs & ->).
    cbn [parsePrimary]. unfold total.
    rewrite lookup_app_l by (by eapply lookup_lt_Some). rewrite Hs. by destruct s.
  - intros precedence left position position' a p Halike. cbn [parseLoop].
    destruct (tokens !! position) as [t|] eqn:Ht.
    + apply lookup_lt_Some in Ht as Hlt.
      destruct Halike as [<-|[? _]]; [|lia].
      unfold total at 1. rewrite lookup_app_l, Ht by done.
      destruct (getOperatorPrecedence t <? precedence).
      { intros [= <- <-]. exists position. split; [done|by left]. }
      assert (Hcond : findCondition total (S position - 2)
                      = findCondition tokens (S position - 2)).
      { unfold findCondition, total. by rewrite lookup_app_l by lia. }
      destruct t; try (apply IHL; by left).
      * destruct (parseExpression tokens fuel _ (S position)) as [[a1 p1]| |] eqn:H1;
          cbn [mbind Outcome_bind]; try done.
        destruct (IHE _ _ _ _ H1) as (p1' & -> & Hp1). cbn [mbind Outcome_bind fst snd].
        by apply IHL.
      * destruct (parseExpression tokens fuel _ (S position)) as [[a1 p1]| |] eqn:H1;
          cbn [mbind Outcome_bind]; try done.
        destruct (IHE _ _ _ _ H1) as (p1' & -> & Hp1). cbn [mbind Outcome_bind fst snd].
        by apply IHL.
      * destruct (parseExpression tokens fuel _ (S position)) as [[a1 p1]| |] eqn:H1;
          cbn [mbind Outcome_bind]; try done.
        destruct (IHE _ _ _ _ H1) as (p1' & -> & Hp1). cbn [mbind Outcome_bind fst snd].
        rewrite Hcond. by apply IHL.
    + intros [= <- <-]. apply lookup_ge_None in Ht.
      assert (Hpos' : length tokens <= position') by (destruct Halike as [<-|[]]; lia).
      destruct (parseLoop_skips (S bigger) precedence left position' Hpos')
        as (p' & Hp' & Hge).
      { unfold total. rewrite length_app. lia. }
      exists p'. split; [exact Hp'|]. right. lia.
  - intros precedence position a p. cbn [parseExpression].
    destruct (parsePrimary tokens fuel position) as [[a1 p1]| |] eqn:H1;
      cbn [mbind Outcome_bind]; try done.
    rewrite (IHP _ _ H1). cbn [mbind Outcome_bind fst snd].
    apply IHL. by left.
Qed.

Lemma buildAST_with_trailing (ast : AST) :
  buildAST tokens = Return ast -> buildAST total = Return ast.
Proof.
  destruct (Nat.eq_dec (length junk) 0) as [Hnil|Hjunk].
  { apply length_zero_iff_nil in Hnil. unfold total. by rewrite Hnil, app_nil_r. }
  unfold buildAST.
  destruct (parseExpression tokens _ 0 0) as [[a p]| |] eqn:Hr;
    cbn [mbind Outcome_bind]; try done.
  intros [= <-].
  destruct (proj2 (proj2 (parse_with_trailing (2 * length tokens + 2) (2 * length total + 2)
                            ltac:(unfold total; rewrite length_app; lia)))
              _ _ _ _ Hr) as (p' & -> & _).
  done.
Qed.

End TrailingTokens.

(** X8: tokens that follow a complete workflow and are not operators do not
    change what [buildAST] returns: a step whose arrow is missing is dropped
    without any error. *)
Theorem buildAST_ignores_trailing_tokens (tokens junk : list Token) (ast : AST) :
  forallb (fun t => negb (isOperator t)) junk = true ->
  buildAST tokens = Return ast ->
  buildAST (tokens ++ junk) = Return ast.
Proof. intros Hjunk. by apply buildAST_with_trailing. Qed.

Lemma buildAST_ignores_trailing_tokens_witness :
  buildAST ([TAgent "explore"; TSequential; TAgent "plan"]
            ++ [TAgent "review"; TCloseBracket; TCheckpoint "@gate"])
  = Return (Sequence [Agent "explore" None; Agent "plan" None]).
Proof.
  apply (buildAST_ignores_trailing_tokens
           [TAgent "explore"; TSequential; TAgent "plan"]
           [TAgent "review"; TCloseBracket; TCheckpoint "@gate"]);
    reflexivity.
Defined.

(** ** A step with an instruction *)

Lemma allChars_app (p : ascii -> bool) (a b : string) :
  allChars p (a +:+ b) = allChars p a && allChars p b.
Proof.
  induction a as [|c a IH]; [done|]. rewrite string_app_cons. simpl.
  by rewrite IH, andb_assoc.
Qed.

Lemma tokenize_step_with_instruction (name body : string) :
  allChars nameChar name = true ->
  allChars (fun c => negb (Ascii.eqb c "034")) body = true ->
  tokenize (name +:+ ":" +:+ String "034" (body +:+ String "034" EmptyString))
  = Return [TAgentWithInstruction (name +:+ ":") body].
Proof.
  intros Hname Hbody. unfold tokenize.
  rewrite <- (string_app_assoc name ":").
  assert (Hplain : allChars nameChar (name +:+ ":") = true).
  { by rewrite allChars_app, Hname. }
  rewrite string_app_length.
  replace (S (String.length (name +:+ ":") +
              String.length (String "034" (body +:+ String "034" EmptyString))))
    with (String.length (name +:+ ":") + S (S (String.length body + 1))).
  2:{ cbn [String.length]. rewrite !string_app_length. simpl. lia. }
  rewrite tokenizeLoop_name by done.
  cbn [tokenizeLoop string_app_nil_l]. rewrite string_app_nil_l.
  cbn [Ascii.eqb Bool.eqb andb nextIs negb isSpace].
  rewrite (readWhile_stop _ body EmptyString "034" eq_refl).
  rewrite (readWhile_all _ _ Hbody). cbn [dropOne].
  rewrite Nat.add_comm. cbn [plus tokenizeLoop].
  rewrite trim_no_space by (by apply noSpace_of_name). done.
Qed.

Lemma app_colon_neq (name s : string) :
  allChars (fun c => negb (Ascii.eqb c ":")) s = true -> name +:+ ":" <> s.
Proof.
  revert s. induction name as [|c name IH]; intros s Hs Heq.
  - subst s. discriminate Hs.
  - rewrite string_app_cons in Heq. subst s. simpl in Hs.
    apply andb_prop in Hs as [_ Hs]. by apply (IH _ Hs).
Qed.

(** X9: a step written [name:"instruction"], for a name whose characters
    are [nameChar]s (neither white space nor a character that starts an
    operator, a bracket, a condition, a checkpoint or a quotation), is
    tokenized with the colon as the last character of the agent name.  The
    agent check of
    [validateGraph] therefore looks [name:] up, and with the directory of
    the parser guide, none of whose names ends in a colon, such a step is
    always an unknown agent. *)
Theorem step_with_instruction_keeps_colon
  (name body : string) (validAgents : list string) :
  allChars nameChar name = true ->
  allChars (fun c => negb (Ascii.eqb c "034")) body = true ->
  let workflow := name +:+ ":" +:+ String "034" (body +:+ String "034" EmptyString) in
  tokenize workflow = Return [TAgentWithInstruction (name +:+ ":") body]
  /\ compileAndValidate validAgents workflow
     = Return (if existsb (String.eqb (name +:+ ":")) validAgents then Valid
               else Invalid (UnknownAgent (Some (name +:+ ":"))))
  /\ compileAndValidate VALID_AGENTS workflow
     = Return (Invalid (UnknownAgent (Some (name +:+ ":")))).
Proof.
  intros Hname Hbody workflow. subst workflow.
  pose proof (tokenize_step_with_instruction name body Hname Hbody) as Htok.
  assert (Hany : forall agents,
    compileAndValidate agents
      (name +:+ ":" +:+ String "034" (body +:+ String "034" EmptyString))
    = Return (if existsb (String.eqb (name +:+ ":")) agents then Valid
              else Invalid (UnknownAgent (Some (name +:+ ":"))))).
  { intros agents. unfold compileAndValidate. rewrite Htok. cbn [mbind Outcome_bind].
    change (buildAST [TAgentWithInstruction (name +:+ ":") body])
      with (Return (Agent (name +:+ ":") (Some body))).
    cbn [mbind Outcome_bind].
    change (astToGraph (Agent (name +:+ ":") (Some body)))
      with (mkGraph [mkNode "node-0" AgentNode (Some (name +:+ ":")) (Some body)
                       None None Pending] []).
    unfold validateGraph, validateAgents.
    cbn [validateBrackets validateBracketsLoop mbind Outcome_bind Z.ltb Z.compare
         nodes validateAgentsLoop type agent includesAgent].
    rewrite bool_decide_eq_true_2 by done. cbn [andb].
    destruct (existsb (String.eqb (name +:+ ":")) agents); cbn [negb]; [|done].
    reflexivity. }
  split; [exact Htok|]. split; [apply Hany|].
  rewrite Hany.
  assert (existsb (String.eqb (name +:+ ":")) VALID_AGENTS = false) as ->; [|done].
  apply not_true_is_false. intros (a & Ha & Heq)%existsb_exists.
  apply String.eqb_eq in Heq. revert Heq. apply app_colon_neq.
  unfold VALID_AGENTS in Ha. simpl in Ha.
  destruct Ha as [<-|[<-|[<-|[<-|[<-|[]]]]]]; reflexivity.
Qed.

Lemma step_with_instruction_keeps_colon_witness :
  let workflow :=
    "general-purpose" +:+ ":" +:+ String "034" ("find the bug" +:+ String "034" EmptyString) in
  tokenize workflow = Return [TAgentWithInstruction ("general-purpose" +:+ ":") "find the bug"]
  /\ compileAndValidate ["general-purpose"] workflow
     = Return (if existsb (String.eqb ("general-purpose" +:+ ":")) ["general-purpose"] then Valid
               else Invalid (UnknownAgent (Some ("general-purpose" +:+ ":"))))
  /\ compileAndValidate VALID_AGENTS workflow
     = Return (Invalid (UnknownAgent (Some ("general-purpose" +:+ ":")))).
Proof.
  apply (step_with_instruction_keeps_colon "general-purpose" "find the bug" ["general-purpose"]);
    reflexivity.
Defined.

(** ** The shape of a lowered graph *)

Lemma lowered_parentOk (n : nat) (p : option NodeId) (st : Lowering)
  (res : option NodeId * Lowering) :
  lowered n p st res -> parentOk p st -> parentOk (fst res) (snd res).
Proof.
  unfold lowered, parentOk. intros (Hc & _ & Hz & Hf) Hp x Hx.
  destruct (Nat.eq_dec n 0) as [->|Hn].
  - rewrite (Hz eq_refl) in Hx. eapply idBetween_weaken; [by apply Hp|lia..].
  - destruct (Hf Hn) as (r & Hr & Hb). rewrite Hr in Hx. injection Hx as <-.
    eapply idBetween_weaken; [exact Hb|lia..].
Qed.

Lemma forward_linkFrom (p : option NodeId) (st : Lowering) (n : Node) :
  parentOk p st ->
  Forall forwardPair (skeleton (lEdges st)) ->
  Forall forwardPair
    (skeleton (lEdges (linkFrom p (nodeIdOf (nodeIdCounter st))
                         (pushNode n (snd (generateId st)))))).
Proof.
  intros Hp Hst. destruct p as [x|]; [|done].
  cbn. rewrite skeleton_app. apply Forall_app. split; [done|].
  constructor; [|done].
  destruct (Hp x eq_refl) as (j & Hj & ->).
  exists j, (nodeIdCounter st). split; [lia|done].
Qed.

Lemma processSteps_forward (steps : list AST) :
  Forall (fun a => forall p st, parentOk p st ->
            Forall forwardPair (skeleton (lEdges st)) ->
            Forall forwardPair (skeleton (lEdges (snd (processNode a p st))))) steps ->
  forall p st, parentOk p st ->
    Forall forwardPair (skeleton (lEdges st)) ->
    Forall forwardPair (skeleton (lEdges (snd (processSteps steps p st)))).
Proof.
  induction 1 as [|x steps Hx _ IH]; intros p st Hp Hst; [done|].
  cbn [processSteps].
  pose proof (processNode_lowered x p st) as Hlow.
  specialize (Hx p st Hp Hst).
  destruct (processNode x p st) as [r1 st1]. apply IH; [|done].
  by apply (lowered_parentOk _ _ _ _ Hlow).
Qed.

Lemma processBranches_forward (entryId : NodeId) (branches : list AST) :
  Forall (fun a => forall p st, parentOk p st ->
            Forall forwardPair (skeleton (lEdges st)) ->
            Forall forwardPair (skeleton (lEdges (snd (processNode a p st))))) branches ->
  forall exits st, parentOk (Some entryId) st ->
    Forall forwardPair (skeleton (lEdges st)) ->
    Forall forwardPair
      (skeleton (lEdges (snd (processBranches entryId branches exits st)))).
Proof.
  induction 1 as [|b branches Hb _ IH]; intros exits st Hp Hst; [done|].
  cbn [processBranches].
  pose proof (processNode_lowered b (Some entryId) st) as Hlow.
  specialize (Hb (Some entryId) st Hp Hst).
  destruct (processNode b (Some entryId) st) as [e st1]. apply IH; [|done].
  intros x [= <-]. destruct Hlow as (Hc & _). cbn [snd] in Hc.
  eapply idBetween_weaken; [by apply Hp|lia..].
Qed.

Lemma processNode_forward (a : AST) :
  forall p st, parentOk p st ->
    Forall forwardPair (skeleton (lEdges st)) ->
    Forall forwardPair (skeleton (lEdges (snd (processNode a p st)))).
Proof.
  induction a as [name instr|lbl|steps IH|branches IH|source cond target IHs IHt|children IH]
    using AST_ind; intros p st Hp Hst.
  - by apply forward_linkFrom.
  - by apply forward_linkFrom.
  - rewrite processNode_Sequence. by apply processSteps_forward.
  - rewrite processNode_Parallel. cbn [generateId].
    set (entryId := nodeIdOf (nodeIdCounter st)).
    set (st3 := linkFrom p entryId _).
    assert (Hc3 : nodeIdCounter st3 = S (nodeIdCounter st)).
    { subst st3. by destruct p. }
    assert (Hp3 : parentOk (Some entryId) st3).
    { intros x [= <-]. exists (nodeIdCounter st). split; [lia|done]. }
    assert (Hst3 : Forall forwardPair (skeleton (lEdges st3))).
    { by apply (forward_linkFrom p st
                  (mkNode entryId ParallelEntry None None None None Pending)). }
    pose proof (processBranches_forward entryId branches IH [] st3 Hp3 Hst3) as Hfw.
    pose proof (processBranches_lowered entryId branches
                  (Forall_impl _ _ _ (Forall_true _ _ (fun _ => I))
                     (fun a _ => processNode_lowered a)) [] st3) as Hb.
    destruct (processBranches entryId branches [] st3) as [exits st4].
    rewrite pushMergeEdges_spec. cbn [fst snd pushNode lNodes lEdges nodeIdCounter] in *.
    rewrite skeleton_app. apply Forall_app. split; [done|].
    unfold skeleton. rewrite map_map. cbn [from to].
    apply List.Forall_forall. intros xy (x & <- & Hx)%in_map_iff.
    unfold branchesLowered in Hb. cbn [fst snd app] in Hb.
    destruct Hb as (Hc4 & _ & (ex & Hex & _ & Hin)).
    assert (Hb : idBetween 0 (nodeIdCounter st4) x).
    { revert x Hx. rewrite Hex. apply definedIds_all. intros e He.
      destruct (Hin e He) as (r & Heq & Hcase). exists r. split; [done|].
      destruct Hcase as [->|Hr].
      - exists (nodeIdCounter st). split; [lia|done].
      - eapply idBetween_weaken; [exact Hr|lia..]. }
    destruct Hb as (j & Hj & ->). exists j, (nodeIdCounter st4).
    split; [lia|done].
  - cbn [processNode].
    pose proof (processNode_lowered source p st) as Hlow.
    specialize (IHs p st Hp Hst).
    destruct (processNode source p st) as [sourceId st1].
    specialize (IHt sourceId st1 (lowered_parentOk _ _ _ _ Hlow Hp) IHs).
    destruct (processNode target sourceId st1) as [targetId st2].
    unfold attachCondition. destruct sourceId, targetId; try done.
    cbn [snd lEdges]. by rewrite skeleton_setFirstCondition.
  - by apply IH.
Qed.

Lemma nodesAdded_leaf (n : Node) (p : option NodeId) (st : Lowering) :
  id n = nodeIdOf (nodeIdCounter st) -> status n = Pending ->
  nodesAdded 1 st
    (linkFrom p (nodeIdOf (nodeIdCounter st)) (pushNode n (snd (generateId st)))).
Proof.
  intros Hid Hstatus. exists [n]. split; [by destruct p|].
  split; [simpl; by rewrite Hid|]. by constructor.
Qed.

Lemma nodesAdded_trans (n1 n2 : nat) (st st1 st2 : Lowering) :
  nodesAdded n1 st st1 -> nodeIdCounter st1 = nodeIdCounter st + n1 ->
  nodesAdded n2 st1 st2 -> nodesAdded (n1 + n2) st st2.
Proof.
  intros (news1 & H1 & Hid1 & Hp1) Hc (news2 & H2 & Hid2 & Hp2).
  exists (news1 ++ news2). split; [by rewrite H2, H1, app_assoc|]. split.
  - by rewrite map_app, seq_app, map_app, Hid1, Hid2, Hc.
  - by apply Forall_app.
Qed.

Lemma nodesAdded_nil (st : Lowering) : nodesAdded 0 st st.
Proof. exists []. by rewrite app_nil_r. Qed.

Lemma processSteps_nodes (steps : list AST) :
  Forall (fun a => forall p st, nodesAdded (nodeCount a) st (snd (processNode a p st)))
    steps ->
  forall p st, nodesAdded (nodeCountList steps) st (snd (processSteps steps p st)).
Proof.
  induction 1 as [|x steps Hx _ IH]; intros p st; [apply nodesAdded_nil|].
  cbn [processSteps nodeCountList].
  pose proof (processNode_lowered x p st) as (Hc & _).
  specialize (Hx p st). destruct (processNode x p st) as [r1 st1].
  eapply nodesAdded_trans; [exact Hx|exact Hc|apply IH].
Qed.

Lemma processBranches_nodes (entryId : NodeId) (branches : list AST) :
  Forall (fun a => forall p st, nodesAdded (nodeCount a) st (snd (processNode a p st)))
    branches ->
  forall exits st,
    nodesAdded (nodeCountList branches) st
      (snd (processBranches entryId branches exits st)).
Proof.
  induction 1 as [|b branches Hb _ IH]; intros exits st; [apply nodesAdded_nil|].
  cbn [processBranches nodeCountList].
  pose proof (processNode_lowered b (Some entryId) st) as (Hc & _).
  specialize (Hb (Some entryId) st).
  destruct (processNode b (Some entryId) st) as [e st1].
  eapply nodesAdded_trans; [exact Hb|exact Hc|apply IH].
Qed.

Lemma processNode_nodes (a : AST) :
  forall p st, nodesAdded (nodeCount a) st (snd (processNode a p st)).
Proof.
  induction a as [name instr|lbl|steps IH|branches IH|source cond target IHs IHt|children IH]
    using AST_ind; intros p st.
  - by apply nodesAdded_leaf.
  - by apply nodesAdded_leaf.
  - rewrite processNode_Sequence, nodeCount_Sequence. by apply processSteps_nodes.
  - rewrite processNode_Parallel, nodeCount_Parallel. cbn [generateId].
    set (entryId := nodeIdOf (nodeIdCounter st)).
    set (st3 := linkFrom p entryId _).
    assert (Hc3 : nodeIdCounter st3 = nodeIdCounter st + 1).
    { subst st3. destruct p; simpl; lia. }
    assert (H3 : nodesAdded 1 st st3) by (by apply nodesAdded_leaf).
    pose proof (processBranches_nodes entryId branches IH [] st3) as H4.
    pose proof (processBranches_lowered entryId branches
                  (Forall_impl _ _ _ (Forall_true _ _ (fun _ => I))
                     (fun a _ => processNode_lowered a)) [] st3) as (Hc4 & _).
    destruct (processBranches entryId branches [] st3) as [exits st4].
    rewrite pushMergeEdges_spec. cbn [fst snd] in *.
    replace (2 + nodeCountList branches) with (1 + (nodeCountList branches + 1)) by lia.
    eapply nodesAdded_trans; [exact H3|exact Hc3|].
    eapply nodesAdded_trans; [exact H4|exact Hc4|].
    exists [mkNode (nodeIdOf (nodeIdCounter st4)) ParallelMerge None None None
              (Some exits) Pending].
    split; [done|]. split; [done|]. by constructor.
  - cbn [processNode nodeCount].
    pose proof (processNode_lowered source p st) as (Hc & _).
    specialize (IHs p st). destruct (processNode source p st) as [sourceId st1].
    specialize (IHt sourceId st1).
    destruct (processNode target sourceId st1) as [targetId st2].
    cbn [snd] in *.
    assert (nodesAdded (nodeCount source + nodeCount target) st st2) as (news & H)
      by (eapply nodesAdded_trans; [exact IHs|exact Hc|exact IHt]).
    exists news. by destruct sourceId, targetId.
  - by apply IH.
Qed.

Lemma astToGraph_shape (ast : AST) :
  let graph := astToGraph ast in
  List.map id (nodes graph) = List.map nodeIdOf (seq 0 (nodeCount ast))
  /\ length (nodes graph) = nodeCount ast
  /\ List.NoDup (List.map id (nodes graph))
  /\ Forall (fun n => status n = Pending) (nodes graph)
  /\ forall e, In e (edges graph) ->
       exists j k, j < k < nodeCount ast
                   /\ from e = nodeIdOf j /\ to e = nodeIdOf k.
Proof.
  intros graph. subst graph. unfold astToGraph.
  pose proof (processNode_nodes ast None (mkLowering [] [] 0)) as (news & Hn & Hid & Hp).
  pose proof (processNode_lowered ast None (mkLowering [] [] 0))
    as (Hc & (new & Hs & Hnew & _) & _).
  pose proof (processNode_forward ast None (mkLowering [] [] 0)
                ltac:(by intros ?) ltac:(by constructor)) as Hfw.
  destruct (processNode ast None (mkLowering [] [] 0)) as [r st].
  cbn [fst snd nodes edges lNodes lEdges nodeIdCounter app] in *.
  subst news. split; [done|]. split.
  { by rewrite <- (length_map id), Hid, length_map, length_seq. }
  split.
  { rewrite Hid. apply List.NoDup_map_NoDup_ForallPairs; [|apply List.seq_NoDup].
    intros i j _ _. apply nodeIdOf_inj. }
  split; [done|].
  intros e He.
  assert (Hin : In (from e, to e) (skeleton (lEdges st))).
  { unfold skeleton. apply in_map_iff. by exists e. }
  pose proof (proj1 (List.Forall_forall _ _) Hfw _ Hin) as (j & k & Hjk & Hj & Hk).
  cbn [fst snd] in Hj, Hk. rewrite Hs in Hin.
  destruct (Hnew _ _ Hin) as [(k' & Hk' & Hto) _].
  rewrite Hk in Hto. apply nodeIdOf_inj in Hto. subst k'.
  exists j, k. split; [lia|done].
Qed.

(** X10: the graph [astToGraph] returns has one node for every leaf of the
    AST and two for every parallel node; the nodes carry the ids [node-0],
    [node-1], ... in the order of [graph.nodes], all different, and are all
    pending; every edge goes from a node to a node with a larger number. *)
Theorem astToGraph_numbers_the_nodes (ast : AST) :
  let graph := astToGraph ast in
  List.map id (nodes graph) = List.map nodeIdOf (seq 0 (nodeCount ast))
  /\ length (nodes graph) = nodeCount ast
  /\ List.NoDup (List.map id (nodes graph))
  /\ Forall (fun n => status n = Pending) (nodes graph)
  /\ forall e, In e (edges graph) ->
       exists j k, j < k < nodeCount ast
                   /\ from e = nodeIdOf j /\ to e = nodeIdOf k.
Proof. apply astToGraph_shape. Qed.

(** ** The structural checks on a lowered graph *)

Lemma tc_forward (es : list Edge) (x y : NodeId) :
  (forall e, In e es -> forwardPair (from e, to e)) ->
  tc (unconditionalEdge es) x y ->
  exists j k, j < k /\ x = nodeIdOf j /\ y = nodeIdOf k.
Proof.
  intros Hfw. induction 1 as [x y (e & He & <- & <- & _)|x y z (e & He & <- & <- & _) _ IH].
  - exact (Hfw e He).
  - destruct (Hfw e He) as (j & k & Hjk & Hj & Hk). cbn [fst snd] in *.
    destruct IH as (k' & l & Hkl & Hk' & Hl).
    rewrite Hk in Hk'. apply nodeIdOf_inj in Hk'. subst k'.
    exists j, l. split; [lia|done].
Qed.

Lemma validateNoCycles_lowered (ast : AST) :
  validateNoCycles (astToGraph ast) = Return tt.
Proof.
  pose proof (validateNoCycles_spec (astToGraph ast)) as Hspec.
  destruct (validateNoCycles (astToGraph ast)) as [[]|e|]; [done| |done].
  exfalso. cbn [outcomeSpec] in Hspec. destruct Hspec as (n & _ & Hcycle).
  apply cycleFound_tc in Hcycle as (x & _ & Hx).
  apply (tc_forward (edges (astToGraph ast))) in Hx as (j & k & Hjk & -> & Heq).
  - apply nodeIdOf_inj in Heq. lia.
  - intros e' He.
    destruct (proj2 (proj2 (proj2 (proj2 (astToGraph_shape ast)))) e' He)
      as (j & k & Hjk & Hj & Hk).
    exists j, k. split; [lia|done].
Qed.

(** X11: the cycle check never fails on a graph that [astToGraph] returns:
    its edges all go from a node to a later node, so no text of a workflow
    can make [validateNoCycles] throw. *)
Theorem validateNoCycles_accepts_every_lowered_graph (ast : AST) :
  validateNoCycles (astToGraph ast) = Return tt.
Proof. apply validateNoCycles_lowered. Qed.

(** The search of [validateConnectivity] visits what the search of
    [resetFromNode] visits. *)
Lemma visitReachable_visitDownstream (es : list Edge) (fuel : nat) :
  forall nodeId toReset reachable,
    visitReachable es fuel nodeId reachable
    = (st ← visitDownstream es fuel nodeId (toReset, reachable); Return (snd st)).
Proof.
  induction fuel as [|fuel IH]; intros nodeId toReset reachable; [done|].
  cbn [visitReachable visitDownstream fst snd].
  destruct (setHas nodeId reachable); [done|].
  generalize (setAdd nodeId toReset) (setAdd nodeId reachable).
  induction (outgoingEdges es nodeId) as [|e l IHl]; intros t r; [done|].
  cbn [foldOutcome]. rewrite (IH (to e) t r).
  destruct (visitDownstream es fuel (to e) (t, r)) as [[t1 r1]| |];
    cbn [mbind Outcome_bind snd]; done.
Qed.

Section ReachableClosed.

Variable es : list Edge.
Variable universe : list NodeId.
Hypothesis universe_to : forall e, In e es -> In (to e) universe.

Lemma visitReachable_closed (fuel : nat) (nodeId : NodeId) (reachable : list NodeId) :
  In nodeId universe ->
  unseen universe reachable < fuel ->
  closedUnder es reachable ->
  outcomeSpec
    (fun r => (forall x, In x reachable -> In x r)
              /\ In nodeId r /\ closedUnder es r)
    (fun _ => False)
    (visitReachable es fuel nodeId reachable).
Proof.
  intros Hu Hfuel Hclosed.
  rewrite (visitReachable_visitDownstream es fuel nodeId []).
  pose proof (visitDownstream_spec es universe universe_to fuel nodeId
                ([], reachable) Hu Hfuel) as Hspec.
  destruct (visitDownstream es fuel nodeId ([], reachable)) as [[t r]| |];
    cbn [mbind Outcome_bind outcomeSpec snd] in *; try done.
  destruct Hspec as (Hmono & Hin & _ & Hnew & _). cbn [fst snd] in *.
  split; [done|]. split; [done|].
  intros x y Hx Hxy.
  destruct (in_dec string_dec x reachable) as [Hold|Hfresh].
  - apply Hmono. by apply (Hclosed x).
  - by apply (Hnew x).
Qed.

Lemma visitReachable_all (fuel : nat) (starts : list NodeId) :
  (forall s, In s starts -> In s universe) ->
  length universe < fuel ->
  forall reachable,
    closedUnder es reachable ->
    outcomeSpec
      (fun r => (forall x, In x reachable -> In x r)
                /\ (forall s, In s starts -> In s r) /\ closedUnder es r)
      (fun _ => False)
      (foldOutcome (fun start r => visitReachable es fuel start r) starts reachable).
Proof.
  intros Hstarts Hfuel.
  induction starts as [|s starts IH]; intros reachable Hclosed.
  - simpl. by repeat split.
  - cbn [foldOutcome].
    pose proof (visitReachable_closed fuel s reachable
                  (Hstarts s (or_introl eq_refl))
                  ltac:(pose proof (unseen_bound universe reachable); lia) Hclosed)
      as Hs.
    destruct (visitReachable es fuel s reachable) as [r1| |];
      cbn [mbind Outcome_bind outcomeSpec] in *; try done.
    destruct Hs as (Hmono1 & Hs1 & Hclosed1).
    eapply outcomeSpec_weaken;
      [apply IH; [intros s' Hs'; apply Hstarts; by right|exact Hclosed1]| |done].
    intros r (Hmono & Hall & Hcl). split; [auto|]. split; [|done].
    intros s' [<-|Hs']; [by apply Hmono|by apply Hall].
Qed.

End ReachableClosed.

Lemma validateConnectivity_lowered (ast : AST) :
  0 < nodeCount ast ->
  validateConnectivity (astToGraph ast) = Return tt.
Proof.
  intros Hcount.
  destruct (astToGraph_shape ast) as (Hids & Hlen & _ & _ & Hedges).
  set (graph := astToGraph ast) in *. unfold validateConnectivity.
  set (isStart := fun node : Node =>
         negb (existsb (fun edge => String.eqb (to edge) (id node)) (edges graph))).
  set (startNodes := List.filter isStart (nodes graph)).
  assert (Hnode : forall k, k < nodeCount ast ->
            exists node, In node (nodes graph) /\ id node = nodeIdOf k).
  { intros k Hk.
    assert (Hin : In (nodeIdOf k) (List.map id (nodes graph))).
    { rewrite Hids. apply in_map, in_seq. lia. }
    apply in_map_iff in Hin as (node & Hid & Hin). by exists node. }
  assert (Hstart0 : exists node, In node startNodes).
  { destruct (Hnode 0 Hcount) as (node & Hin & Hid). exists node.
    apply filter_In. split; [done|]. unfold isStart.
    apply negb_true_iff, not_true_is_false.
    intros (e & He & Heq)%existsb_exists. apply String.eqb_eq in Heq.
    destruct (Hedges e He) as (j & k & Hjk & _ & Hk).
    rewrite Hk, Hid in Heq. apply nodeIdOf_inj in Heq. lia. }
  destruct (length startNodes =? 0)%nat eqn:Hempty.
  { apply Nat.eqb_eq, length_zero_iff_nil in Hempty.
    destruct Hstart0 as [node Hin]. by rewrite Hempty in Hin. }
  pose proof (visitReachable_all (edges graph) (idUniverse graph)
                (idUniverse_to graph) (S (length (idUniverse graph)))
                (List.map id startNodes)) as Hsearch.
  assert (Hfold : forall l r,
    foldOutcome
      (fun start r =>
         visitReachable (edges graph) (S (length (idUniverse graph))) (id start) r) l r
    = foldOutcome
        (fun start r =>
           visitReachable (edges graph) (S (length (idUniverse graph))) start r)
        (List.map id l) r).
  { induction l as [|a l IHl]; intros r; [done|]. cbn [foldOutcome List.map].
    destruct (visitReachable _ _ (id a) r); cbn [mbind Outcome_bind]; done. }
  rewrite Hfold.
  specialize (Hsearch
    ltac:(intros s (node & <- & [Hin _]%filter_In)%in_map_iff; by apply idUniverse_id)
    ltac:(lia) [] ltac:(by intros ?? [])).
  destruct (foldOutcome _ (List.map id startNodes) []) as [reachable| |];
    cbn [mbind Outcome_bind outcomeSpec] in *; try done.
  destruct Hsearch as (_ & Hstarts & Hclosed).
  assert (Hall : forall k, k < nodeCount ast -> In (nodeIdOf k) reachable).
  { induction k as [k IH] using lt_wf_ind. intros Hk.
    destruct (Hnode k Hk) as (node & Hin & Hid).
    destruct (isStart node) eqn:Hs.
    - rewrite <- Hid. apply Hstarts, in_map, filter_In. by split.
    - unfold isStart in Hs. apply negb_false_iff in Hs.
      apply existsb_exists in Hs as (e & He & Heq). apply String.eqb_eq in Heq.
      destruct (Hedges e He) as (j & k' & Hjk & Hj & Hk').
      rewrite Hk', Hid in Heq. apply nodeIdOf_inj in Heq. subst k'.
      apply (Hclosed (nodeIdOf j)); [apply IH; lia|].
      exists e. by repeat split. }
  assert (Horphans :
    List.filter (fun node => negb (setHas (id node) reachable)) (nodes graph) = []).
  { apply filter_none. intros node Hin.
    apply negb_false_iff, setHas_In.
    assert (Hid : In (id node) (List.map id (nodes graph))) by (by apply in_map).
    rewrite Hids in Hid. apply in_map_iff in Hid as (k & <- & Hk%in_seq).
    apply Hall. lia. }
  by rewrite Horphans.
Qed.

(** X12: the connectivity check never fails on the graph of an AST that has
    at least one node: the first node has no incoming edge, and every other
    node either has none or is reached from an earlier node. *)
Theorem validateConnectivity_accepts_every_lowered_graph (ast : AST) :
  0 < nodeCount ast ->
  validateConnectivity (astToGraph ast) = Return tt.
Proof. apply validateConnectivity_lowered. Qed.

Lemma validateConnectivity_accepts_every_lowered_graph_witness :
  validateConnectivity
    (astToGraph (Conditional (Agent "test" None) "(if failed)"
                   (Parallel [Agent "fix" None; Checkpoint "@review"])))
  = Return tt.
Proof.
  apply (validateConnectivity_accepts_every_lowered_graph
           (Conditional (Agent "test" None) "(if failed)"
              (Parallel [Agent "fix" None; Checkpoint "@review"]))).
  simpl. lia.
Defined.

(** ** What validation can reject in a workflow text *)

Lemma nodeCountList_last (steps : list AST) (a : AST) :
  nodeCount a <= nodeCountList (steps ++ [a]).
Proof. induction steps as [|x steps IH]; simpl; lia. Qed.

Lemma nodeCount_appendStep (left right : AST) :
  0 < nodeCount right -> 0 < nodeCount (appendStep left right).
Proof.
  intros Hr. unfold appendStep. rewrite nodeCount_Sequence.
  destruct left; try (simpl; lia).
  pose proof (nodeCountList_last steps right). lia.
Qed.

Lemma nodeCount_appendBranch (left right : AST) :
  0 < nodeCount (appendBranch left right).
Proof. unfold appendBranch. rewrite nodeCount_Parallel. lia. Qed.

(** Whatever the parser returns lowers to at least one node. *)
Lemma parse_nonempty (tokens : list Token) (fuel : nat) :
  (forall precedence left position r,
      0 < nodeCount left ->
      parseLoop tokens fuel precedence left position = Return r ->
      0 < nodeCount (fst r))
  /\ (forall precedence position r,
      parseExpression tokens fuel precedence position = Return r ->
      0 < nodeCount (fst r)).
Proof.
  induction fuel as [|fuel (IHL & IHE)]; [by split|]. split.
  - intros precedence left position r Hleft. cbn [parseLoop].
    destruct (tokens !! position) as [token|]; [|by intros [= <-]].
    destruct (getOperatorPrecedence token <? precedence); [by intros [= <-]|].
    destruct token; try (by apply IHL).
    + destruct (parseExpression tokens fuel _ (S position)) as [r1| |] eqn:Hr1;
        cbn [mbind Outcome_bind]; try done.
      apply IHL, nodeCount_appendStep. by apply (IHE _ _ _ Hr1).
    + destruct (parseExpression tokens fuel _ (S position)) as [r1| |] eqn:Hr1;
        cbn [mbind Outcome_bind]; try done.
      apply IHL, nodeCount_appendBranch.
    + destruct (parseExpression tokens fuel _ (S position)) as [r1| |] eqn:Hr1;
        cbn [mbind Outcome_bind]; try done.
      apply IHL. cbn [nodeCount]. lia.
  - intros precedence position r. cbn [parseExpression].
    destruct (parsePrimary tokens fuel position) as [r1| |] eqn:Hr1;
      cbn [mbind Outcome_bind]; try done.
    destruct (proj1 (parse_returns tokens fuel) _ _ Hr1) as (s & _ & ->).
    apply IHL. by destruct s; simpl; lia.
Qed.

Lemma buildAST_nonempty (tokens : list Token) (ast : AST) :
  buildAST tokens = Return ast -> 0 < nodeCount ast.
Proof.
  unfold buildAST.
  destruct (parseExpression tokens _ 0 0) as [r| |] eqn:Hr;
    cbn [mbind Outcome_bind]; try done.
  intros [= <-]. by apply (proj2 (parse_nonempty tokens _) _ _ _ Hr).
Qed.

(** X13: when a workflow text is tokenized and parsed, the only errors its
    validation can report are those of the bracket check and of the agent
    check; the connectivity check and the cycle check pass on every graph
    the compiler builds. *)
Theorem validation_rejects_only_brackets_and_agents
  (validAgents : list string) (workflow : string) (e : JsError) :
  compileAndValidate validAgents workflow = Return (Invalid e) ->
  (exists i, e = UnexpectedCloseBracket i)
  \/ (exists depth, e = UnclosedBrackets depth)
  \/ (exists name, e = UnknownAgent name).
Proof.
  unfold compileAndValidate.
  destruct (tokenize workflow) as [tokens| |]; cbn [mbind Outcome_bind]; try done.
  destruct (buildAST tokens) as [ast| |] eqn:Hast; cbn [mbind Outcome_bind]; try done.
  rewrite validateGraph_first_failure.
  rewrite (validateConnectivity_lowered ast) by (by eapply buildAST_nonempty).
  rewrite (validateNoCycles_lowered ast).
  cbn [firstFailure].
  destruct (validateBrackets tokens) as [[]|e1|] eqn:Hb.
  - destruct (validateAgents validAgents (astToGraph ast)) as [[]|e2|] eqn:Ha; try done.
    intros [= <-]. right. right. revert Ha. unfold validateAgents.
    induction (nodes (astToGraph ast)) as [|n ns IH]; [done|]. simpl.
    destruct (_ && _); [intros [= <-]; by eexists|exact IH].
  - intros [= <-]. revert Hb. unfold validateBrackets.
    destruct (validateBracketsLoop tokens 0 0) as [depth|e3|] eqn:Hloop;
      cbn [mbind Outcome_bind]; try done.
    + destruct (0 <? depth)%Z; [|done]. intros [= <-]. right. left. by eexists.
    + intros [= <-]. left. revert Hloop. clear Hast. generalize 0 at 1. generalize 0%Z.
      induction tokens as [|t tokens IH]; intros depth i; [done|]. simpl.
      destruct (_ <? 0)%Z; [intros [= <-]; by eexists|apply IH].
  - destruct (validateAgents validAgents (astToGraph ast)) as [[]|e2|] eqn:Ha; try done.
    by pose proof (validateBrackets_total tokens).
Qed.

Lemma validation_rejects_only_brackets_and_agents_witness :
  compileAndValidate ["explore"] "explore ]"
  = Return (Invalid (UnexpectedCloseBracket 1))
  /\ ((exists i, UnexpectedCloseBracket 1 = UnexpectedCloseBracket i)
      \/ (exists depth, UnexpectedCloseBracket 1 = UnclosedBrackets depth)
      \/ (exists name, UnexpectedCloseBracket 1 = UnknownAgent name)).
Proof.
  split; [reflexivity|].
  apply (validation_rejects_only_brackets_and_agents ["explore"] "explore ]").
  reflexivity.
Defined.


(** ** Batches of parallel agents *)

Lemma batchesFrom_spec {A : Type} (l : list A) (fuel : nat) :
  forall i, length l - i <= fuel ->
    concat (batchesFrom fuel i l) = drop i l
    /\ (forall k b, batchesFrom fuel i l !! k = Some b ->
          b = take MAX_PARALLEL_AGENTS (drop (i + MAX_PARALLEL_AGENTS * k) l)
          /\ i + MAX_PARALLEL_AGENTS * k < length l)
    /\ length l - i <= MAX_PARALLEL_AGENTS * length (batchesFrom fuel i l)
    /\ MAX_PARALLEL_AGENTS * length (batchesFrom fuel i l)
       < length l - i + MAX_PARALLEL_AGENTS.
Proof.
  unfold MAX_PARALLEL_AGENTS.
  induction fuel as [|fuel IH]; intros i Hfuel.
  - cbn [batchesFrom concat length]. rewrite drop_ge by lia.
    split; [done|]. split; [done|]. lia.
  - cbn [batchesFrom]. unfold MAX_PARALLEL_AGENTS.
    destruct (i <? length l)%nat eqn:Hi.
    + apply Nat.ltb_lt in Hi.
      destruct (IH (i + 5) ltac:(lia)) as (Hcat & Hk & Hlo & Hhi).
      cbn [concat length]. split; [|split].
      * rewrite Hcat. unfold slice. replace (i + 5 - i) with 5 by lia.
        by rewrite <- drop_drop, take_drop.
      * intros [|k] b; cbn [lookup list_lookup].
        -- intros [= <-]. unfold slice.
           replace (i + 5 - i) with 5 by lia. rewrite Nat.mul_0_r, Nat.add_0_r.
           split; [done|lia].
        -- intros Hb. destruct (Hk k b Hb) as [-> Hlt].
           replace (i + 5 * S k) with (i + 5 + 5 * k) by lia. by split.
      * lia.
    + apply Nat.ltb_ge in Hi. cbn [concat length]. rewrite drop_ge by lia.
      split; [done|]. split; [done|]. lia.
Qed.

(** X14: [executeParallelBatched] runs the nodes it is given in batches that,
    put end to end, are these nodes in their order; every batch has between
    one and five nodes, and every batch but the last has five. *)
Theorem executeParallelBatched_batches
  (executeParallel : list Node -> State -> Outcome State)
  (ns : list Node) (state : State) :
  exists batches,
    executeParallelBatched executeParallel ns state
    = foldOutcome executeParallel batches state
    /\ concat batches = ns
    /\ (forall k b, batches !! k = Some b ->
          b = take MAX_PARALLEL_AGENTS (drop (MAX_PARALLEL_AGENTS * k) ns)
          /\ 0 < length b <= MAX_PARALLEL_AGENTS
          /\ (S k < length batches -> length b = MAX_PARALLEL_AGENTS))
    /\ length ns <= MAX_PARALLEL_AGENTS * length batches
       < length ns + MAX_PARALLEL_AGENTS.
Proof.
  exists (batchesFrom (length ns) 0 ns). split; [done|].
  destruct (batchesFrom_spec ns (length ns) 0 ltac:(lia)) as (Hcat & Hk & Hlo & Hhi).
  split; [by rewrite Hcat|]. split; [|lia].
  intros k b Hb. destruct (Hk k b Hb) as [-> Hlt]. cbn [plus] in *.
  split; [done|]. rewrite length_take, length_drop.
  unfold MAX_PARALLEL_AGENTS in *. split; [lia|]. lia.
Qed.

(** ** The ready nodes *)

Lemma edgeSatisfied_true (JSON_stringify : Output -> string) (state : State)
  (edge : Edge) :
  codeEdgeSatisfied JSON_stringify state edge = true
  <-> edgeReady JSON_stringify state edge.
Proof.
  unfold codeEdgeSatisfied, edgeSatisfied, edgeReady, hasCondition.
  destruct (findNode (nodes (graph state)) (from edge)) as [source|].
  2:{ split; [done|]. by intros (? & ? & _). }
  destruct (bool_decide (status source = Completed)) eqn:Hs; cbn [negb].
  2:{ apply bool_decide_eq_false in Hs. split; [done|].
      by intros (? & [= <-] & ? & _). }
  apply bool_decide_eq_true in Hs.
  destruct (condition edge) as [c|].
  - destruct (negb (String.eqb c EmptyString)) eqn:Hc.
    + split.
      * destruct (evaluateCondition _ c _) as [[]| |] eqn:He; try done.
        intros _. exists source. split; [done|]. split; [done|]. right. by exists c.
      * intros (? & _ & _ & [?|(c' & [= <-] & ->)]); done.
    + split; [|done]. intros _. exists source. split; [done|]. split; [done|]. by left.
  - split; [|done]. intros _. exists source. split; [done|]. split; [done|]. by left.
Qed.

(** X15: on a graph whose source ids and conditions are no inherited names,
    when [findExecutableNodes] returns, it returns, in the order of
    [graph.nodes], the pending nodes every incoming edge of which has a
    completed source and, if it carries a condition, a condition that
    evaluates to true; a complete workflow has no such node. *)
Theorem findExecutableNodes_returns_the_ready_nodes
  (JSON_stringify : Output -> string) (state : State) (ready : list Node) :
  plainNames (graph state) = true ->
  findExecutableNodes JSON_stringify state = Return ready ->
  (forall node,
     In node ready
     <-> In node (nodes (graph state))
         /\ status node = Pending
         /\ forall edge, In edge (edges (graph state)) -> to edge = id node ->
              edgeReady JSON_stringify state edge)
  /\ (exists keep, ready = List.filter keep (nodes (graph state)))
  /\ (isComplete state = true -> ready = []).
Proof.
  intros _ ->%findExecutableNodes_ready.
  split; [|split].
  - intros node. rewrite filter_In, andb_true_iff, bool_decide_eq_true, forallb_forall.
    split.
    + intros (Hin & Hp & Hall). split; [done|]. split; [done|].
      intros edge He Hto. apply edgeSatisfied_true, Hall, in_incomingEdges.
      by split.
    + intros (Hin & Hp & Hall). split; [done|]. split; [done|].
      intros edge [He Hto]%in_incomingEdges. by apply edgeSatisfied_true, Hall.
  - by eexists.
  - unfold isComplete. rewrite forallb_forall. intros Hdone.
    apply filter_none. intros node Hin. specialize (Hdone node Hin).
    destruct (status node); done.
Qed.

Lemma findExecutableNodes_returns_the_ready_nodes_witness :
  let state :=
    mkState "lint (if failed)~> fix"
      (mkGraph
         [mkNode "node-0" AgentNode (Some "lint") None None None Completed;
          mkNode "node-1" AgentNode (Some "fix") None None None Pending]
         [mkEdge "node-0" "node-1" (Some "(if failed)")])
      (mkExecution [] ["node-0"] [] []
         (<["node-0" := mkOutput false None (Some "2 warnings") None (Millis 40)]> ∅))
      (mkSteering false None None) in
  let ready := [mkNode "node-1" AgentNode (Some "fix") None None None Pending] in
  (forall node,
     In node ready
     <-> In node (nodes (graph state))
         /\ status node = Pending
         /\ forall edge, In edge (edges (graph state)) -> to edge = id node ->
              edgeReady (fun _ => EmptyString) state edge)
  /\ (exists keep, ready = List.filter keep (nodes (graph state)))
  /\ (isComplete state = true -> ready = []).
Proof.
  intros state ready.
  apply (findExecutableNodes_returns_the_ready_nodes (fun _ => EmptyString) state ready);
    reflexivity.
Defined.

(** ** The bookkeeping of [executeAgent] and [processRecovery] *)

Lemma setStatusAt_insert (index : nat) (s : Status) (ns : list Node) (node : Node) :
  ns !! index = Some node ->
  setStatusAt index s ns = <[index := withStatus s node]> ns.
Proof. intros H. unfold setStatusAt. by rewrite H. Qed.

Lemma ids_setStatusAt (index : nat) (s : Status) (ns : list Node) :
  List.map id (setStatusAt index s ns) = List.map id ns.
Proof.
  unfold setStatusAt. destruct (ns !! index) as [node|] eqn:H; [|done].
  revert index H. induction ns as [|n ns IH]; intros [|i] H; try done.
  - by injection H as ->.
  - simpl. f_equal. by apply IH.
Qed.

Lemma setStatusAt_twice (index : nat) (s s' : Status) (ns : list Node) :
  setStatusAt index s' (setStatusAt index s ns) = setStatusAt index s' ns.
Proof.
  destruct (ns !! index) as [node|] eqn:H.
  - rewrite (setStatusAt_insert index s ns node H).
    assert (Hlt : index < length ns) by (by eapply lookup_lt_Some).
    rewrite (setStatusAt_insert index s' _ (withStatus s node)),
      (setStatusAt_insert index s' ns node H).
    + by rewrite list_insert_insert_eq.
    + by apply list_lookup_insert_eq.
  - unfold setStatusAt. by rewrite H, H.
Qed.

Lemma id_unique (ns : list Node) (i j : nat) (n m : Node) :
  List.NoDup (List.map id ns) ->
  ns !! i = Some n -> ns !! j = Some m -> id n = id m -> i = j.
Proof.
  intros Hnd Hi Hj Heq.
  apply (NoDup_lookup (id <$> ns) i j (id n)).
  - by apply NoDup_ListNoDup.
  - by rewrite list_lookup_fmap, Hi.
  - by rewrite list_lookup_fmap, Hj, Heq.
Qed.

Lemma In_lookup {A : Type} (l : list A) (x : A) :
  In x l <-> exists j, l !! j = Some x.
Proof. by rewrite <- list_elem_of_In, list_elem_of_lookup. Qed.

Lemma status_after (index : nat) (s : Status) (ns : list Node) (node : Node) :
  List.NoDup (List.map id ns) ->
  ns !! index = Some node ->
  forall x t,
    (exists n, In n (setStatusAt index s ns) /\ id n = x /\ status n = t)
    <-> (x = id node /\ t = s)
        \/ (x <> id node /\ exists n, In n ns /\ id n = x /\ status n = t).
Proof.
  intros Hnd Hnode x t. rewrite (setStatusAt_insert _ _ _ _ Hnode).
  assert (Hlt : index < length ns) by (by eapply lookup_lt_Some).
  split.
  - intros (n & (j & Hj)%In_lookup & Hid & Hst).
    apply list_lookup_insert_Some in Hj as [(-> & <- & _)|(Hne & Hj)].
    + left. by split.
    + right. split.
      * intros Hx. apply Hne. symmetry. apply (id_unique ns j index n node); congruence.
      * exists n. split; [|done]. apply In_lookup. by exists j.
  - intros [(-> & ->)|(Hx & n & (j & Hj)%In_lookup & Hid & Hst)].
    + exists (withStatus s node). split; [|done].
      apply In_lookup. exists index. by apply list_lookup_insert_eq.
    + exists n. split; [|done]. apply In_lookup. exists j.
      rewrite list_lookup_insert_ne; [done|]. intros <-. congruence.
Qed.

Lemma tracks_update (index : nat) (s t : Status) (ns : list Node) (node : Node)
  (l l' : list NodeId) :
  List.NoDup (List.map id ns) ->
  ns !! index = Some node ->
  tracks ns l t ->
  (forall x, In x l' <-> (x = id node /\ t = s) \/ (x <> id node /\ In x l)) ->
  tracks (setStatusAt index s ns) l' t.
Proof.
  intros Hnd Hnode Hl Hl' x.
  rewrite (status_after index s ns node Hnd Hnode x t), Hl'.
  by rewrite (Hl x).
Qed.

Lemma In_without (nodeId x : NodeId) (l : list NodeId) :
  In x (without nodeId l) <-> In x l /\ x <> nodeId.
Proof.
  unfold without. rewrite filter_In, negb_true_iff.
  by rewrite <- (not_true_iff_false (String.eqb x nodeId)), String.eqb_eq.
Qed.

(** The three ways in which a call changes a list of ids. *)
Lemma tracks_push (index : nat) (s : Status) (ns : list Node) (node : Node)
  (l : list NodeId) :
  List.NoDup (List.map id ns) -> ns !! index = Some node ->
  tracks ns l s ->
  tracks (setStatusAt index s ns) (without (id node) l ++ [id node]) s
  /\ (status node <> s -> tracks (setStatusAt index s ns) (l ++ [id node]) s).
Proof.
  intros Hnd Hnode Hl. split; [|intros Hst].
  - apply (tracks_update index s s ns node l); try done.
    intros x. rewrite in_app_iff, In_without. simpl.
    destruct (decide (x = id node)); intuition congruence.
  - apply (tracks_update index s s ns node l); try done.
    intros x. rewrite in_app_iff. simpl.
    destruct (decide (x = id node)); intuition congruence.
Qed.

Lemma tracks_remove (index : nat) (s t : Status) (ns : list Node) (node : Node)
  (l : list NodeId) :
  List.NoDup (List.map id ns) -> ns !! index = Some node ->
  t <> s ->
  tracks ns l t ->
  tracks (setStatusAt index s ns) (without (id node) l) t.
Proof.
  intros Hnd Hnode Hts Hl.
  apply (tracks_update index s t ns node l); try done.
  intros x. rewrite In_without. intuition congruence.
Qed.

Lemma tracks_not_listed (index : nat) (t : Status) (ns : list Node) (node : Node)
  (l : list NodeId) :
  List.NoDup (List.map id ns) -> ns !! index = Some node ->
  status node <> t ->
  tracks ns l t ->
  ~ In (id node) l.
Proof.
  intros Hnd Hnode Hst Hl (n & (j & Hj)%In_lookup & Hid & Hn)%Hl.
  assert (j = index) as -> by (by apply (id_unique ns j index n node)).
  congruence.
Qed.

Lemma tracks_keep (index : nat) (s t : Status) (ns : list Node) (node : Node)
  (l : list NodeId) :
  List.NoDup (List.map id ns) -> ns !! index = Some node ->
  t <> s -> status node <> t ->
  tracks ns l t ->
  tracks (setStatusAt index s ns) l t.
Proof.
  intros Hnd Hnode Hts Hst Hl.
  apply (tracks_update index s t ns node l); try done.
  intros x. pose proof (tracks_not_listed index t ns node l Hnd Hnode Hst Hl).
  destruct (decide (x = id node)) as [->|]; intuition congruence.
Qed.

Lemma findNode_In (ns : list Node) (x : NodeId) :
  In x (List.map id ns) -> exists n, findNode ns x = Some n.
Proof.
  unfold findNode. induction ns as [|n ns IH]; simpl; [done|].
  intros [<-|Hin].
  - rewrite String.eqb_refl. by eexists.
  - destruct (String.eqb (id n) x); [by eexists|by apply IH].
Qed.

Lemma findAll_listed (ns : list Node) (ids : list NodeId) :
  (forall x, In x ids -> In x (List.map id ns)) ->
  exists found, findAll ns ids = Some found.
Proof.
  induction ids as [|x ids IH]; intros H; simpl; [by eexists|].
  destruct (findNode_In ns x) as [n ->]; [apply H; by left|].
  destruct IH as [found ->]; [intros y Hy; apply H; by right|].
  by eexists.
Qed.

Lemma buildInstruction_listed (node : Node) (state : State) :
  (forall x, In x (completed (execution state)) ->
     In x (List.map id (nodes (graph state)))) ->
  exists text, buildInstruction node state = Some text.
Proof.
  intros H. unfold buildInstruction.
  destruct (findAll_listed _ _ H) as [found ->]. simpl.
  destruct (instruction node) as [s|]; [|by eexists].
  destruct (negb (String.eqb s EmptyString)); by eexists.
Qed.

Lemma tracks_listed (ns : list Node) (l : list NodeId) (t : Status) (x : NodeId) :
  tracks ns l t -> In x l -> In x (List.map id ns).
Proof.
  intros Hl (n & Hn & <- & _)%Hl. by apply in_map.
Qed.

(** What [executeAgent] does to a node that is pending or executing, in a
    consistent state. *)
Lemma executeAgent_consistent (index : nat) (task : TaskOutcome) (elapsed : Z)
  (state : State) (node : Node) :
  consistent state ->
  nodes (graph state) !! index = Some node ->
  status node = Pending \/ status node = Executing ->
  let newStatus := match task with Fulfilled _ => Completed | Rejected _ => Failed end in
  exists state',
    executeAgent index task elapsed state
    = (state', match task with
               | Fulfilled _ => Finished
               | Rejected message => Threw message
               end)
    /\ consistent state'
    /\ nodes (graph state') = setStatusAt index newStatus (nodes (graph state))
    /\ outputs (execution state')
       = <[id node := match task with
                      | Fulfilled result =>
                          mkOutput true (Some result) None None (Millis elapsed)
                      | Rejected message =>
                          mkOutput false None (Some message) None (Millis elapsed)
                      end]> (outputs (execution state))
    /\ edges (graph state') = edges (graph state)
    /\ workflow state' = workflow state
    /\ steering state' = steering state.
Proof.
  intros (Hnd & Hcur & Hcom & Hfai & Hski) Hnode Hst newStatus.
  unfold executeAgent. rewrite Hnode. cbv zeta.
  destruct (buildInstruction_listed node
              (withRun (setStatusAt index Executing (nodes (graph state)))
                 (mkExecution (current (execution state) ++ [id node])
                    (completed (execution state)) (failed (execution state))
                    (skipped (execution state)) (outputs (execution state)))
                 state)) as [text ->].
  { simpl. intros x Hx. rewrite ids_setStatusAt.
    exact (tracks_listed _ _ _ x Hcom Hx). }
  assert (Hcur' : forall s, s <> Executing ->
            tracks (setStatusAt index s (nodes (graph state)))
              (without (id node) (current (execution state) ++ [id node])) Executing).
  { intros s Hs. apply (tracks_update index s Executing _ node (current (execution state)));
      try done.
    intros x. rewrite In_without, in_app_iff. simpl. intuition congruence. }
  destruct task as [result|message]; eexists; (split; [reflexivity|]);
    unfold consistent; simpl; rewrite setStatusAt_twice;
    (split; [|by repeat split]);
    (split; [by rewrite ids_setStatusAt|]);
    (split; [by apply Hcur'|]).
  - split; [|split].
    + apply (proj2 (tracks_push _ _ _ node _ Hnd Hnode Hcom)). destruct Hst; congruence.
    + apply (tracks_keep _ _ _ _ node); try done. destruct Hst; congruence.
    + apply (tracks_keep _ _ _ _ node); try done. destruct Hst; congruence.
  - split; [|split].
    + apply (tracks_keep _ _ _ _ node); try done. destruct Hst; congruence.
    + apply (proj2 (tracks_push _ _ _ node _ Hnd Hnode Hfai)). destruct Hst; congruence.
    + apply (tracks_keep _ _ _ _ node); try done. destruct Hst; congruence.
Qed.

Lemma sameIds_tracks (ns : list Node) (l : list NodeId) (t : Status) :
  sameIds l (idsWith t ns) = true -> tracks ns l t.
Proof.
  unfold sameIds, idsWith. rewrite andb_true_iff, !forallb_forall.
  intros [H1 H2] x.
  assert (Hmem : forall l', existsb (String.eqb x) l' = true <-> In x l').
  { intros l'. rewrite existsb_exists. split.
    - by intros (y & Hy & ->%String.eqb_eq).
    - intros Hx. exists x. by rewrite String.eqb_refl. }
  assert (Hids : In x (List.map id
                         (List.filter (fun n => bool_decide (status n = t)) ns))
                 <-> exists n, In n ns /\ id n = x /\ status n = t).
  { rewrite in_map_iff. split.
    - intros (n & Hid & (Hn & Hs%bool_decide_eq_true)%filter_In). by exists n.
    - intros (n & Hn & Hid & Hs). exists n. split; [done|].
      apply filter_In. split; [done|]. by apply bool_decide_eq_true. }
  rewrite <- Hids. split.
  - intros Hx. by apply Hmem, H1.
  - intros Hx. by apply Hmem, H2.
Qed.

Lemma consistentb_consistent (state : State) :
  consistentb state = true -> consistent state.
Proof.
  unfold consistentb, consistent. rewrite !andb_true_iff, bool_decide_eq_true.
  intros ((((Hnd & H1) & H2) & H3) & H4).
  split; [by apply NoDup_ListNoDup in Hnd|].
  repeat split; by apply sameIds_tracks.
Qed.

(** X16: in a consistent state, running the agent of a node that is pending
    or executing ends as the task does (it returns after a result, and throws
    the error of the task again after a failure); the state it leaves is
    consistent, the node is completed or failed, its output is recorded under
    its id, and nothing else changes. *)
Theorem executeAgent_records_the_outcome (index : nat) (task : TaskOutcome)
  (elapsed : Z) (state : State) (node : Node) :
  consistent state ->
  nodes (graph state) !! index = Some node ->
  status node = Pending \/ status node = Executing ->
  exists state',
    executeAgent index task elapsed state
    = (state', match task with
               | Fulfilled _ => Finished
               | Rejected message => Threw message
               end)
    /\ consistent state'
    /\ nodes (graph state')
       = setStatusAt index
           (match task with Fulfilled _ => Completed | Rejected _ => Failed end)
           (nodes (graph state))
    /\ outputs (execution state')
       = <[id node := match task with
                      | Fulfilled result =>
                          mkOutput true (Some result) None None (Millis elapsed)
                      | Rejected message =>
                          mkOutput false None (Some message) None (Millis elapsed)
                      end]> (outputs (execution state))
    /\ edges (graph state') = edges (graph state)
    /\ workflow state' = workflow state
    /\ steering state' = steering state.
Proof. apply executeAgent_consistent. Qed.


Lemma executeAgent_records_the_outcome_witness :
  let state :=
    mkState "lint -> fix"
      (mkGraph
         [mkNode "node-0" AgentNode (Some "lint") None None None Completed;
          mkNode "node-1" AgentNode (Some "fix") None None None Pending]
         [mkEdge "node-0" "node-1" None])
      (mkExecution [] ["node-0"] [] []
         (<["node-0" := mkOutput true (Some "clean") None None (Millis 40)]> ∅))
      (mkSteering false None None) in
  let node := mkNode "node-1" AgentNode (Some "fix") None None None Pending in
  let task := Rejected "agent crashed" in
  exists state',
    executeAgent 1 task 25 state
    = (state', match task with
               | Fulfilled _ => Finished
               | Rejected message => Threw message
               end)
    /\ consistent state'
    /\ nodes (graph state')
       = setStatusAt 1
           (match task with Fulfilled _ => Completed | Rejected _ => Failed end)
           (nodes (graph state))
    /\ outputs (execution state')
       = <[id node := match task with
                      | Fulfilled result =>
                          mkOutput true (Some result) None None (Millis 25)
                      | Rejected message =>
                          mkOutput false None (Some message) None (Millis 25)
                      end]> (outputs (execution state))
    /\ edges (graph state') = edges (graph state)
    /\ workflow state' = workflow state
    /\ steering state' = steering state.
Proof.
  intros state node task.
  apply (executeAgent_records_the_outcome 1 task 25 state node).
  - apply consistentb_consistent. reflexivity.
  - reflexivity.
  - left. reflexivity.
Defined.

(** X17: for a failed node of a consistent state, [skip] marks the node
    skipped and answers [true]; [retry] runs the agent again and answers
    [true] when the task succeeds, but throws the error of the task when it
    fails again; both leave a consistent state.  An action other than
    [retry], [skip] and [edit] changes nothing and answers [false]. *)
Theorem processRecovery_skip_and_retry
  (editAndReparse : State -> State * Recovery) (index : nat) (task : TaskOutcome)
  (elapsed : Z) (state : State) (node : Node) :
  consistent state ->
  nodes (graph state) !! index = Some node ->
  status node = Failed ->
  (exists state',
     processRecovery editAndReparse "skip" index task elapsed state
     = (state', Recovered true)
     /\ consistent state'
     /\ nodes (graph state') = setStatusAt index Skipped (nodes (graph state))
     /\ outputs (execution state') = outputs (execution state))
  /\ (exists state',
        processRecovery editAndReparse "retry" index task elapsed state
        = (state', match task with
                   | Fulfilled _ => Recovered true
                   | Rejected message => RecoveryThrew message
                   end)
        /\ consistent state'
        /\ nodes (graph state')
           = setStatusAt index
               (match task with Fulfilled _ => Completed | Rejected _ => Failed end)
               (nodes (graph state))
        /\ outputs (execution state')
           = <[id node := match task with
                          | Fulfilled result =>
                              mkOutput true (Some result) None None (Millis elapsed)
                          | Rejected message =>
                              mkOutput false None (Some message) None (Millis elapsed)
                          end]> (outputs (execution state)))
  /\ (forall action,
        action <> "retry" -> action <> "skip" -> action <> "edit" ->
        processRecovery editAndReparse action index task elapsed state
        = (state, Recovered false)).
Proof.
  intros (Hnd & Hcur & Hcom & Hfai & Hski) Hnode Hst.
  split; [|split].
  - unfold processRecovery. rewrite Hnode. simpl.
    eexists. split; [reflexivity|]. unfold consistent. simpl.
    split; [|done].
    split; [by rewrite ids_setStatusAt|].
    split; [apply (tracks_keep _ _ _ _ node); try done; congruence|].
    split; [apply (tracks_keep _ _ _ _ node); try done; congruence|].
    split; [by apply tracks_remove|].
    apply (proj2 (tracks_push _ _ _ node _ Hnd Hnode Hski)). congruence.
  - unfold processRecovery. rewrite Hnode. simpl.
    set (state1 := withRun _ _ state).
    destruct (executeAgent_consistent index task elapsed state1 (withStatus Pending node))
      as (state2 & -> & Hcons & Hnodes & Hout & _).
    + unfold consistent, state1. simpl.
      split; [by rewrite ids_setStatusAt|].
      split; [apply (tracks_keep _ _ _ _ node); try done; congruence|].
      split; [apply (tracks_keep _ _ _ _ node); try done; congruence|].
      split; [by apply tracks_remove|].
      apply (tracks_keep _ _ _ _ node); try done; congruence.
    + unfold state1. simpl. rewrite (setStatusAt_insert _ _ _ _ Hnode).
      apply list_lookup_insert_eq. by eapply lookup_lt_Some.
    + by left.
    + exists state2. unfold state1 in Hnodes, Hout. simpl in Hnodes, Hout.
      rewrite setStatusAt_twice in Hnodes.
      by destruct task.
  - intros action Hr Hs He. unfold processRecovery. rewrite Hnode.
    by rewrite (proj2 (String.eqb_neq _ _) Hr), (proj2 (String.eqb_neq _ _) Hs),
      (proj2 (String.eqb_neq _ _) He).
Qed.

Lemma processRecovery_skip_and_retry_witness :
  let state :=
    mkState "lint -> fix"
      (mkGraph
         [mkNode "node-0" AgentNode (Some "lint") None None None Completed;
          mkNode "node-1" AgentNode (Some "fix") None None None Failed]
         [mkEdge "node-0" "node-1" None])
      (mkExecution [] ["node-0"] ["node-1"] []
         (<["node-1" := mkOutput false None (Some "agent crashed") None (Millis 25)]>
            (<["node-0" := mkOutput true (Some "clean") None None (Millis 40)]> ∅)))
      (mkSteering false None None) in
  let node := mkNode "node-1" AgentNode (Some "fix") None None None Failed in
  let task := Rejected "agent crashed again" in
  let editAndReparse := fun s : State => (s, Recovered false) in
  (exists state',
     processRecovery editAndReparse "skip" 1 task 30 state
     = (state', Recovered true)
     /\ consistent state'
     /\ nodes (graph state') = setStatusAt 1 Skipped (nodes (graph state))
     /\ outputs (execution state') = outputs (execution state))
  /\ (exists state',
        processRecovery editAndReparse "retry" 1 task 30 state
        = (state', match task with
                   | Fulfilled _ => Recovered true
                   | Rejected message => RecoveryThrew message
                   end)
        /\ consistent state'
        /\ nodes (graph state')
           = setStatusAt 1
               (match task with Fulfilled _ => Completed | Rejected _ => Failed end)
               (nodes (graph state))
        /\ outputs (execution state')
           = <[id node := match task with
                          | Fulfilled result =>
                              mkOutput true (Some result) None None (Millis 30)
                          | Rejected message =>
                              mkOutput false None (Some message) None (Millis 30)
                          end]> (outputs (execution state)))
  /\ (forall action,
        action <> "retry" -> action <> "skip" -> action <> "edit" ->
        processRecovery editAndReparse action 1 task 30 state
        = (state, Recovered false)).
Proof.
  intros state node task editAndReparse.
  apply (processRecovery_skip_and_retry editAndReparse 1 task 30 state node).
  - apply consistentb_consistent. reflexivity.
  - reflexivity.
  - reflexivity.
Defined.

(** ** When the scheduler throws *)

Lemma inheritedMember_None (cond : string) :
  inheritedName cond = false -> inheritedMember cond = None.
Proof.
  unfold inheritedName, inheritedMember. cbn [existsb].
  rewrite !orb_false_iff. intros (H1 & H2 & H3 & H4 & H5 & H6 & H7 & H8 & H9 & H10 & H11 & H12 & _).
  by rewrite H1, H2, H3, H4, H5, H6, H7, H8, H9, H10, H11, H12.
Qed.

Lemma evaluateCondition_throws (JSON_stringify : Output -> string) (c : string)
  (output : option Output) :
  inheritedName (trim (stripParens c)) = false ->
  (output = None \/ aggregate (trim (stripParens c)) = true ->
   exists e, evaluateCondition JSON_stringify c output = Throw e)
  /\ (~ (output = None \/ aggregate (trim (stripParens c)) = true) ->
      exists b, evaluateCondition JSON_stringify c output = Return b).
Proof.
  intros Hplain%inheritedMember_None.
  unfold evaluateCondition, aggregate, evaluateCustomCondition. cbv zeta.
  rewrite Hplain. clear Hplain.
  set (cond := trim (stripParens c)).
  destruct (String.eqb cond "if passed") eqn:H1.
  { apply String.eqb_eq in H1. rewrite H1. simpl.
    destruct output; split; intros H; try by eexists.
    - by destruct H.
    - exfalso. apply H. by left. }
  destruct (String.eqb cond "if failed") eqn:H2.
  { apply String.eqb_eq in H2. rewrite H2. simpl.
    destruct output; split; intros H; try by eexists.
    - by destruct H.
    - exfalso. apply H. by left. }
  destruct (String.eqb cond "if all success") eqn:H3;
    destruct (String.eqb cond "if all failed") eqn:H4;
    destruct (String.eqb cond "if any success") eqn:H5;
    destruct (String.eqb cond "if any failed") eqn:H6; simpl;
    destruct output; (split; intros H; try (by eexists);
      try (exfalso; apply H; by auto); try (by destruct H)).
  - destruct (String.prefix _ _); [by eexists|].
    destruct (String.prefix _ _); by eexists.
Qed.

Lemma edgeSatisfied_cases (JSON_stringify : Output -> string) (state : State)
  (edge : Edge) :
  plainNames (graph state) = true ->
  In edge (edges (graph state)) ->
  (edgeBroken state edge
   /\ exists e, edgeSatisfied JSON_stringify state edge = Throw e)
  \/ (~ edgeBroken state edge
      /\ exists b, edgeSatisfied JSON_stringify state edge = Return b).
Proof.
  intros Hplain Hedge.
  assert (Hc' : forall c, condition edge = Some c ->
            inheritedName (trim (stripParens c)) = false).
  { intros c Hc. unfold plainNames in Hplain.
    rewrite forallb_forall in Hplain. specialize (Hplain edge Hedge).
    rewrite Hc in Hplain. apply andb_prop in Hplain as [_ Hplain].
    by apply negb_true_iff. }
  clear Hplain Hedge.
  unfold edgeSatisfied, edgeBroken, hasCondition.
  destruct (findNode (nodes (graph state)) (from edge)) as [source|];
    [|left; split; [by left|by eexists]].
  destruct (bool_decide (status source = Completed)) eqn:Hs; cbn [negb].
  2:{ apply bool_decide_eq_false in Hs. right. split; [|by eexists].
      intros [?|(? & ? & [= <-] & ? & _)]; done. }
  apply bool_decide_eq_true in Hs.
  destruct (condition edge) as [c|].
  2:{ right. split; [|by eexists]. intros [?|(? & ? & _ & _ & ? & _)]; done. }
  destruct (String.eqb c EmptyString) eqn:Hc; cbn [negb].
  { apply String.eqb_eq in Hc. right. split; [|by eexists].
    intros [?|(? & ? & _ & _ & [= <-] & ? & _)]; done. }
  apply String.eqb_neq in Hc.
  destruct (evaluateCondition_throws JSON_stringify c
              (outputs (execution state) !! from edge) (Hc' c eq_refl)) as [Ht Hr].
  destruct (outputs (execution state) !! from edge) as [o|] eqn:Ho.
  - destruct (aggregate (trim (stripParens c))) eqn:Ha.
    + left. split; [|apply Ht; by right].
      right. exists source, c. repeat split; try done. by right.
    + right. split.
      * intros [?|(? & c' & _ & _ & [= <-] & _ & [?|?])]; congruence.
      * apply Hr. intros [?|?]; congruence.
  - left. split; [|apply Ht; by left].
    right. exists source, c. repeat split; try done. by left.
Qed.

Lemma everyOutcome_cases {A : Type} (f : A -> Outcome bool) (broken : A -> Prop)
  (l : list A) :
  (forall a, In a l ->
             (broken a /\ exists e, f a = Throw e)
             \/ (~ broken a /\ exists b, f a = Return b)) ->
  ((exists before a after,
      l = before ++ a :: after
      /\ (forall b, In b before -> f b = Return true)
      /\ broken a)
   /\ exists e, everyOutcome f l = Throw e)
  \/ (~ (exists before a after,
           l = before ++ a :: after
           /\ (forall b, In b before -> f b = Return true)
           /\ broken a)
      /\ exists b, everyOutcome f l = Return b).
Proof.
  intros Hf. induction l as [|a l IH]; simpl.
  - right. split; [|by eexists]. intros ([|??] & ? & ? & ? & _); done.
  - destruct (Hf a (or_introl eq_refl)) as [[Hb [e He]]|[Hb [b He]]]; rewrite He; simpl.
    + left. split; [|by eexists]. by exists [], a, l.
    + destruct b.
      * destruct IH as [[(before & x & after & -> & Hbefore & Hx) Hthrow]|[Hno Hret]];
          [intros a' Ha'; apply Hf; by right| |].
        -- left. split; [|done]. exists (a :: before), x, after.
           split; [done|]. split; [|done]. intros y [<-|Hy]; [done|by apply Hbefore].
        -- right. split; [|done].
           intros ([|a' before] & x & after & Heq & Hbefore & Hx);
             simpl in Heq; injection Heq as <- Heq; [done|].
           apply Hno. exists before, x, after. split; [done|]. split; [|done].
           intros y Hy. apply Hbefore. by right.
      * right. split; [|by eexists].
        intros ([|a' before] & x & after & Heq & Hbefore & Hx);
          simpl in Heq; injection Heq as <- Heq; [done|].
        specialize (Hbefore a (or_introl eq_refl)). congruence.
Qed.

Lemma foldOutcome_cases {A S : Type} (f : A -> S -> Outcome S) (broken : A -> Prop)
  (l : list A) (s : S) :
  (forall a s, (broken a /\ exists e, f a s = Throw e)
               \/ (~ broken a /\ exists s', f a s = Return s')) ->
  ((exists a, In a l /\ broken a) /\ exists e, foldOutcome f l s = Throw e)
  \/ (~ (exists a, In a l /\ broken a) /\ exists s', foldOutcome f l s = Return s').
Proof.
  intros Hf. revert s. induction l as [|a l IH]; intros s; simpl.
  - right. split; [|by eexists]. by intros (? & [] & _).
  - destruct (Hf a s) as [[Hb [e He]]|[Hb [s' He]]]; rewrite He; simpl.
    + left. split; [|by eexists]. exists a. split; [by left|done].
    + destruct (IH s') as [[(x & Hx & Hbx) Hthrow]|[Hno Hret]].
      * left. split; [|done]. exists x. split; [by right|done].
      * right. split; [|done]. intros (x & [<-|Hx] & Hbx); [done|].
        apply Hno. by exists x.
Qed.

Lemma edgeSatisfied_code (JSON_stringify : Output -> string) (state : State)
  (edge : Edge) :
  edgeSatisfied JSON_stringify state edge = Return true
  <-> codeEdgeSatisfied JSON_stringify state edge = true.
Proof.
  unfold codeEdgeSatisfied.
  destruct (edgeSatisfied JSON_stringify state edge) as [[]| |]; by split.
Qed.

(** X18: on a graph whose source ids and conditions are no inherited names,
    [findExecutableNodes] either returns or throws, and it throws exactly
    when some pending node has an incoming edge on which the check throws,
    all the incoming edges before it being satisfied: an edge whose source
    does not exist, or an edge with a condition, from a completed source,
    whose source has no recorded output or whose condition is one of the
    four aggregate built-in conditions. *)
Theorem findExecutableNodes_throws_iff (JSON_stringify : Output -> string)
  (state : State) :
  plainNames (graph state) = true ->
  ((exists e, findExecutableNodes JSON_stringify state = Throw e)
   <-> exists node before edge after,
         In node (nodes (graph state))
         /\ status node = Pending
         /\ incomingEdges (edges (graph state)) (id node) = before ++ edge :: after
         /\ (forall e', In e' before -> edgeReady JSON_stringify state e')
         /\ edgeBroken state edge)
  /\ ((exists e, findExecutableNodes JSON_stringify state = Throw e)
      \/ exists ready, findExecutableNodes JSON_stringify state = Return ready).
Proof.
  intros Hplain. unfold findExecutableNodes.
  set (stuck := fun node : Node =>
     status node = Pending
     /\ exists before edge after,
          incomingEdges (edges (graph state)) (id node) = before ++ edge :: after
          /\ (forall e', In e' before ->
                edgeSatisfied JSON_stringify state e' = Return true)
          /\ edgeBroken state edge).
  match goal with |- context [foldOutcome ?f _ _] => set (step := f) end.
  assert (Hstep : forall node ready,
            (stuck node /\ exists e, step node ready = Throw e)
            \/ (~ stuck node /\ exists ready', step node ready = Return ready')).
  { intros node ready. unfold step, stuck.
    destruct (bool_decide (status node = Pending)) eqn:Hp; cbn [negb].
    2:{ apply bool_decide_eq_false in Hp. right. split; [tauto|by eexists]. }
    apply bool_decide_eq_true in Hp. cbv zeta.
    destruct (length (incomingEdges (edges (graph state)) (id node)) =? 0)%nat eqn:Hlen.
    { apply Nat.eqb_eq, length_zero_iff_nil in Hlen. rewrite Hlen.
      right. split; [|by eexists]. intros (_ & [|??] & ? & ? & ? & _); done. }
    destruct (everyOutcome_cases (edgeSatisfied JSON_stringify state) (edgeBroken state)
                (incomingEdges (edges (graph state)) (id node)))
      as [[Hex [e He]]|[Hno [b Hb]]].
    { intros edge [Hedge _]%in_incomingEdges.
      by apply edgeSatisfied_cases. }
    - left. split; [done|]. rewrite He. by eexists.
    - right. split; [tauto|]. rewrite Hb. simpl. destruct b; by eexists. }
  destruct (foldOutcome_cases step stuck (nodes (graph state)) [] Hstep)
    as [[(node & Hin & Hp & before & edge & after & Heq & Hbefore & Hbroken) [e He]]
       |[Hno [ready Hr]]].
  - split; [|left; by eexists]. split; [|by eexists].
    intros _. exists node, before, edge, after. repeat split; try done.
    intros e' He'. by apply edgeSatisfied_true, edgeSatisfied_code, Hbefore.
  - split; [|right; by eexists]. rewrite Hr. split; [by intros [? ?]|].
    intros (node & before & edge & after & Hin & Hp & Heq & Hbefore & Hbroken).
    exfalso. apply Hno. exists node. split; [done|]. split; [done|].
    exists before, edge, after. repeat split; try done.
    intros e' He'. by apply edgeSatisfied_code, edgeSatisfied_true, Hbefore.
Qed.

Lemma findExecutableNodes_throws_iff_witness :
  let state :=
    mkState "lint (if all success)~> ship"
      (mkGraph
         [mkNode "node-0" AgentNode (Some "lint") None None None Completed;
          mkNode "node-1" AgentNode (Some "ship") None None None Pending]
         [mkEdge "node-0" "node-1" (Some "(if all success)")])
      (mkExecution [] ["node-0"] [] []
         (<["node-0" := mkOutput true (Some "clean") None None (Millis 40)]> ∅))
      (mkSteering false None None) in
  ((exists e, findExecutableNodes (fun _ => EmptyString) state = Throw e)
   <-> exists node before edge after,
         In node (nodes (graph state))
         /\ status node = Pending
         /\ incomingEdges (edges (graph state)) (id node) = before ++ edge :: after
         /\ (forall e', In e' before -> edgeReady (fun _ => EmptyString) state e')
         /\ edgeBroken state edge)
  /\ ((exists e, findExecutableNodes (fun _ => EmptyString) state = Throw e)
      \/ exists ready, findExecutableNodes (fun _ => EmptyString) state = Return ready).
Proof.
  intros state.
  apply (findExecutableNodes_throws_iff (fun _ => EmptyString) state).
  reflexivity.
Defined.


(** ** Repeating the last completed step *)

Lemma findNodeIndex_id (ns : list Node) (x : NodeId) (i : nat) :
  findNodeIndex ns x = Some i -> exists n, ns !! i = Some n /\ id n = x.
Proof.
  intros (n & Hn & Hfind & _)%findNodeIndex_Some. exists n. split; [done|].
  unfold findNode in Hfind. apply find_some in Hfind as [_ Hid].
  by apply String.eqb_eq.
Qed.

Lemma findNodeIndex_listed (ns : list Node) (x : NodeId) :
  In x (List.map id ns) -> exists i, findNodeIndex ns x = Some i.
Proof.
  intros [n Hn]%findNode_In.
  destruct (findNodeIndex ns x) as [i|] eqn:Hi; [by eexists|].
  apply findNodeIndex_None in Hi. congruence.
Qed.

(** X19: in a consistent state whose [completed] list is not empty,
    [processRepeat] succeeds: the node completed last is pending again, its
    id has left [completed], its output is deleted, the run is no longer
    paused, and the state is still consistent. *)
Theorem processRepeat_resets_the_last_completed (state : State)
  (before : list NodeId) (lastNodeId : NodeId) :
  consistent state ->
  completed (execution state) = before ++ [lastNodeId] ->
  exists index node state',
    nodes (graph state) !! index = Some node
    /\ id node = lastNodeId /\ status node = Completed
    /\ processRepeat state = (RepeatDone lastNodeId, state')
    /\ consistent state'
    /\ nodes (graph state') = setStatusAt index Pending (nodes (graph state))
    /\ ~ In lastNodeId (completed (execution state'))
    /\ outputs (execution state') = delete lastNodeId (outputs (execution state))
    /\ paused (steering state') = false
    /\ edges (graph state') = edges (graph state).
Proof.
  intros (Hnd & Hcur & Hcom & Hfai & Hski) Hlast.
  assert (Hin : In lastNodeId (completed (execution state))).
  { rewrite Hlast, in_app_iff. right. by left. }
  destruct (findNodeIndex_listed (nodes (graph state)) lastNodeId) as [index Hindex];
    [exact (tracks_listed _ _ _ _ Hcom Hin)|].
  destruct (findNodeIndex_id _ _ _ Hindex) as (node & Hnode & Hid).
  assert (Hst : status node = Completed).
  { apply Hcom in Hin as (n & (j & Hj)%In_lookup & Hn & Hs).
    assert (j = index) as -> by (apply (id_unique (nodes (graph state)) j index n node); congruence).
    congruence. }
  exists index, node. eexists.
  split; [done|]. split; [done|]. split; [done|].
  split.
  { assert (Hl : last (completed (execution state)) = Some lastNodeId)
      by (by rewrite Hlast, last_snoc).
    unfold processRepeat. rewrite Hl, Hindex. reflexivity. }
  unfold consistent. simpl. rewrite <- Hid.
  split.
  - split; [by rewrite ids_setStatusAt|].
    split; [apply (tracks_keep _ _ _ _ node); try done; congruence|].
    split; [by apply tracks_remove|].
    split; apply (tracks_keep _ _ _ _ node); try done; congruence.
  - split; [done|]. split; [|done]. rewrite In_without. tauto.
Qed.

Lemma processRepeat_resets_the_last_completed_witness :
  let state :=
    mkState "lint -> fix"
      (mkGraph
         [mkNode "node-0" AgentNode (Some "lint") None None None Completed;
          mkNode "node-1" AgentNode (Some "fix") None None None Completed]
         [mkEdge "node-0" "node-1" None])
      (mkExecution [] ["node-0"; "node-1"] [] []
         (<["node-1" := mkOutput true (Some "fixed") None None (Millis 25)]>
            (<["node-0" := mkOutput true (Some "2 warnings") None None (Millis 40)]> ∅)))
      (mkSteering true (Some "node-1") (Some "repeat")) in
  exists index node state',
    nodes (graph state) !! index = Some node
    /\ id node = "node-1" /\ status node = Completed
    /\ processRepeat state = (RepeatDone "node-1", state')
    /\ consistent state'
    /\ nodes (graph state') = setStatusAt index Pending (nodes (graph state))
    /\ ~ In "node-1" (completed (execution state'))
    /\ outputs (execution state') = delete "node-1" (outputs (execution state))
    /\ paused (steering state') = false
    /\ edges (graph state') = edges (graph state).
Proof.
  intros state.
  apply (processRepeat_resets_the_last_completed state ["node-0"] "node-1").
  - apply consistentb_consistent. reflexivity.
  - reflexivity.
Defined.

(** ** Inserting a node before another one *)

Lemma incoming_redirected (targetId newId other : NodeId) (es : list Edge) :
  targetId <> newId ->
  (forall e, In e es -> to e <> newId) ->
  incomingEdges (List.map (redirect targetId newId) es) other
  = if String.eqb other targetId then []
    else if String.eqb other newId
         then List.map (fun e => mkEdge (from e) newId (condition e))
                (incomingEdges es targetId)
         else incomingEdges es other.
Proof.
  intros Hne Hfresh. unfold incomingEdges.
  induction es as [|e es IH]; simpl.
  - destruct (String.eqb other targetId); [done|]. by destruct (String.eqb other newId).
  - rewrite IH by (intros e' He'; apply Hfresh; by right). clear IH.
    pose proof (Hfresh e (or_introl eq_refl)) as He.
    unfold redirect.
    destruct (String.eqb_spec (to e) targetId) as [Ht|Ht]; simpl.
    + destruct (String.eqb_spec other targetId) as [->|Ho].
      * by rewrite (proj2 (String.eqb_neq newId targetId)) by congruence.
      * destruct (String.eqb_spec other newId) as [->|Ho'].
        -- by rewrite String.eqb_refl.
        -- rewrite (proj2 (String.eqb_neq newId other)) by congruence.
           by rewrite (proj2 (String.eqb_neq (to e) other)) by congruence.
    + destruct (String.eqb_spec other targetId) as [->|Ho].
      * by rewrite (proj2 (String.eqb_neq (to e) targetId)).
      * destruct (String.eqb_spec other newId) as [->|Ho'].
        -- by rewrite (proj2 (String.eqb_neq (to e) newId)).
        -- done.
Qed.

Lemma incomingEdges_app (es es' : list Edge) (x : NodeId) :
  incomingEdges (es ++ es') x = incomingEdges es x ++ incomingEdges es' x.
Proof. unfold incomingEdges. apply List.filter_app. Qed.

(** X20: when the id of the new node is not the id of the target and enters
    no edge yet, [insertNodeBefore] leaves the target a single incoming
    edge, which comes unconditionally from the new node; the new node takes
    over the incoming edges of the target with their sources and conditions;
    the incoming edges of every other node are unchanged; and every node
    that could be reached from another one still can. *)
Theorem insertNodeBefore_splices_the_node (newNode targetNode : Node) (graph : Graph) :
  id newNode <> id targetNode ->
  (forall e, In e (edges graph) -> to e <> id newNode) ->
  let graph' := insertNodeBefore newNode targetNode graph in
  incomingEdges (edges graph') (id targetNode)
  = [mkEdge (id newNode) (id targetNode) None]
  /\ incomingEdges (edges graph') (id newNode)
     = List.map (fun e => mkEdge (from e) (id newNode) (condition e))
         (incomingEdges (edges graph) (id targetNode))
  /\ (forall other, other <> id targetNode -> other <> id newNode ->
        incomingEdges (edges graph') other = incomingEdges (edges graph) other)
  /\ (forall a b, rtc (anyEdge (edges graph)) a b -> rtc (anyEdge (edges graph')) a b).
Proof.
  intros Hne Hfresh graph'. unfold graph', insertNodeBefore. cbn [edges].
  assert (Hne' : id targetNode <> id newNode) by congruence.
  split; [|split; [|split]].
  - rewrite incomingEdges_app, (incoming_redirected _ _ _ _ Hne' Hfresh).
    rewrite String.eqb_refl. unfold incomingEdges. simpl.
    by rewrite String.eqb_refl.
  - rewrite incomingEdges_app, (incoming_redirected _ _ _ _ Hne' Hfresh).
    rewrite (proj2 (String.eqb_neq _ _) Hne), String.eqb_refl.
    unfold incomingEdges at 2. simpl.
    rewrite (proj2 (String.eqb_neq _ _) Hne'). by rewrite app_nil_r.
  - intros other Ht Hn.
    rewrite incomingEdges_app, (incoming_redirected _ _ _ _ Hne' Hfresh).
    rewrite (proj2 (String.eqb_neq _ _) Ht), (proj2 (String.eqb_neq _ _) Hn).
    unfold incomingEdges at 2. simpl.
    rewrite (proj2 (String.eqb_neq (id targetNode) other)) by congruence.
    by rewrite app_nil_r.
  - intros a b Hab. induction Hab as [|a b c (e & He & Hfrom & Hto) _ IH]; [done|].
    destruct (String.eqb_spec (to e) (id targetNode)) as [Ht|Ht].
    + apply rtc_l with (id newNode).
      { exists (mkEdge (from e) (id newNode) (condition e)). split; [|done].
        apply in_app_iff. left. apply in_map_iff. exists e. split; [|done].
        unfold redirect. by rewrite (proj2 (String.eqb_eq _ _) Ht). }
      apply rtc_l with b; [|done].
      exists (mkEdge (id newNode) (id targetNode) None). split; [|split; [done|]].
      * apply in_app_iff. right. by left.
      * simpl. congruence.
    + apply rtc_l with b; [|done].
      exists e. split; [|done]. apply in_app_iff. left. apply in_map_iff.
      exists e. split; [|done]. unfold redirect.
      by rewrite (proj2 (String.eqb_neq _ _) Ht).
Qed.

Lemma insertNodeBefore_splices_the_node_witness :
  let newNode := mkNode "debug-1" AgentNode (Some "debugger") None None None Pending in
  let targetNode := mkNode "node-1" AgentNode (Some "fix") None None None Pending in
  let graph :=
    mkGraph
      [mkNode "node-0" AgentNode (Some "test") None None None Completed; targetNode]
      [mkEdge "node-0" "node-1" (Some "(if failed)")] in
  let graph' := insertNodeBefore newNode targetNode graph in
  incomingEdges (edges graph') (id targetNode)
  = [mkEdge (id newNode) (id targetNode) None]
  /\ incomingEdges (edges graph') (id newNode)
     = List.map (fun e => mkEdge (from e) (id newNode) (condition e))
         (incomingEdges (edges graph) (id targetNode))
  /\ (forall other, other <> id targetNode -> other <> id newNode ->
        incomingEdges (edges graph') other = incomingEdges (edges graph) other)
  /\ (forall a b, rtc (anyEdge (edges graph)) a b -> rtc (anyEdge (edges graph')) a b).
Proof.
  intros newNode targetNode graph.
  apply (insertNodeBefore_splices_the_node newNode targetNode graph).
  - discriminate.
  - intros e [<-|[]]. discriminate.
Defined.

(** ** Wrapping text *)

Lemma withoutSpaces_app (a b : string) :
  withoutSpaces (a +:+ b) = withoutSpaces a +:+ withoutSpaces b.
Proof.
  induction a as [|c a IH]; simpl; [done|].
  destruct (Ascii.eqb c " "); simpl; by rewrite IH.
Qed.

Lemma withoutSpaces_join (lines : list string) :
  withoutSpaces (join " " lines) = withoutSpaces (join EmptyString lines).
Proof.
  induction lines as [|x [|y l] IH]; [done|done|].
  change (join " " (x :: y :: l)) with (x +:+ " " +:+ join " " (y :: l)).
  change (join EmptyString (x :: y :: l))
    with (x +:+ EmptyString +:+ join EmptyString (y :: l)).
  by rewrite !withoutSpaces_app, IH.
Qed.

Lemma join_empty_cons (x : string) (l : list string) :
  join EmptyString (x :: l) = x +:+ join EmptyString l.
Proof. destruct l; simpl; [by rewrite string_app_nil_r|done]. Qed.

Lemma join_empty_app (l l' : list string) :
  join EmptyString (l ++ l') = join EmptyString l +:+ join EmptyString l'.
Proof.
  induction l as [|x l IH]; [done|].
  change ((x :: l) ++ l') with (x :: (l ++ l')).
  by rewrite !join_empty_cons, IH, string_app_assoc.
Qed.

Lemma splitOn_join (s : string) :
  withoutSpaces (join EmptyString (splitOn " " s)) = withoutSpaces s.
Proof.
  induction s as [|c s IH]; [done|]. cbn [splitOn withoutSpaces].
  destruct (Ascii.eqb c " ") eqn:Hc; cbv iota.
  - by rewrite join_empty_cons.
  - destruct (splitOn " " s) as [|word words]; cbv iota.
    + rewrite <- IH. simpl. by rewrite Hc.
    + rewrite join_empty_cons in *. rewrite <- IH.
      rewrite string_app_cons. cbn [withoutSpaces]. by rewrite Hc.
Qed.

Lemma wrapStep_text (maxWidth : nat) (words : list string) (st : list string * string) :
  let st' := fold_left (wrapStep maxWidth) words st in
  withoutSpaces (join EmptyString (fst st') +:+ snd st')
  = withoutSpaces (join EmptyString (fst st) +:+ snd st)
    +:+ withoutSpaces (join EmptyString words).
Proof.
  revert st. induction words as [|word words IH]; intros [lines currentLine];
    cbn [fold_left].
  - simpl. by rewrite string_app_nil_r.
  - cbv zeta in IH. rewrite IH, join_empty_cons. clear IH.
    rewrite (withoutSpaces_app word), <- string_app_assoc. f_equal.
    unfold wrapStep.
    destruct (String.length (currentLine +:+ word) <=? maxWidth)%nat; cbn [fst snd].
    + destruct (String.eqb currentLine EmptyString);
        by rewrite !withoutSpaces_app, ?string_app_assoc.
    + by rewrite join_empty_app, !withoutSpaces_app, join_empty_cons,
        ?withoutSpaces_app, ?string_app_assoc, ?string_app_nil_r.
Qed.

(** X21: the lines of [wrapText], joined by spaces, are the text up to its
    spaces: no other character is lost, added or moved. *)
Theorem wrapText_keeps_the_text (text : string) (maxWidth : nat) :
  withoutSpaces (join " " (wrapText text maxWidth)) = withoutSpaces text.
Proof.
  rewrite withoutSpaces_join. unfold wrapText.
  pose proof (wrapStep_text maxWidth (splitOn " " text) ([], EmptyString)) as H.
  cbv zeta in H. simpl in H.
  destruct (fold_left (wrapStep maxWidth) (splitOn " " text) ([], EmptyString))
    as [lines currentLine].
  simpl in H. rewrite splitOn_join, string_app_nil_l in H. rewrite <- H.
  destruct (String.eqb_spec currentLine EmptyString) as [->|_].
  - by rewrite string_app_nil_r.
  - by rewrite join_empty_app, join_empty_cons, string_app_nil_r.
Qed.

Lemma wrapStep_bound (maxWidth : nat) (words : list string) (st : list string * string) :
  Forall (fun word => String.length word <= maxWidth) words ->
  Forall (fun line => 0 < String.length line <= maxWidth + 1) (fst st) ->
  String.length (snd st) <= maxWidth + 1 ->
  let st' := fold_left (wrapStep maxWidth) words st in
  Forall (fun line => 0 < String.length line <= maxWidth + 1) (fst st')
  /\ String.length (snd st') <= maxWidth + 1.
Proof.
  revert st. induction words as [|word words IH]; intros [lines currentLine];
    simpl; intros Hwords Hlines Hcur; [done|].
  apply List.Forall_cons_iff in Hwords as [Hword Hwords].
  apply IH; [done| |]; clear IH;
    destruct (String.length (currentLine +:+ word) <=? maxWidth)%nat eqn:Hfit;
    simpl; try done.
  - apply List.Forall_app. split; [done|]. constructor; [|constructor].
    apply Nat.leb_gt in Hfit. rewrite string_app_length in Hfit. lia.
  - apply Nat.leb_le in Hfit. rewrite string_app_length in Hfit.
    rewrite !string_app_length.
    destruct (String.eqb currentLine EmptyString); simpl; lia.
  - lia.
Qed.

(** X22: when no word of the text is longer than [maxWidth], no line of
    [wrapText] is empty and every line has at most [maxWidth + 1]
    characters: the space that joins a word to the line is not counted when
    the word is fitted. *)
Theorem wrapText_line_length (text : string) (maxWidth : nat) :
  (forall word, In word (splitOn " " text) -> String.length word <= maxWidth) ->
  forall line, In line (wrapText text maxWidth) ->
    0 < String.length line <= maxWidth + 1.
Proof.
  intros Hwords. apply List.Forall_forall. unfold wrapText.
  pose proof (wrapStep_bound maxWidth (splitOn " " text) ([], EmptyString)) as H.
  cbv zeta in H. simpl in H.
  destruct (fold_left (wrapStep maxWidth) (splitOn " " text) ([], EmptyString))
    as [lines currentLine].
  destruct H as [Hlines Hcur]; [by apply List.Forall_forall|constructor|lia|].
  simpl in Hlines, Hcur.
  destruct (String.eqb_spec currentLine EmptyString) as [->|Hne]; [done|].
  apply List.Forall_app. split; [done|]. constructor; [|constructor].
  split; [|done]. destruct currentLine; [done|simpl; lia].
Qed.

Lemma wrapText_line_length_witness :
  (forall line, In line (wrapText "tests fails today" 10) ->
     0 < String.length line <= 10 + 1)
  /\ wrapText "tests fails today" 10 = ["tests fails"; "today"].
Proof.
  split; [|reflexivity].
  apply (wrapText_line_length "tests fails today" 10).
  intros word Hword. simpl in Hword.
  destruct Hword as [<-|[<-|[<-|[]]]]; simpl; lia.
Defined.

(** ** From the output of one node to the prompt of the next *)





(** X24: without [state.graph.variables] nothing is kept and nothing can be
    read.  The output of a node is captured in an object that is thrown
    away, and a node with an instruction and template variables is never
    run: the call throws, naming all its variables as missing, before the
    task function is called. *)
Theorem executeAgentWithTempAgents_without_a_store
  (node : TempNode) (taskFn : TaskParams -> JsValue + string) :
  (forall instr answer,
     prepareNodeInstruction node [] = Normal instr ->
     taskFn (taskParamsOf node instr) = inl answer ->
     executeAgentWithTempAgents node None taskFn = Normal (answer, None))
  /\ (forall instr var vars,
        instruction (base node) = Some instr -> instr <> EmptyString ->
        templateVars node = Some (var :: vars) ->
        executeAgentWithTempAgents node None taskFn
        = Abrupt ("Cannot execute node '" +:+ id (base node) +:+
                  "': missing variables: " +:+ join ", " (var :: vars))).
Proof.
  split.
  - intros instr answer Hprep Htask. unfold executeAgentWithTempAgents.
    change (default [] (@None Variables)) with (@nil (string * JsValue)).
    rewrite Hprep, Htask. by destruct (truthy (outputVar node)).
  - intros instr var vars Hinstr Hne Hvars. unfold executeAgentWithTempAgents.
    change (default [] (@None Variables)) with (@nil (string * JsValue)).
    unfold prepareNodeInstruction. rewrite Hinstr.
    rewrite (proj2 (String.eqb_neq instr EmptyString) Hne).
    unfold checkNodeVariableDependencies. rewrite Hvars.
    cbn [length Nat.eqb].
    rewrite (missingOf_inherited [] (var :: vars) eq_refl).
    by rewrite filter_all.
Qed.

(** ** A variable named [hasOwnProperty] *)

(** X25: a store that has a variable named [hasOwnProperty] can no longer be
    read: the call [variables.hasOwnProperty] throws a [TypeError].
    Interpolating any instruction with a placeholder throws it; the
    dependency check of a node with template variables throws it, and
    [prepareNodeInstruction] lets it through as it is; for a node without
    template variables the error comes from the interpolation and is
    reported as a failure to prepare the instruction. *)
Theorem hasOwnProperty_variable_breaks_the_store
  (variables : Variables) (value : JsValue) :
  getOwn "hasOwnProperty" variables = Some value ->
  (forall instr w,
     hasPlaceholder instr w ->
     interpolateVariables (Some instr) variables = Throw notAFunction)
  /\ (forall node var vars,
        templateVars node = Some (var :: vars) ->
        checkNodeVariableDependencies node variables = Throw notAFunction)
  /\ (forall node instr var vars,
        instruction (base node) = Some instr -> instr <> EmptyString ->
        templateVars node = Some (var :: vars) ->
        prepareNodeInstruction node variables = Uncaught notAFunction)
  /\ (forall node instr w,
        instruction (base node) = Some instr -> hasPlaceholder instr w ->
        templateVars node = None ->
        prepareNodeInstruction node variables
        = Abrupt ("Failed to prepare instruction for node '" +:+ id (base node)
                  +:+ "': variables.hasOwnProperty is not a function")).
Proof.
  intros Hown.
  assert (Hown' : getOwn "hasOwnProperty" variables <> None) by congruence.
  assert (Hcheck : forall node var vars,
            templateVars node = Some (var :: vars) ->
            checkNodeVariableDependencies node variables = Throw notAFunction).
  { intros node var vars Hvars. unfold checkNodeVariableDependencies.
    rewrite Hvars. cbn [length Nat.eqb]. by rewrite missingOf_throws. }
  split; [intros instr w; by apply interpolateVariables_not_a_function|].
  split; [exact Hcheck|]. split.
  - intros node instr var vars Hinstr Hne Hvars. unfold prepareNodeInstruction.
    rewrite Hinstr, (proj2 (String.eqb_neq instr EmptyString) Hne).
    by rewrite (Hcheck node var vars Hvars).
  - intros node instr w Hinstr Hw Hvars. unfold prepareNodeInstruction.
    rewrite Hinstr.
    assert (Hne : String.eqb instr EmptyString = false).
    { apply String.eqb_neq. destruct Hw as (_ & _ & before & after & ->).
      by destruct before. }
    rewrite Hne. unfold checkNodeVariableDependencies. rewrite Hvars.
    by rewrite (interpolateVariables_not_a_function variables instr w Hown' Hw).
Qed.

Lemma hasOwnProperty_variable_breaks_the_store_witness :
  let variables := [("bugs", VString "2 bugs"); ("hasOwnProperty", VString "yes")] in
  (forall instr w,
     hasPlaceholder instr w ->
     interpolateVariables (Some instr) variables = Throw notAFunction)
  /\ (forall node var vars,
        templateVars node = Some (var :: vars) ->
        checkNodeVariableDependencies node variables = Throw notAFunction)
  /\ (forall node instr var vars,
        instruction (base node) = Some instr -> instr <> EmptyString ->
        templateVars node = Some (var :: vars) ->
        prepareNodeInstruction node variables = Uncaught notAFunction)
  /\ (forall node instr w,
        instruction (base node) = Some instr -> hasPlaceholder instr w ->
        templateVars node = None ->
        prepareNodeInstruction node variables
        = Abrupt ("Failed to prepare instruction for node '" +:+ id (base node)
                  +:+ "': variables.hasOwnProperty is not a function")).
Proof.
  intros variables.
  apply (hasOwnProperty_variable_breaks_the_store variables (VString "yes")).
  reflexivity.
Defined.
